(** * OID-demo: the TypeORM persistence adapter and the relying-party callback

    A shallow embedding of [oidc-demo/adapter.js] (the entity schemas, the
    connection life cycle and the adapter factory with its nine operations)
    and of the [/callback] route of [rp-demo/app.js] (in its two revisions),
    with the properties the specification states about them; then of the
    other routes of [rp-demo/app.js], of the accounts and the login
    interaction of [oidc-demo/idp.js], and of the key set that
    [generate-keys.js] writes and [idp.js] loads, with further properties
    read off the code.

    The adapter is written against the TypeORM 0.2 repository API
    ([createConnection], [findOne(conditions)], [findOne(id)], [create],
    [merge], [save], [delete]) on a SQLite database.  Module [TypeORM] below
    is the model of that API the adapter is run against; everything after it
    follows the JavaScript of the repository line by line. *)

From stdpp Require Import base option list strings gmap fin_maps.
From Stdlib Require Import ZArith DecimalString.

Local Open Scope string_scope.

(** ** JavaScript values held in entity fields *)

(** A field that is [undefined] is a key that is absent from the object; an
    explicit [null] is [VNull]. *)
Inductive value : Type :=
  | VNull
  | VStr (s : string)
  | VNum (n : Z)
  | VBool (b : bool)
  | VJson (json : string).

#[global] Instance value_eq_dec : EqDecision value.
Proof. solve_decision. Defined.

(** A plain object / entity instance: field name to value. *)
Abbreviation Entity := (gmap string value).

(** ** Exceptions *)

Inductive error : Type :=
  | ConnectionNotEstablished
      (* Error('TypeORM connection not established. Call initializeAdapter() first.') *)
  | UnknownModel (model : string)          (* Error(`Unknown model: ${model}`) *)
  | RepositoryNotFound (target : string)   (* typeorm: RepositoryNotFoundError *)
  | EntityColumnNotFound (column : string) (* typeorm: no such column in a where clause *)
  | NotNullConstraint (column : string)    (* sqlite: NOT NULL constraint failed *)
  | UniqueConstraint (column : string)     (* sqlite: UNIQUE constraint failed *)
  | EmptyCriteria                          (* typeorm: empty criteria passed to delete *)
  | AuthorizationResponseError             (* openid-client: the callback parameters are rejected *)
  | TokenEndpointError (code : string)     (* openid-client: the token endpoint refused the grant *)
  | TypeError.                             (* a property read on undefined, a call of
                                              something that is not a function *)

Inductive result (A : Type) : Type :=
  | OK (a : A)
  | Throw (e : error).
Arguments OK {A} a.
Arguments Throw {A} e.

Definition threw {A} (r : result A) : Prop := ∃ e, r = Throw e.

(** ** The TypeORM repository API, as used by the adapter *)

Module TypeORM.

Inductive ColumnType : Type := varchar | simple_json | boolean | bigint.

(** The options of one column of an [EntitySchema]; [nullable] defaults to
    [false], which makes the column NOT NULL in the generated table. *)
Record ColumnOptions : Type := {
  primary : bool;
  type : ColumnType;
  nullable : bool
}.

Record EntitySchema : Type := {
  name : string;
  tableName : string;
  columns : list (string * ColumnOptions)
}.

Definition columnNames (md : EntitySchema) : list string := (columns md).*1.

Definition hasColumn (md : EntitySchema) (c : string) : Prop := c ∈ columnNames md.

#[global] Instance hasColumn_dec md c : Decision (hasColumn md c).
Proof. unfold hasColumn. apply _. Defined.

Definition primaryColumn (md : EntitySchema) : string :=
  default "" (head (filter (λ c, primary c.2 = true) (columns md)).*1).

Definition requiredColumns (md : EntitySchema) : list string :=
  (filter (λ c, nullable c.2 = false) (columns md)).*1.

Definition columnType (md : EntitySchema) (c : string) : option ColumnType :=
  (λ cv, type cv.2) <$> head (filter (λ cv, cv.1 = c) (columns md)).

(** *** What a column gives back

    A value written to a column is not always the value read from it.
    TypeORM's sqlite driver writes a [boolean] column as 1 when the value
    is [true] and as 0 otherwise, and reads it back as a boolean; it writes
    a [simple-json] column as the JSON text of the value and parses the
    text when it reads.  Other values go to the sqlite3 driver as they are
    ([true] and [false] bound as 1 and 0, an object as the text
    "[object Object]"), and SQLite converts them to the affinity of the
    column: TEXT for [varchar], where a number is kept as its numeral, and
    INTEGER for [bigint], where a text that is a numeral is kept as the
    number.  NULL stays NULL everywhere. *)

(** The numeral of an integer, and the integer of a text that is a plain
    decimal numeral. *)
Definition decimal (n : Z) : string := NilZero.string_of_int (Z.to_int n).
Definition integer (s : string) : option Z := Z.of_int <$> NilZero.int_of_string s.

Definition persisted (ty : ColumnType) (v : value) : value :=
  match v with
  | VNull => VNull
  | _ =>
      match ty with
      | simple_json => v
      | boolean => VBool (bool_decide (v = VBool true))
      | varchar =>
          match v with
          | VNum n => VStr (decimal n)
          | VBool b => VStr (if b then "1" else "0")
          | VJson _ => VStr "[object Object]"
          | _ => v
          end
      | bigint =>
          match v with
          | VStr s => match integer s with Some n => VNum n | None => v end
          | VBool b => VNum (if b then 1 else 0)
          | VJson _ => VStr "[object Object]"
          | _ => v
          end
      end
  end.

(** The values a column of type [ty] gives back as they were written: a
    string in a [varchar] column, an integer in a [bigint] column, a
    boolean in a [boolean] column, anything but null in a [simple-json]
    column. *)
Definition native (ty : ColumnType) (v : value) : Prop :=
  match ty, v with
  | _, VNull => False
  | varchar, VStr _ | bigint, VNum _ | boolean, VBool _ | simple_json, _ => True
  | _, _ => False
  end.

(** The rows of one table, in insertion order; every database is a map
    from table names to tables. *)
Abbreviation Table := (list Entity).
Abbreviation Database := (gmap string (list Entity)).

(** An established connection: the metadata of the registered entities. *)
Record Connection : Type := { entityMetadatas : list EntitySchema }.

(** A repository is bound to the metadata of its entity. *)
Record Repository : Type := { metadata : EntitySchema }.

(** Operations run against the database and either return or throw; the
    database they leave behind is returned in both cases. *)
Definition M (A : Type) : Type := Database → result A * Database.

Definition ret {A} (a : A) : M A := λ db, (OK a, db).
Definition throw {A} (e : error) : M A := λ db, (Throw e, db).
Definition bind {A B} (m : M A) (k : A → M B) : M B := λ db,
  match m db with
  | (OK a, db') => k a db'
  | (Throw e, db') => (Throw e, db')
  end.

(** [connection.getRepository(target)]: the metadata is found by entity
    name or by table name; an unregistered target is rejected. *)
Definition findMetadata (c : Connection) (target : string) : option EntitySchema :=
  head (filter (λ md, name md = target ∨ tableName md = target) (entityMetadatas c)).

Definition getRepository (c : Connection) (target : string) : result Repository :=
  match findMetadata c target with
  | Some md => OK {| metadata := md |}
  | None => Throw (RepositoryNotFound target)
  end.

Definition rows (r : Repository) (db : Database) : Table :=
  default [] (db !! tableName (metadata r)).

(** A where-object [{ c1: v1, ..., cn: vn }] whose values are strings. *)
Abbreviation Conditions := (list (string * string)).

Definition satisfies (where_ : Conditions) (row : Entity) : Prop :=
  Forall (λ cv, row !! cv.1 = Some (VStr cv.2)) where_.

#[global] Instance satisfies_dec where_ row : Decision (satisfies where_ row).
Proof. unfold satisfies. apply _. Defined.

(** The first property of a where-object that is not a column of the entity. *)
Definition unknownColumn (r : Repository) (where_ : Conditions) : option string :=
  head (filter (λ c, ¬ hasColumn (metadata r) c) where_.*1).

(** [whereInIds(id)] for an entity with one primary column. *)
Definition idMap (r : Repository) (id : string) : Conditions :=
  [(primaryColumn (metadata r), id)].

(** [repository.findOne(conditions)]: the first row that satisfies every
    condition ([take: 1]), or [undefined]. *)
Definition findOne (r : Repository) (where_ : Conditions) : M (option Entity) := λ db,
  match unknownColumn r where_ with
  | Some c => (Throw (EntityColumnNotFound c), db)
  | None => (OK (head (filter (satisfies where_) (rows r db))), db)
  end.

(** [repository.findOne(id)] with a string id. *)
Definition findOneById (r : Repository) (id : string) : M (option Entity) :=
  findOne r (idMap r id).

(** [repository.create(plain)]: a new entity instance holding the
    properties of [plain] that are columns of the entity. *)
Definition create (r : Repository) (plain : Entity) : Entity :=
  filter (λ kv, hasColumn (metadata r) kv.1) plain.

(** [repository.merge(entity, plain)]: every column that [plain] defines
    is copied over the entity; other columns of the entity are kept and
    other properties of [plain] are ignored. *)
Definition merge (r : Repository) (entity plain : Entity) : Entity :=
  create r plain ∪ entity.

(** What column [c] of the entity gives back once [v] was written to it. *)
Definition columnValue (r : Repository) (c : string) (v : value) : value :=
  match columnType (metadata r) c with
  | Some ty => persisted ty v
  | None => v
  end.

(** The values the entity gives to the columns [cs], as the table gives
    them back; NULL where the entity leaves a column undefined. *)
Definition values (r : Repository) (entity : Entity) (cs : list string) : Entity :=
  list_to_map ((λ c, (c, columnValue r c (default VNull (entity !! c)))) <$> cs).

(** The row an INSERT writes for an entity: one value per column. *)
Definition toRow (r : Repository) (entity : Entity) : Entity :=
  values r entity (columnNames (metadata r)).

Definition isNull (entity : Entity) (c : string) : Prop :=
  entity !! c = None ∨ entity !! c = Some VNull.

#[global] Instance isNull_dec entity c : Decision (isNull entity c).
Proof. unfold isNull. apply _. Defined.

Definition violatedNotNull (r : Repository) (entity : Entity) : option string :=
  head (filter (isNull entity) (requiredColumns (metadata r))).

(** The row is the one [save] loads for the entity: the entity has an id
    (a primary key that is neither undefined nor null) and the row's key is
    that very value. *)
Definition sameId (r : Repository) (entity row : Entity) : Prop :=
  ¬ isNull entity (primaryColumn (metadata r))
  ∧ row !! primaryColumn (metadata r) = entity !! primaryColumn (metadata r).

#[global] Instance sameId_dec r entity row : Decision (sameId r entity row).
Proof. unfold sameId. apply _. Defined.

(** The columns an UPDATE sets: those the entity defines, with a value
    other than the one loaded from the database.  A column the entity
    leaves undefined is skipped. *)
Definition changed (entity old : Entity) (c : string) : Prop :=
  is_Some (entity !! c) ∧ entity !! c ≠ old !! c.

#[global] Instance changed_dec entity old c : Decision (changed entity old c).
Proof. unfold changed. apply _. Defined.

Definition changedColumns (r : Repository) (entity old : Entity) : list string :=
  filter (changed entity old) (columnNames (metadata r)).

(** A row after the UPDATE computed for [entity] against the loaded [old]. *)
Definition updated (r : Repository) (entity old row : Entity) : Entity :=
  values r entity (changedColumns r entity old) ∪ row.

(** The first NOT NULL column an UPDATE would set to NULL. *)
Definition nulledNotNull (r : Repository) (entity old : Entity) : option string :=
  head (filter (λ c, entity !! c = Some VNull ∧ changed entity old c)
          (requiredColumns (metadata r))).

(** The table [save] leaves for an entity.  When the entity has an id and
    a row with that id is loaded, the row is UPDATEd in the columns that
    changed; otherwise a row is INSERTed, with NULL in the columns the
    entity leaves undefined.  A NULL written to a column that is not
    nullable makes the statement fail, and so does an INSERT whose key,
    as the table keeps it, is the key of a row already there. *)
Definition written (r : Repository) (entity : Entity) (t : Table) : result Table :=
  match head (filter (sameId r entity) t) with
  | Some old =>
      match nulledNotNull r entity old with
      | Some c => Throw (NotNullConstraint c)
      | None =>
          OK ((λ row, if decide (sameId r entity row) then updated r entity old row else row)
                <$> t)
      end
  | None =>
      match violatedNotNull r entity with
      | Some c => Throw (NotNullConstraint c)
      | None =>
          if decide (Exists (λ row, row !! primaryColumn (metadata r)
                                    = toRow r entity !! primaryColumn (metadata r)) t)
          then Throw (UniqueConstraint (primaryColumn (metadata r)))
          else OK (t ++ [toRow r entity])%list
      end
  end.

(** [repository.save(entity)] *)
Definition save (r : Repository) (entity : Entity) : M Entity := λ db,
  match written r entity (rows r db) with
  | OK t => (OK entity, <[tableName (metadata r) := t]> db)
  | Throw e => (Throw e, db)
  end.

(** [repository.delete(conditions)]: removes from the table every row
    that satisfies the conditions; removing no row is not an error. *)
Definition delete (r : Repository) (where_ : Conditions) : M unit := λ db,
  match unknownColumn r where_ with
  | Some c => (Throw (EntityColumnNotFound c), db)
  | None =>
      (OK (), alter (filter (λ row, ¬ satisfies where_ row)) (tableName (metadata r)) db)
  end.

(** [repository.delete(id)] with a string id; the empty string is refused
    as an empty criteria. *)
Definition deleteById (r : Repository) (id : string) : M unit :=
  if decide (id = "") then throw EmptyCriteria else delete r (idMap r id).

End TypeORM.

Import TypeORM.

#[global] Instance M_ret : MRet M := @ret.
#[global] Instance M_bind : MBind M := λ A B k m, bind m k.

(** ** adapter.js: the entity schemas *)

Definition key (ty : ColumnType) : ColumnOptions :=
  {| primary := true; type := ty; nullable := false |}.
Definition col (ty : ColumnType) : ColumnOptions :=
  {| primary := false; type := ty; nullable := false |}.
Definition nullable_col (ty : ColumnType) : ColumnOptions :=
  {| primary := false; type := ty; nullable := true |}.

Definition ClientSchema : EntitySchema := {|
  name := "Client";
  tableName := "clients";
  columns := [
    ("client_id", key varchar);
    ("client_secret", col varchar);
    ("redirect_uris", col simple_json);
    ("grant_types", col simple_json);
    ("response_types", col simple_json);
    ("token_endpoint_auth_method", col varchar);
    ("require_pkce", col boolean) ]
|}.

Definition SessionSchema : EntitySchema := {|
  name := "Session";
  tableName := "sessions";
  columns := [
    ("uid", key varchar);
    ("jti", col varchar);
    ("grantId", col varchar) ]
|}.

Definition GrantSchema : EntitySchema := {|
  name := "Grant";
  tableName := "grants";
  columns := [
    ("id", key varchar);
    ("accountId", col varchar);
    ("claims", col simple_json) ]
|}.

Definition CodeSchema : EntitySchema := {|
  name := "Code";
  tableName := "codes";
  columns := [
    ("code", key varchar);
    ("client_id", col varchar);
    ("redirect_uri", col varchar);
    ("response_type", col varchar);
    ("scope", col varchar);
    ("state", col varchar);
    ("code_challenge", col varchar);
    ("code_challenge_method", col varchar) ]
|}.

Definition AccessTokenSchema : EntitySchema := {|
  name := "AccessToken";
  tableName := "access_tokens";
  columns := [
    ("access_token", key varchar);
    ("client_id", col varchar);
    ("account_id", col varchar);
    ("scope", col varchar);
    ("expires_at", col bigint) ]
|}.

Definition RefreshTokenSchema : EntitySchema := {|
  name := "RefreshToken";
  tableName := "refresh_tokens";
  columns := [
    ("refresh_token", key varchar);
    ("client_id", col varchar);
    ("account_id", col varchar);
    ("scope", col varchar);
    ("expires_at", col bigint) ]
|}.

Definition DeviceCodeSchema : EntitySchema := {|
  name := "DeviceCode";
  tableName := "device_codes";
  columns := [
    ("device_code", key varchar);
    ("user_code", col varchar);
    ("client_id", col varchar);
    ("scope", col varchar);
    ("expires_at", col bigint) ]
|}.

Definition InteractionSchema : EntitySchema := {|
  name := "Interaction";
  tableName := "interactions";
  columns := [
    ("uid", key varchar);
    ("jti", col varchar);
    ("grantId", nullable_col varchar);
    ("session", nullable_col simple_json);
    ("params", nullable_col simple_json) ]
|}.

(** ** adapter.js: the connection and the factory *)

(** [initializeAdapter] assigns the module-level [connection]; the value it
    assigns registers the eight schemas (and, with [synchronize: true],
    their tables exist: a table never written to has no rows). *)
Definition initializeAdapter : option Connection :=
  Some {| entityMetadatas := [
    ClientSchema;
    SessionSchema;
    GrantSchema;
    CodeSchema;
    AccessTokenSchema;
    RefreshTokenSchema;
    DeviceCodeSchema;
    InteractionSchema ] |}.

(** The object the factory returns closes over [model] and [repository]. *)
Record Adapter : Type := {
  model : string;
  repository : Repository
}.

Definition typeormAdapter (connection : option Connection) (model : string) : result Adapter :=
  match connection with
  | None => Throw ConnectionNotEstablished
  | Some c =>
      match getRepository c model with
      | OK repository => OK {| model := model; repository := repository |}
      | Throw e => Throw e
      end
  end.

(** ** adapter.js: the nine operations *)

(** [found || repository.create(plain)]: an entity instance is truthy. *)
Definition or_create (found : option Entity) (created : Entity) : Entity :=
  default created found.

Definition upsert (a : Adapter) (id : string) (payload : Entity) (expiresIn : option Z)
  : M Entity :=
  let model := model a in
  let repository := repository a in
  entity ←
    (if decide (model = "Client") then
       found ← findOne repository [("client_id", id)];
       mret (or_create found (create repository {[ "client_id" := VStr id ]}))
     else if decide (model = "Session") then
       found ← findOne repository [("uid", id)];
       mret (or_create found (create repository {[ "uid" := VStr id ]}))
     else if decide (model = "Grant") then
       found ← findOneById repository id;
       mret (or_create found (create repository {[ "id" := VStr id ]}))
     else if decide (model = "Code") then
       found ← findOne repository [("code", id)];
       mret (or_create found (create repository {[ "code" := VStr id ]}))
     else if decide (model = "AccessToken") then
       found ← findOne repository [("access_token", id)];
       mret (or_create found (create repository {[ "access_token" := VStr id ]}))
     else if decide (model = "RefreshToken") then
       found ← findOne repository [("refresh_token", id)];
       mret (or_create found (create repository {[ "refresh_token" := VStr id ]}))
     else if decide (model = "DeviceCode") then
       found ← findOne repository [("device_code", id)];
       mret (or_create found (create repository {[ "device_code" := VStr id ]}))
     else if decide (model = "Interaction") then
       found ← findOne repository [("uid", id)];
       mret (or_create found (create repository {[ "uid" := VStr id ]}))
     else throw (UnknownModel model));
  let entity := merge repository entity payload in
  _ ← save repository entity;
  mret entity.

Definition find (a : Adapter) (id : string) : M (option Entity) :=
  let model := model a in
  let repository := repository a in
  if decide (model = "Client") then findOne repository [("client_id", id)]
  else if decide (model = "Session") then findOne repository [("uid", id)]
  else if decide (model = "Grant") then findOneById repository id
  else if decide (model = "Code") then findOne repository [("code", id)]
  else if decide (model = "AccessToken") then findOne repository [("access_token", id)]
  else if decide (model = "RefreshToken") then findOne repository [("refresh_token", id)]
  else if decide (model = "DeviceCode") then findOne repository [("device_code", id)]
  else if decide (model = "Interaction") then findOne repository [("uid", id)]
  else throw (UnknownModel model).

Definition findByUid (a : Adapter) (uid : string) : M (option Entity) :=
  if decide (model a = "Session" ∨ model a = "Interaction")
  then findOne (repository a) [("uid", uid)]
  else mret None.

Definition findByUserCode (a : Adapter) (userCode : string) : M (option Entity) :=
  if decide (model a = "DeviceCode")
  then findOne (repository a) [("user_code", userCode)]
  else mret None.

Definition findByUidAndUserCode (a : Adapter) (uid userCode : string) : M (option Entity) :=
  if decide (model a = "DeviceCode")
  then findOne (repository a) [("device_code", uid); ("user_code", userCode)]
  else mret None.

Definition destroy (a : Adapter) (id : string) : M unit :=
  if decide (model a = "Interaction" ∨ model a = "Session" ∨ model a = "Code"
             ∨ model a = "Grant" ∨ model a = "AccessToken" ∨ model a = "RefreshToken")
  then delete (repository a) [("uid", id)]
  else mret ().

Definition consume (a : Adapter) (id : string) : M unit :=
  if decide (model a = "Code")
  then delete (repository a) [("code", id)]
  else mret ().

Definition destroyByGrantId (a : Adapter) (grantId : string) : M unit :=
  if decide (model a = "Grant")
  then deleteById (repository a) grantId
  else mret ().

Definition revokeByGrantId (a : Adapter) (grantId : string) : M unit :=
  if decide (model a = "AccessToken" ∨ model a = "RefreshToken")
  then delete (repository a) [("grantId", grantId)]
  else mret ().

(** The eight entity names the operations recognise. *)
Definition knownModels : list string :=
  ["Client"; "Session"; "Grant"; "Code"; "AccessToken"; "RefreshToken";
   "DeviceCode"; "Interaction"].

(** The adapter the factory returns for [model] once [initializeAdapter]
    has run. *)
Definition adapterFor (model : string) : result Adapter :=
  typeormAdapter initializeAdapter model.

(** * The adapters of the eight registered entities *)

Definition registeredSchemas : list EntitySchema :=
  [ClientSchema; SessionSchema; GrantSchema; CodeSchema; AccessTokenSchema;
   RefreshTokenSchema; DeviceCodeSchema; InteractionSchema].

(** The adapter the factory builds from the metadata [md] when it is asked
    for the entity by name. *)
Definition bound (md : EntitySchema) : Adapter :=
  {| model := name md; repository := {| metadata := md |} |}.

(** The key field of the entity an adapter is bound to. *)
Definition keyField (a : Adapter) : string := primaryColumn (metadata (repository a)).

(** An adapter call, and the database it leaves behind (the database is
    left as it was when the call throws). *)
Inductive Call : Type :=
  | CallUpsert (id : string) (payload : Entity) (expiresIn : option Z)
  | CallFind (id : string)
  | CallFindByUid (uid : string)
  | CallFindByUserCode (userCode : string)
  | CallFindByUidAndUserCode (uid userCode : string)
  | CallDestroy (id : string)
  | CallConsume (id : string)
  | CallDestroyByGrantId (grantId : string)
  | CallRevokeByGrantId (grantId : string).

Definition isUpsert (c : Call) : Prop :=
  match c with CallUpsert _ _ _ => True | _ => False end.

Definition after (a : Adapter) (db : Database) (c : Call) : Database :=
  match c with
  | CallUpsert id payload expiresIn => (upsert a id payload expiresIn db).2
  | CallFind id => (find a id db).2
  | CallFindByUid uid => (findByUid a uid db).2
  | CallFindByUserCode userCode => (findByUserCode a userCode db).2
  | CallFindByUidAndUserCode uid userCode => (findByUidAndUserCode a uid userCode db).2
  | CallDestroy id => (destroy a id db).2
  | CallConsume id => (consume a id db).2
  | CallDestroyByGrantId grantId => (destroyByGrantId a grantId db).2
  | CallRevokeByGrantId grantId => (revokeByGrantId a grantId db).2
  end.

(** No stored authorization code carries the value [id]. *)
Definition spent (id : string) (db : Database) : Prop :=
  filter (satisfies [("code", id)]) (rows (repository (bound CodeSchema)) db) = [].

(** The generic shape of [upsert] and [find] for an entity whose key field
    is [k]; each branch of the two operations is an instance of it. *)
Definition upsertBy (r : Repository) (k id : string) (payload : Entity) : M Entity :=
  found ← findOne r [(k, id)];
  let entity := merge r (or_create found (create r {[ k := VStr id ]})) payload in
  _ ← save r entity;
  mret entity.

(** ** Time *)

(** Nothing in adapter.js reads the clock, sets a timer or filters on
    [expires_at], and the tables have no expiry of their own: while time
    passes, the database stays as it is. *)
Record World : Type := {
  database : Database;
  clock : Z
}.

Definition elapse (seconds : Z) (w : World) : World :=
  {| database := database w; clock := clock w + seconds |}.

Definition run {A} (m : M A) (w : World) : result A * World :=
  ((m (database w)).1, {| database := (m (database w)).2; clock := clock w |}).

(** What happens to the store over time: calls through adapters, and
    waiting in between. *)
Inductive Event : Type :=
  | called (a : Adapter) (c : Call)
  | waited (seconds : Z).

Definition happen (w : World) (e : Event) : World :=
  match e with
  | called a c => {| database := after a (database w) c; clock := clock w |}
  | waited seconds => elapse seconds w
  end.

Definition history (w : World) (events : list Event) : World := foldl happen w events.

(** The calls that delete. *)
Definition isRemoval (c : Call) : Prop :=
  match c with
  | CallDestroy _ | CallConsume _ | CallDestroyByGrantId _ | CallRevokeByGrantId _ => True
  | _ => False
  end.

(** An event that removes nothing: waiting, or a call other than a removal
    through an adapter obtained from the factory. *)
Definition noRemoval (e : Event) : Prop :=
  match e with
  | called a c => (∃ m, adapterFor m = OK a) ∧ ¬ isRemoval c
  | waited _ => True
  end.

(** A call that stores no authorization code under the value [id]: any
    call but an upsert through the Code adapter.  Such an upsert stores its
    record under its own id when the payload has no [code] field, and under
    the payload's [code] otherwise; it is admitted when that is a string
    other than [id]. *)
Definition storesNoCode (id : string) (a : Adapter) (c : Call) : Prop :=
  match c with
  | CallUpsert id' payload _ =>
      model a = "Code" →
      (payload !! "code" = None ∧ id' ≠ id)
      ∨ (∃ s, payload !! "code" = Some (VStr s) ∧ s ≠ id)
  | _ => True
  end.

(** ** rp-demo/app.js: the callback route *)

(** [client.authorizationCodeGrant] of openid-client, as the route uses it:
    the callback parameters are validated against the expected state before
    anything is sent, then the code is exchanged at the token endpoint, the
    request being authenticated by the client authentication of the
    configuration. *)
Module OpenIDClient.

Record Claims : Type := { sub : string }.

(** A token endpoint response; [claims()] is undefined without an ID token. *)
Record TokenSet : Type := {
  access_token : string;
  claims : option Claims
}.

(** The query of the callback URL. *)
Record SearchParams : Type := {
  param_code : option string;
  param_state : option string;
  param_error : option string
}.

Record Checks : Type := {
  pkceCodeVerifier : option string;
  expectedState : option string
}.

(** A request sent to the token endpoint. *)
Record TokenRequest : Type := {
  grant_code : string;
  grant_code_verifier : option string
}.

(** The provider's token endpoint: what it answers to a grant request. *)
Abbreviation TokenEndpoint := (TokenRequest → option TokenSet).

(** The outcome of the grant and the requests that were sent. *)
Definition authorizationCodeGrant (endpoint : TokenEndpoint)
    (currentUrl : SearchParams) (checks : Checks) : result TokenSet * list TokenRequest :=
  if decide (param_state currentUrl ≠ expectedState checks) then
    (Throw AuthorizationResponseError, [])
  else if decide (is_Some (param_error currentUrl)) then
    (Throw AuthorizationResponseError, [])
  else
    match param_code currentUrl with
    | None => (Throw AuthorizationResponseError, [])
    | Some code =>
        let request :=
          {| grant_code := code; grant_code_verifier := pkceCodeVerifier checks |} in
        match endpoint request with
        | Some tokens => (OK tokens, [request])
        | None => (Throw (TokenEndpointError code), [request])
        end
    end.

(** The same call on a configuration whose client authentication is not a
    function: the callback parameters are validated as above, and the
    token request then fails while it is being built, when the client
    authentication is called; nothing is sent. *)
Definition authorizationCodeGrantUncallable (currentUrl : SearchParams) (checks : Checks)
  : result TokenSet * list TokenRequest :=
  if decide (param_state currentUrl ≠ expectedState checks) then
    (Throw AuthorizationResponseError, [])
  else if decide (is_Some (param_error currentUrl)) then
    (Throw AuthorizationResponseError, [])
  else
    match param_code currentUrl with
    | None => (Throw AuthorizationResponseError, [])
    | Some code => (Throw TypeError, [])
    end.

End OpenIDClient.

Import OpenIDClient.

(** [req.session] *)
Record Session : Type := {
  code_verifier : option string;
  state : option string;
  tokenSet : option TokenSet;
  expectedSubject : option string
}.

Inductive Response : Type :=
  | send (status : Z) (body : string)
  | redirect (location : string).

(** What one request to the route leaves behind: the session, the response
    and the token requests that went out. *)
Record Handled : Type := {
  session : Session;
  response : Response;
  requests : list TokenRequest
}.

Definition checksOf (s : Session) : Checks :=
  {| pkceCodeVerifier := code_verifier s; expectedState := state s |}.

(** The route of [rp-demo/app.js]; [config] is the module-level
    configuration, set once discovery has succeeded. *)
Definition callback (endpoint : TokenEndpoint) (config : bool)
    (s : Session) (currentUrl : SearchParams) : Handled :=
  if negb config then
    {| session := s; response := send 200 "OIDC configuration not yet loaded."; requests := [] |}
  else
    match authorizationCodeGrant endpoint currentUrl (checksOf s) with
    | (OK tokens, sent) =>
        let s1 := {| code_verifier := code_verifier s; state := state s;
                     tokenSet := Some tokens; expectedSubject := expectedSubject s |} in
        match claims tokens with
        | Some idTokenClaims =>
            {| session := {| code_verifier := code_verifier s1; state := state s1;
                             tokenSet := tokenSet s1;
                             expectedSubject := Some (sub idTokenClaims) |};
               response := redirect "/"; requests := sent |}
        | None =>
            {| session := s1; response := send 500 "Callback error"; requests := sent |}
        end
    | (Throw err, sent) =>
        {| session := s; response := send 500 "Callback error"; requests := sent |}
    end.

(** The earlier revision of the route: it tests [app.locals.oidcClient],
    stores the token set, and answers an error with the default status.
    Its configuration comes from
    [client.discovery(server, clientId, clientSecret, httpsAgent, redirect_uri)],
    which hands the https agent over where the client authentication goes:
    the grant runs on a client authentication that cannot be called, and
    the token endpoint is never reached. *)
Definition callback_earlier (endpoint : TokenEndpoint) (oidcClient : bool)
    (s : Session) (currentUrl : SearchParams) : Handled :=
  if negb oidcClient then
    {| session := s; response := send 200 "OIDC client not initialized"; requests := [] |}
  else
    match authorizationCodeGrantUncallable currentUrl (checksOf s) with
    | (OK tokens, sent) =>
        {| session := {| code_verifier := code_verifier s; state := state s;
                         tokenSet := Some tokens; expectedSubject := expectedSubject s |};
           response := redirect "/"; requests := sent |}
    | (Throw err, sent) =>
        {| session := s; response := send 200 "Callback error"; requests := sent |}
    end.

(** The flow ended in the failed state: an error page, not the redirect
    that follows a successful exchange. *)
Definition failed (h : Handled) : Prop :=
  ∃ status, response h = send status "Callback error".

(** The flow ended in the authenticated state. *)
Definition authenticated (h : Handled) : Prop :=
  response h = redirect "/" ∧ is_Some (tokenSet (session h)).

(** The names [connection.getRepository] resolves once the eight schemas
    are registered: their entity names and their table names. *)
Definition registered (target : string) : Prop :=
  target ∈ (name <$> registeredSchemas) ∨ target ∈ (tableName <$> registeredSchemas).

(** ** Sample records *)

Definition sessionPayload : Entity :=
  {[ "jti" := VStr "j1"; "grantId" := VStr "g1"; "accountId" := VStr "alice" ]}.

Definition codePayload : Entity :=
  {[ "client_id" := VStr "client_app";
     "redirect_uri" := VStr "https://localhost:3000/callback";
     "response_type" := VStr "code";
     "scope" := VStr "openid";
     "state" := VStr "xyz";
     "code_challenge" := VStr "E9Melhoa2OwvFrEMTJguCHaoeK1t8URWbuGJSstw-cM";
     "code_challenge_method" := VStr "S256" ]}.

Definition accessTokenPayload : Entity :=
  {[ "client_id" := VStr "client_app";
     "account_id" := VStr "alice";
     "scope" := VStr "openid";
     "expires_at" := VNum 3600;
     "grantId" := VStr "g1" ]}.

Definition refreshTokenPayload : Entity :=
  {[ "client_id" := VStr "client_app";
     "account_id" := VStr "alice";
     "scope" := VStr "openid";
     "expires_at" := VNum 86400;
     "grantId" := VStr "g1" ]}.

Definition deviceCodePayload : Entity :=
  {[ "user_code" := VStr "U1";
     "client_id" := VStr "client_app";
     "scope" := VStr "openid";
     "expires_at" := VNum 600 ]}.

(** The database after one record has been stored through [a]. *)
Definition stored (a : Adapter) (id : string) (payload : Entity) : Database :=
  (upsert a id payload None ∅).2.

Definition sampleTokens : TokenSet :=
  {| access_token := "at1"; claims := Some {| sub := "alice" |} |}.

(** A token endpoint that honours the code [good] and refuses any other. *)
Definition sampleEndpoint (request : TokenRequest) : option TokenSet :=
  if decide (grant_code request = "good") then Some sampleTokens else None.

Definition sampleSession : Session :=
  {| code_verifier := Some "verifier"; state := Some "S1";
     tokenSet := None; expectedSubject := None |}.

Definition sampleUrl (code state : string) : SearchParams :=
  {| param_code := Some code; param_state := Some state; param_error := None |}.

(** * Further definitions: what the tables hold *)

(** The pattern every recognised branch of [upsert] follows: look the
    record up by [where_], start from it or from [created], merge, save. *)
Definition upsertWith (r : Repository) (where_ : list (string * string))
    (created payload : Entity) : M Entity :=
  found ← findOne r where_;
  let entity := merge r (or_create found created) payload in
  _ ← save r entity;
  mret entity.

(** The key values of the rows of a table, in row order. *)
Definition keysOf (md : EntitySchema) (t : list Entity) : list (option value) :=
  (λ row, row !! primaryColumn md) <$> t.

(** A row as a table of [md] can hold it: a value for each column and for
    nothing else, and no NULL where the column is NOT NULL. *)
Definition rowOf (md : EntitySchema) (row : Entity) : Prop :=
  (∀ c, is_Some (row !! c) ↔ hasColumn md c)
  ∧ (∀ c, c ∈ requiredColumns md → ¬ isNull row c).

(** A table of [md]: rows of [md] with pairwise different keys. *)
Definition tableOf (md : EntitySchema) (t : list Entity) : Prop :=
  NoDup (keysOf md t) ∧ Forall (rowOf md) t.

(** Every table of the eight registered entities is a table of its schema. *)
Definition consistent (db : Database) : Prop :=
  ∀ md, md ∈ registeredSchemas → tableOf md (rows {| metadata := md |} db).

(** Calls issued through several adapters, in order. *)
Definition afterEach (db : Database) (calls : list (Adapter * Call)) : Database :=
  foldl (λ db ac, after ac.1 db ac.2) db calls.

(** The outcome of a call, whatever its result type. *)
Definition thrown (a : Adapter) (db : Database) (c : Call) : option error :=
  let outcome {A} (x : result A) : option error :=
    match x with OK _ => None | Throw e => Some e end in
  match c with
  | CallUpsert id payload expiresIn => outcome (upsert a id payload expiresIn db).1
  | CallFind id => outcome (find a id db).1
  | CallFindByUid uid => outcome (findByUid a uid db).1
  | CallFindByUserCode userCode => outcome (findByUserCode a userCode db).1
  | CallFindByUidAndUserCode uid userCode => outcome (findByUidAndUserCode a uid userCode db).1
  | CallDestroy id => outcome (destroy a id db).1
  | CallConsume id => outcome (consume a id db).1
  | CallDestroyByGrantId grantId => outcome (destroyByGrantId a grantId db).1
  | CallRevokeByGrantId grantId => outcome (revokeByGrantId a grantId db).1
  end.

(** The calls that only look records up. *)
Definition isLookup (c : Call) : Prop :=
  match c with
  | CallFind _ | CallFindByUid _ | CallFindByUserCode _ | CallFindByUidAndUserCode _ _ => True
  | _ => False
  end.

(** The three things a call can do to the database: nothing, a delete in
    the adapter's table, or a save into it. *)
Inductive Effect (r : Repository) (db : Database) : Database → Prop :=
  | effect_none : Effect r db db
  | effect_delete (w : list (string * string)) :
      Effect r db (alter (filter (λ row, ¬ satisfies w row)) (tableName (metadata r)) db)
  | effect_save (entity : Entity) (t : list Entity) :
      written r entity (rows r db) = OK t →
      Effect r db (<[tableName (metadata r) := t]> db).

(** * rp-demo/app.js: the other routes *)

(** The parameters [/login] hands to [client.buildAuthorizationUrl]. *)
Module AuthorizationUrl.
Record Parameters : Type := {
  redirect_uri : string;
  scope : string;
  code_challenge : string;
  code_challenge_method : string;
  state : string
}.
End AuthorizationUrl.

(** The HTML pages the routes render. *)
Inductive Page : Type :=
  | WelcomePage                     (* "You are not logged in." with the login link *)
  | WelcomeBackPage                 (* "You are logged in." with profile and logout links *)
  | ProfilePage (idTokenClaims : TokenSet) (userinfo : string).

Inductive Reply : Type :=
  | answered (r : Response)         (* a plain [res.send] or [res.redirect] *)
  | rendered (p : Page)
  | authorization (parameters : AuthorizationUrl.Parameters).
                                    (* a redirect to the provider's authorization endpoint *)

Record Served : Type := {
  session_left : Session;
  reply : Reply;
  token_requests : list TokenRequest
}.

(** A session nothing has been stored in yet. *)
Definition emptySession : Session :=
  {| code_verifier := None; state := None; tokenSet := None; expectedSubject := None |}.

Definition redirect_uri : string := "https://localhost:3000/callback".

(** [GET /] *)
Definition home (s : Session) : Served :=
  {| session_left := s;
     reply := rendered match tokenSet s with
                       | Some _ => WelcomeBackPage
                       | None => WelcomePage
                       end;
     token_requests := [] |}.

(** [GET /login]; [code_verifier] and [state] are the values drawn by
    [randomPKCECodeVerifier] and [randomState], [calculatePKCECodeChallenge]
    is the library's S256 transform. *)
Definition login (calculatePKCECodeChallenge : string → string) (oidcClient : bool)
    (s : Session) (code_verifier_ state_ : string) : Served :=
  if negb oidcClient then
    {| session_left := s; reply := answered (send 200 "OIDC client not initialized");
       token_requests := [] |}
  else
    {| session_left :=
         {| code_verifier := Some code_verifier_; state := Some state_;
            tokenSet := tokenSet s; expectedSubject := expectedSubject s |};
       reply := authorization
         {| AuthorizationUrl.redirect_uri := redirect_uri;
            AuthorizationUrl.scope := "openid profile email";
            AuthorizationUrl.code_challenge := calculatePKCECodeChallenge code_verifier_;
            AuthorizationUrl.code_challenge_method := "S256";
            AuthorizationUrl.state := state_ |};
       token_requests := [] |}.

(** [GET /profile]; [fetchUserInfo] is the UserInfo request for an access
    token and an expected subject: the document, or a failure. *)
Definition profile (fetchUserInfo : string → option string → option string)
    (oidcClient : bool) (s : Session) : Served :=
  if negb oidcClient then
    {| session_left := s; reply := answered (send 200 "OIDC client not initialized");
       token_requests := [] |}
  else
    match tokenSet s with
    | None =>
        {| session_left := s; reply := answered (redirect "/login"); token_requests := [] |}
    | Some tokens =>
        match fetchUserInfo (access_token tokens) (expectedSubject s) with
        | Some userinfo =>
            {| session_left := s; reply := rendered (ProfilePage tokens userinfo);
               token_requests := [] |}
        | None =>
            {| session_left := s; reply := answered (send 200 "Profile error");
               token_requests := [] |}
        end
    end.

(** [GET /logout]: the session is destroyed; the next request starts from
    an empty one. *)
Definition logout (s : Session) : Served :=
  {| session_left := emptySession; reply := answered (redirect "/"); token_requests := [] |}.

(** What the provider and the library contribute to the application. *)
Record Environment : Type := {
  tokenEndpoint : TokenRequest → option TokenSet;
  calculatePKCECodeChallenge : string → string;
  fetchUserInfo : string → option string → option string;
  configured : bool
}.

Inductive Route : Type :=
  | GetHome
  | GetLogin (code_verifier state : string)
  | GetCallback (currentUrl : SearchParams)
  | GetProfile
  | GetLogout.

(** One request to the application of [rp-demo/app.js]. *)
Definition serve (env : Environment) (s : Session) (route : Route) : Served :=
  match route with
  | GetHome => home s
  | GetLogin code_verifier_ state_ =>
      login (calculatePKCECodeChallenge env) (configured env) s code_verifier_ state_
  | GetCallback currentUrl =>
      let h := callback (tokenEndpoint env) (configured env) s currentUrl in
      {| session_left := session h; reply := answered (response h);
         token_requests := requests h |}
  | GetProfile => profile (fetchUserInfo env) (configured env) s
  | GetLogout => logout s
  end.

(** The session after a sequence of requests. *)
Definition browse (env : Environment) (s : Session) (routes : list Route) : Session :=
  foldl (λ s route, session_left (serve env s route)) s routes.

Definition sampleEnvironment : Environment :=
  {| tokenEndpoint := sampleEndpoint;
     calculatePKCECodeChallenge := λ verifier, "S256:" +:+ verifier;
     fetchUserInfo := λ token subject, Some "{}";
     configured := true |}.

(** * oidc-demo/idp.js: accounts and the login interaction *)

Module Idp.

Record User : Type := {
  id : string;
  username : string;
  password : string;
  name : string;
  email : string
}.

(** The simulated user database. *)
Definition users : list User := [
  {| id := "user1"; username := "alice"; password := "123";
     name := "Alice"; email := "alice@example.com" |};
  {| id := "user2"; username := "bob"; password := "password456";
     name := "Bob"; email := "bob@example.com" |} ].

(** [String.prototype.includes]: [searchString] occurs somewhere in [s]. *)
Fixpoint includes (s searchString : string) : bool :=
  String.prefix searchString s
  || match s with
     | EmptyString => false
     | String _ rest => includes rest searchString
     end.

(** What [findAccount] resolves to: the account id and its [claims(use,
    scope)] function; [scope] is the granted scope string. *)
Record Account : Type := {
  accountId : string;
  claims : string → string → Entity
}.

Definition findAccount (id_ : string) : option Account :=
  match head (filter (λ u, id u = id_) users) with
  | None => None
  | Some user =>
      Some {| accountId := id_;
              claims := λ use scope,
                let claims : Entity := {[ "sub" := VStr id_ ]} in
                let claims :=
                  if includes scope "profile"
                  then <["name" := VStr (name user)]> claims
                  else claims in
                let claims :=
                  if includes scope "email"
                  then <["email_verified" := VBool true]>
                         (<["email" := VStr (email user)]> claims)
                  else claims in
                claims |}
  end.

(** What the provider instance contributes to a request of the login
    route.  Each of its calls resolves or throws: [interactionDetails]
    resolves to the details of the interaction (of which the route reads
    [params.client_id]), [Client.find] to the client, and
    [interactionFinished] takes the response over. *)
Inductive LoginResult : Type :=
  | loginAccountId (accountId : string)         (* { login: { accountId } } *)
  | loginAccount (account : option string).     (* { login: { account } } *)

Record Provider : Type := {
  interactionDetails : result string;
  clientFind : string → result unit;
  interactionFinished : LoginResult → result unit
}.

(** How [POST /interaction/:uid/login] ends: a 401 answer, the interaction
    finished with a login result, or an error handed to [next]. *)
Inductive LoginOutcome : Type :=
  | rejected (status : Z) (body : string)
  | finished (loginResult : LoginResult)
  | passedOn (err : error).

(** The route of the first idp.js.  The fields of [req.body] are strings,
    or undefined when the form did not send them. *)
Definition login (oidc : Provider) (username_ password_ : option string) : LoginOutcome :=
  match interactionDetails oidc with
  | Throw err => passedOn err
  | OK client_id =>
      match clientFind oidc client_id with
      | Throw err => passedOn err
      | OK _ =>
          match head (filter (λ u, Some (username u) = username_
                                   ∧ Some (password u) = password_) users) with
          | None => rejected 401 "Invalid username or password"
          | Some user =>
              let loginResult := loginAccountId (id user) in
              match interactionFinished oidc loginResult with
              | Throw err => passedOn err
              | OK _ => finished loginResult
              end
          end
      end
  end.

(** The route of the second idp.js, the one that runs on the TypeORM
    adapter: it accepts any username and password, and hands the username
    over as [account]. *)
Definition loginAny (oidc : Provider) (username_ password_ : option string) : LoginOutcome :=
  match interactionDetails oidc with
  | Throw err => passedOn err
  | OK client_id =>
      match clientFind oidc client_id with
      | Throw err => passedOn err
      | OK _ =>
          let accountId := username_ in
          let loginResult := loginAccount accountId in
          match interactionFinished oidc loginResult with
          | Throw err => passedOn err
          | OK _ => finished loginResult
          end
      end
  end.

(** A provider whose calls all resolve. *)
Definition sampleProvider : Provider :=
  {| interactionDetails := OK "client_app";
     clientFind := λ _, OK ();
     interactionFinished := λ _, OK () |}.

End Idp.

(** * idp.js and generate-keys.js: the key set *)

Module Jwks.

(** A parsed JSON value; an object lists its members, one per name. *)
#[local] Set Warnings "-register-all".
Inductive JSON : Type :=
  | JNull
  | JBool (b : bool)
  | JNumber (n : Z)
  | JString (s : string)
  | JArray (items : list JSON)
  | JObject (members : list (string * JSON)).

(** [value[prop]] on a value that is not null, for a property name that
    no prototype defines: the member of an object, undefined otherwise. *)
Definition member (value : JSON) (prop : string) : option JSON :=
  match value with
  | JObject members => snd <$> head (filter (λ m, m.1 = prop) members)
  | _ => None
  end.

(** JavaScript truthiness of a value that may be undefined. *)
Definition truthy (value : option JSON) : bool :=
  match value with
  | None | Some JNull | Some (JBool false) | Some (JString "") => false
  | Some (JNumber n) => negb (n =? 0)%Z
  | _ => true
  end.

Definition requiredProps : list string :=
  ["kty"; "kid"; "use"; "alg"; "n"; "e"; "d"; "p"; "q"; "dp"; "dq"; "qi"].

(** What [loadJwks] logs before it ends the process. *)
Inductive Failure : Type :=
  | NoKeys            (* 'JWKS must contain at least one key in the "keys" array.' *)
  | MissingProperty (index : nat) (prop : string)
                      (* `Private key at index ${index} is missing required property: ${prop}` *)
  | NullAccess.       (* a property read on null *)

Inductive Outcome : Type :=
  | loaded (jwks : JSON)
  | exited (code : Z) (logged : Failure).

(** The first required property the key lacks. *)
Definition firstMissing (key : JSON) : option string :=
  head (filter (λ prop, truthy (member key prop) = false) requiredProps).

(** The [forEach] over the keys, from [index] on: the first failure. *)
Fixpoint checkKeys (index : nat) (keys : list JSON) : option Failure :=
  match keys with
  | [] => None
  | key :: rest =>
      match key with
      | JNull => Some NullAccess
      | _ =>
          match firstMissing key with
          | Some prop => Some (MissingProperty index prop)
          | None => checkKeys (S index) rest
          end
      end
  end.

(** [loadJwks] on the parsed content of jwks.json (a [keys] that is not an
    array, the [keys] method of an array included, is refused like a
    missing one). *)
Definition loadJwks (jwks : JSON) : Outcome :=
  match jwks with
  | JNull => exited 1 NullAccess
  | _ =>
      match member jwks "keys" with
      | Some (JArray keys) =>
          match keys with
          | [] => exited 1 NoKeys
          | _ =>
              match checkKeys 0 keys with
              | Some failure => exited 1 failure
              | None => loaded jwks
              end
          end
      | _ => exited 1 NoKeys
      end
  end.

(** [object[prop] = value] *)
Fixpoint assign (members : list (string * JSON)) (prop : string) (value : JSON)
  : list (string * JSON) :=
  match members with
  | [] => [(prop, value)]
  | (p, v) :: rest =>
      if decide (p = prop) then (prop, value) :: rest else (p, v) :: assign rest prop value
  end.

(** generate-keys.js: the key set written for the members [exported] of
    the private key's JWK. *)
Definition generateJwks (exported : list (string * JSON)) : JSON :=
  let privateJwk := assign exported "use" (JString "sig") in
  let privateJwk := assign privateJwk "kid" (JString "oidc-provider-key-1") in
  let privateJwk := assign privateJwk "alg" (JString "RS256") in
  JObject [("keys", JArray [JObject privateJwk])].

(** The members Node exports for an RSA private key. *)
Definition rsaMembers : list string := ["kty"; "n"; "e"; "d"; "p"; "q"; "dp"; "dq"; "qi"].

Definition sampleExported : list (string * JSON) :=
  [("kty", JString "RSA"); ("n", JString "sXch"); ("e", JString "AQAB");
   ("d", JString "X4cT"); ("p", JString "83i-"); ("q", JString "3dfO");
   ("dp", JString "G4sP"); ("dq", JString "s9lA"); ("qi", JString "GyM_")].

End Jwks.
(** * Properties of the repository model *)

(** Membership of a literal in a literal list, and its refutation. *)
Ltac in_list := vm_compute; repeat constructor.
(** An equation between closed terms, settled by evaluation. *)
Ltac by_vm := lazymatch goal with |- ?x = ?y => exact (@eq_refl _ y <: x = y) end.
Ltac not_in_list H :=
  repeat (apply elem_of_cons in H as [H|H]; [discriminate H|]);
  apply elem_of_nil in H; contradiction.


Lemma filter_empty_filter {A} (P Q : A → Prop)
    `{!∀ x, Decision (P x)} `{!∀ x, Decision (Q x)} (l : list A) :
  filter P l = [] → filter P (filter Q l) = [].
Proof.
  induction l as [|x l IH]; [done|].
  rewrite (filter_cons P). destruct (decide (P x)); [done|]. intros Hl.
  rewrite (filter_cons Q). destruct (decide (Q x)); [|by apply IH].
  rewrite filter_cons_False by done. by apply IH.
Qed.

Section Repository.

Variable r : Repository.

Lemma rows_insert (t : list Entity) (db : Database) :
  rows r (<[tableName (metadata r) := t]> db) = t.
Proof. unfold rows. by rewrite lookup_insert_eq. Qed.

Lemma rows_alter (f : list Entity → list Entity) (db : Database) :
  f [] = [] →
  rows r (alter f (tableName (metadata r)) db) = f (rows r db).
Proof.
  intros Hnil. unfold rows. rewrite lookup_alter_eq.
  by destruct (db !! tableName (metadata r)).
Qed.

Lemma unknownColumn_None (w : Conditions) :
  unknownColumn r w = None ↔ Forall (hasColumn (metadata r)) w.*1.
Proof.
  unfold unknownColumn. rewrite head_None.
  induction (w.*1) as [|c cs IH]; simpl.
  - split; [constructor | done].
  - rewrite filter_cons. destruct (decide (¬ hasColumn (metadata r) c)) as [Hn|Hy].
    + split; [done | intros H; inversion H; subst; contradiction].
    + apply dec_stable in Hy. rewrite IH. split.
      * by constructor.
      * intros H; by inversion H.
Qed.

Lemma unknownColumn_Some (w : Conditions) (c : string) :
  unknownColumn r w = Some c → ¬ hasColumn (metadata r) c.
Proof.
  unfold unknownColumn. intros H. apply head_Some_elem_of in H.
  by apply list_elem_of_filter in H as [? _].
Qed.

Lemma filter_satisfies_removed (w : Conditions) (t : list Entity) :
  filter (satisfies w) (filter (λ row, ¬ satisfies w row) t) = [].
Proof.
  induction t as [|row t IH]; [done|].
  rewrite (filter_cons (λ row, ¬ satisfies w row)).
  destruct (decide (¬ satisfies w row)) as [Hn|Hy]; [|done].
  rewrite filter_cons. by destruct (decide (satisfies w row)).
Qed.

Lemma filter_unsatisfied_id (w : Conditions) (t : list Entity) :
  filter (satisfies w) t = [] →
  filter (λ row, ¬ satisfies w row) t = t.
Proof.
  induction t as [|row t IH]; [done|].
  rewrite !filter_cons. destruct (decide (satisfies w row)) as [Hy|Hn]; [done|].
  intros H. destruct (decide (¬ satisfies w row)); [|done]. by rewrite IH.
Qed.

Lemma filter_unsatisfied_idemp (w : Conditions) (t : list Entity) :
  filter (λ row, ¬ satisfies w row) (filter (λ row, ¬ satisfies w row) t)
  = filter (λ row, ¬ satisfies w row) t.
Proof. apply filter_unsatisfied_id, filter_satisfies_removed. Qed.

(** A query on known columns returns the first matching row and leaves
    the database alone. *)
Lemma findOne_known (w : Conditions) (db : Database) :
  unknownColumn r w = None →
  findOne r w db = (OK (head (filter (satisfies w) (rows r db))), db).
Proof. intros H. unfold findOne. by rewrite H. Qed.

Lemma findOne_unknown (w : Conditions) (c : string) (db : Database) :
  unknownColumn r w = Some c →
  findOne r w db = (Throw (EntityColumnNotFound c), db).
Proof. intros H. unfold findOne. by rewrite H. Qed.

Lemma findOne_db (w : Conditions) (db : Database) : (findOne r w db).2 = db.
Proof. unfold findOne. by destruct (unknownColumn r w). Qed.

Lemma delete_known (w : Conditions) (db : Database) :
  unknownColumn r w = None →
  delete r w db =
    (OK (), alter (filter (λ row, ¬ satisfies w row)) (tableName (metadata r)) db).
Proof. intros H. unfold delete. by rewrite H. Qed.

Lemma delete_unknown (w : Conditions) (c : string) (db : Database) :
  unknownColumn r w = Some c →
  delete r w db = (Throw (EntityColumnNotFound c), db).
Proof. intros H. unfold delete. by rewrite H. Qed.

(** After a delete, no row satisfies the conditions any more. *)
Lemma delete_findOne (w : Conditions) (db : Database) :
  unknownColumn r w = None →
  findOne r w (delete r w db).2 = (OK None, (delete r w db).2).
Proof.
  intros H. rewrite (delete_known _ _ H). simpl.
  rewrite (findOne_known _ _ H), rows_alter by done.
  by rewrite filter_satisfies_removed.
Qed.

(** Deleting where no row matches changes nothing. *)
Lemma delete_absent (w : Conditions) (db : Database) :
  unknownColumn r w = None →
  filter (satisfies w) (rows r db) = [] →
  delete r w db = (OK (), db).
Proof.
  intros H Hnone. rewrite (delete_known _ _ H). f_equal.
  apply map_eq; intros tn. rewrite lookup_alter.
  destruct (decide (tableName (metadata r) = tn)) as [<-|]; [|done].
  unfold rows in Hnone. destruct (db !! tableName (metadata r)) as [t|]; [|done].
  simpl in *. by rewrite filter_unsatisfied_id.
Qed.

Lemma delete_idemp (w : Conditions) (db : Database) :
  unknownColumn r w = None →
  delete r w (delete r w db).2 = (OK (), (delete r w db).2).
Proof.
  intros H. apply delete_absent; [done|].
  rewrite (delete_known _ _ H). simpl. rewrite rows_alter by done.
  apply filter_satisfies_removed.
Qed.

(** ** Values as the table keeps them *)

Lemma persisted_null (ty : ColumnType) (v : value) : persisted ty v = VNull ↔ v = VNull.
Proof.
  destruct v as [|s|n|b|j], ty; simpl; try done.
  by destruct (integer s).
Qed.

Lemma persisted_native (ty : ColumnType) (v : value) : native ty v → persisted ty v = v.
Proof.
  destruct v as [|s|n|b|j], ty; simpl; try done.
  intros _. by destruct b.
Qed.

Lemma columnValue_null (c : string) (v : value) : columnValue r c v = VNull ↔ v = VNull.
Proof. unfold columnValue. destruct (columnType _ c); [apply persisted_null | done]. Qed.

Lemma columnValue_native (c : string) (ty : ColumnType) (v : value) :
  columnType (metadata r) c = Some ty → native ty v ∨ v = VNull → columnValue r c v = v.
Proof.
  unfold columnValue. intros -> [Hv| ->].
  - by apply persisted_native.
  - by destruct ty.
Qed.

Lemma columnType_column (c : string) (ty : ColumnType) :
  columnType (metadata r) c = Some ty → hasColumn (metadata r) c.
Proof.
  unfold columnType, hasColumn, columnNames. intros H.
  apply fmap_Some in H as [cv [H _]].
  apply head_Some_elem_of, list_elem_of_filter in H as [<- Hin].
  apply list_elem_of_fmap. eauto.
Qed.

Lemma values_lookup (entity : Entity) (cs : list string) (c : string) :
  values r entity cs !! c
  = if decide (c ∈ cs) then Some (columnValue r c (default VNull (entity !! c))) else None.
Proof.
  unfold values. induction cs as [|c' cs IH].
  - rewrite decide_False; [done | by intros ?%elem_of_nil].
  - rewrite fmap_cons. simpl. destruct (decide (c' = c)) as [->|Hne].
    + rewrite lookup_insert_eq, decide_True; [done | by left].
    + rewrite lookup_insert_ne, IH by done.
      destruct (decide (c ∈ cs)) as [Hin|Hout].
      * rewrite decide_True; [done | by right].
      * rewrite decide_False; [done|]. by intros [->|?]%elem_of_cons.
Qed.

Lemma toRow_lookup (entity : Entity) (c : string) :
  hasColumn (metadata r) c →
  toRow r entity !! c = Some (columnValue r c (default VNull (entity !! c))).
Proof. intros Hc. unfold toRow. by rewrite values_lookup, decide_True. Qed.

Lemma toRow_lookup_None (entity : Entity) (c : string) :
  ¬ hasColumn (metadata r) c → toRow r entity !! c = None.
Proof. intros Hc. unfold toRow. by rewrite values_lookup, decide_False. Qed.

(** An UPDATE writes the columns that changed and keeps the others. *)
Lemma updated_lookup (entity old row : Entity) (c : string) :
  updated r entity old row !! c
  = if decide (hasColumn (metadata r) c ∧ changed entity old c)
    then Some (columnValue r c (default VNull (entity !! c)))
    else row !! c.
Proof.
  unfold updated, changedColumns. rewrite lookup_union, values_lookup.
  destruct (decide (hasColumn (metadata r) c ∧ changed entity old c)) as [[Hc Hch]|Hno].
  - rewrite decide_True by (by apply list_elem_of_filter). by destruct (row !! c).
  - rewrite decide_False.
    + by destruct (row !! c).
    + intros [? ?]%list_elem_of_filter. by apply Hno.
Qed.

Lemma updated_kept (entity old row : Entity) (c : string) :
  entity !! c = None ∨ entity !! c = old !! c ∨ ¬ hasColumn (metadata r) c →
  updated r entity old row !! c = row !! c.
Proof.
  intros H. rewrite updated_lookup, decide_False; [done|].
  intros [Hc [[v Hv] Hne]]. destruct H as [H|[H|H]]; congruence.
Qed.

(** The row [save] loads has the entity's key, and an UPDATE leaves the key
    of every row as it is. *)
Lemma updated_id (entity old row : Entity) :
  sameId r entity old →
  updated r entity old row !! primaryColumn (metadata r) = row !! primaryColumn (metadata r).
Proof. intros [_ Hold]. apply updated_kept. right. by left. Qed.

Lemma save_written (entity : Entity) (db : Database) :
  save r entity db
  = match written r entity (rows r db) with
    | OK t => (OK entity, <[tableName (metadata r) := t]> db)
    | Throw e => (Throw e, db)
    end.
Proof. reflexivity. Qed.

Lemma required_column (c : string) :
  c ∈ requiredColumns (metadata r) → hasColumn (metadata r) c.
Proof.
  unfold requiredColumns, hasColumn, columnNames.
  intros [cv [-> Hcv]]%list_elem_of_fmap.
  apply list_elem_of_filter in Hcv as [_ Hcv]. apply list_elem_of_fmap. eauto.
Qed.

Lemma violatedNotNull_Some (entity : Entity) (c : string) :
  violatedNotNull r entity = Some c →
  c ∈ requiredColumns (metadata r) ∧ isNull entity c.
Proof.
  unfold violatedNotNull. intros H%head_Some_elem_of.
  apply list_elem_of_filter in H. tauto.
Qed.

Lemma violatedNotNull_None (entity : Entity) :
  violatedNotNull r entity = None ↔
  ∀ c, c ∈ requiredColumns (metadata r) → ¬ isNull entity c.
Proof.
  unfold violatedNotNull. rewrite head_None. split.
  - intros H c Hc Hnull. eapply (filter_nil_not_elem_of _ _ c); eauto.
  - intros H. induction (requiredColumns (metadata r)) as [|c cs IH]; [done|].
    rewrite filter_cons_False.
    + apply IH. intros c' Hc'. apply H. by right.
    + apply H. by left.
Qed.

Lemma nulledNotNull_Some (entity old : Entity) (c : string) :
  nulledNotNull r entity old = Some c →
  c ∈ requiredColumns (metadata r) ∧ entity !! c = Some VNull ∧ changed entity old c.
Proof.
  unfold nulledNotNull. intros H%head_Some_elem_of.
  apply list_elem_of_filter in H. tauto.
Qed.

Lemma nulledNotNull_None (entity old : Entity) :
  nulledNotNull r entity old = None ↔
  ∀ c, c ∈ requiredColumns (metadata r) → entity !! c = Some VNull → ¬ changed entity old c.
Proof.
  unfold nulledNotNull. rewrite head_None. split.
  - intros H c Hc Hnull Hch.
    eapply (filter_nil_not_elem_of _ _ c); [exact H | by split | done].
  - intros H. induction (requiredColumns (metadata r)) as [|c cs IH]; [done|].
    rewrite filter_cons_False.
    + apply IH. intros c' Hc'. apply H. by right.
    + intros [Hnull Hch]. eapply H; [by left | done..].
Qed.

End Repository.


(** * The adapters of the registered entities *)

Lemma adapterFor_known (m : string) (a : Adapter) :
  m ∈ knownModels →
  adapterFor m = OK a →
  a ∈ bound <$> registeredSchemas.
Proof.
  unfold knownModels. intros Hm Ha.
  repeat (apply elem_of_cons in Hm as [->|Hm];
          [vm_compute in Ha; injection Ha as <-; in_list|]).
  by apply elem_of_nil in Hm.
Qed.


Lemma head_fmap_list {A B} (f : A → B) (l : list A) : head (f <$> l) = f <$> head l.
Proof. by destruct l. Qed.

(** * Storing and finding a record by its key field *)

Section Keyed.

Variable r : Repository.
Variable k : string.
Hypothesis key_column : hasColumn (metadata r) k.
Hypothesis key_primary : primaryColumn (metadata r) = k.
Hypothesis key_varchar : columnType (metadata r) k = Some varchar.

Lemma key_known (id : string) : unknownColumn r [(k, id)] = None.
Proof. apply unknownColumn_None. by repeat constructor. Qed.

Lemma satisfies_key (id : string) (row : Entity) :
  satisfies [(k, id)] row ↔ row !! k = Some (VStr id).
Proof.
  unfold satisfies. split.
  - intros H. by inversion H.
  - intros H. by repeat constructor.
Qed.

Lemma create_lookup (plain : Entity) (c : string) :
  hasColumn (metadata r) c → create r plain !! c = plain !! c.
Proof.
  intros Hc. unfold create. destruct (plain !! c) as [v|] eqn:E.
  - by apply map_lookup_filter_Some.
  - apply map_lookup_filter_None. left. done.
Qed.

Lemma create_lookup_None (plain : Entity) (c : string) :
  ¬ hasColumn (metadata r) c → create r plain !! c = None.
Proof.
  intros Hc. unfold create. apply map_lookup_filter_None. right. intros v _. done.
Qed.

(** [merge] is a per-column overwrite. *)
Lemma merge_lookup_payload (entity payload : Entity) (c : string) (v : value) :
  hasColumn (metadata r) c → payload !! c = Some v →
  merge r entity payload !! c = Some v.
Proof.
  intros Hc Hp. unfold merge. apply lookup_union_Some_l. by rewrite create_lookup.
Qed.

Lemma merge_lookup_kept (entity payload : Entity) (c : string) :
  payload !! c = None → merge r entity payload !! c = entity !! c.
Proof.
  intros Hp. unfold merge. apply lookup_union_r.
  destruct (decide (hasColumn (metadata r) c)).
  - by rewrite create_lookup.
  - by apply create_lookup_None.
Qed.

(** The record [upsert] starts from carries the key it was asked for. *)
Lemma or_create_key (id : string) (db : Database) :
  or_create (head (filter (satisfies [(k, id)]) (rows r db))) (create r {[ k := VStr id ]})
    !! k = Some (VStr id).
Proof.
  unfold or_create.
  destruct (head (filter (satisfies [(k, id)]) (rows r db))) as [old|] eqn:E; simpl.
  - apply head_Some_elem_of, list_elem_of_filter in E as [E _]. by apply satisfies_key.
  - rewrite create_lookup by done. apply lookup_singleton_eq.
Qed.

(** ** Saving an entity whose key is a string *)

Lemma sameId_key (entity : Entity) (id : string) (row : Entity) :
  entity !! k = Some (VStr id) → sameId r entity row ↔ satisfies [(k, id)] row.
Proof.
  intros Hk. unfold sameId, isNull. rewrite key_primary, Hk, satisfies_key. split.
  - by intros [_ ?].
  - intros ?. split; [by intros [?|?] | done].
Qed.

Lemma loaded_key (entity : Entity) (id : string) (t : list Entity) :
  entity !! k = Some (VStr id) →
  filter (sameId r entity) t = filter (satisfies [(k, id)]) t.
Proof. intros Hk. apply list_filter_iff. intros row. by apply sameId_key. Qed.

Lemma toRow_key (entity : Entity) (id : string) :
  entity !! k = Some (VStr id) → toRow r entity !! k = Some (VStr id).
Proof.
  intros Hk. rewrite toRow_lookup by done. rewrite Hk. simpl.
  unfold columnValue. by rewrite key_varchar.
Qed.

Lemma updated_key (entity old row : Entity) (id : string) :
  entity !! k = Some (VStr id) → old !! k = Some (VStr id) →
  updated r entity old row !! k = row !! k.
Proof. intros He Ho. apply updated_kept. right. left. congruence. Qed.

(** The UPDATE branch of [save]. *)
Lemma written_found (entity : Entity) (id : string) (old : Entity) (t : list Entity) :
  entity !! k = Some (VStr id) →
  head (filter (satisfies [(k, id)]) t) = Some old →
  written r entity t =
    match nulledNotNull r entity old with
    | Some c => Throw (NotNullConstraint c)
    | None =>
        OK ((λ row, if decide (satisfies [(k, id)] row)
                    then updated r entity old row else row) <$> t)
    end.
Proof.
  intros Hk Hold. unfold written. rewrite (loaded_key _ id) by done. rewrite Hold.
  destruct (nulledNotNull r entity old); [done|]. f_equal.
  apply list_fmap_ext. intros i row _.
  destruct (decide (sameId r entity row)) as [Hs|Hs],
           (decide (satisfies [(k, id)] row)) as [Hy|Hn]; try done.
  - exfalso. apply Hn. by apply (sameId_key entity id).
  - exfalso. apply Hs. by apply (sameId_key entity id).
Qed.

(** The INSERT branch of [save]. *)
Lemma written_fresh (entity : Entity) (id : string) (t : list Entity) :
  entity !! k = Some (VStr id) →
  filter (satisfies [(k, id)]) t = [] →
  written r entity t =
    match violatedNotNull r entity with
    | Some c => Throw (NotNullConstraint c)
    | None => OK (t ++ [toRow r entity])%list
    end.
Proof.
  intros Hk Hnone. unfold written. rewrite (loaded_key _ id) by done. rewrite Hnone. simpl.
  destruct (violatedNotNull r entity); [done|].
  rewrite decide_False; [done|]. intros [row [Hin Hrow]]%Exists_exists.
  rewrite key_primary, (toRow_key _ id) in Hrow by done.
  eapply (filter_nil_not_elem_of _ _ row); [exact Hnone | by apply satisfies_key | done].
Qed.

Lemma updated_rows_same (entity old : Entity) (id : string) (t : list Entity) :
  entity !! k = Some (VStr id) → old !! k = Some (VStr id) →
  filter (satisfies [(k, id)])
    ((λ row, if decide (satisfies [(k, id)] row) then updated r entity old row else row) <$> t)
  = updated r entity old <$> filter (satisfies [(k, id)]) t.
Proof.
  intros He Ho. induction t as [|row t IH]; [done|].
  rewrite fmap_cons. destruct (decide (satisfies [(k, id)] row)) as [Hy|Hn].
  - rewrite !filter_cons_True, fmap_cons, IH; [done | done |].
    apply satisfies_key. rewrite (updated_key _ _ _ id) by done. by apply satisfies_key.
  - by rewrite !filter_cons_False.
Qed.

Lemma updated_rows_other (entity old : Entity) (id id' : string) (t : list Entity) :
  entity !! k = Some (VStr id) → old !! k = Some (VStr id) → id' ≠ id →
  filter (satisfies [(k, id')])
    ((λ row, if decide (satisfies [(k, id)] row) then updated r entity old row else row) <$> t)
  = filter (satisfies [(k, id')]) t.
Proof.
  intros He Ho Hne. induction t as [|row t IH]; [done|].
  rewrite fmap_cons. destruct (decide (satisfies [(k, id)] row)) as [Hy|Hn].
  - rewrite !filter_cons_False; [done | |].
    + intros Hsat%satisfies_key. apply satisfies_key in Hy. congruence.
    + intros Hsat%satisfies_key. rewrite (updated_key _ _ _ id) in Hsat by done.
      apply satisfies_key in Hy. congruence.
  - rewrite !(filter_cons (satisfies [(k, id')])), IH. done.
Qed.

(** A successful [save] leaves the lookup of every other key alone. *)
Lemma written_frame (entity : Entity) (x id' : string) (t t' : list Entity) :
  entity !! k = Some (VStr x) → written r entity t = OK t' → id' ≠ x →
  filter (satisfies [(k, id')]) t' = filter (satisfies [(k, id')]) t.
Proof.
  intros Hk Hw Hne.
  destruct (head (filter (satisfies [(k, x)]) t)) as [old|] eqn:Hold.
  - rewrite (written_found _ x old) in Hw by done.
    destruct (nulledNotNull r entity old); [done|]. injection Hw as <-.
    apply updated_rows_other; [done | | done].
    apply head_Some_elem_of, list_elem_of_filter in Hold as [Hold _].
    by apply satisfies_key.
  - apply head_None in Hold. rewrite (written_fresh _ x) in Hw by done.
    destruct (violatedNotNull r entity); [done|]. injection Hw as <-.
    rewrite filter_app, filter_cons_False, filter_nil, app_nil_r; [done|].
    intros Hsat%satisfies_key. rewrite (toRow_key _ x) in Hsat by done. congruence.
Qed.

(** After a successful [save], the row found under the entity's key: it
    holds the entity's native values, and, when a row was there before, what
    that row held in every column the entity does not change. *)
Lemma written_row (entity : Entity) (x : string) (t t' : list Entity) :
  entity !! k = Some (VStr x) → written r entity t = OK t' →
  ∃ row, head (filter (satisfies [(k, x)]) t') = Some row
    ∧ row !! k = Some (VStr x)
    ∧ (∀ f v ty, columnType (metadata r) f = Some ty → entity !! f = Some v →
         native ty v ∨ v = VNull → row !! f = Some v)
    ∧ (∀ f, hasColumn (metadata r) f → is_Some (entity !! f) → is_Some (row !! f))
    ∧ match head (filter (satisfies [(k, x)]) t) with
      | Some old =>
          ∀ f, entity !! f = None ∨ entity !! f = old !! f ∨ ¬ hasColumn (metadata r) f →
               row !! f = old !! f
      | None => row = toRow r entity
      end.
Proof.
  intros Hk Hw.
  destruct (head (filter (satisfies [(k, x)]) t)) as [old|] eqn:Hold.
  - rewrite (written_found _ x old) in Hw by done.
    destruct (nulledNotNull r entity old); [done|]. injection Hw as <-.
    assert (Hkey : old !! k = Some (VStr x)).
    { apply head_Some_elem_of, list_elem_of_filter in Hold as [Hold _].
      by apply satisfies_key. }
    exists (updated r entity old old). split_and!.
    + rewrite updated_rows_same, head_fmap_list, Hold by done. done.
    + by rewrite (updated_key _ _ _ x).
    + intros f v ty Hty Hv Hnative. rewrite updated_lookup.
      destruct (decide (hasColumn (metadata r) f ∧ changed entity old f)) as [_|Hno].
      * rewrite Hv. simpl. f_equal. by apply (columnValue_native r f ty).
      * destruct (decide (entity !! f = old !! f)) as [Heq|Hdiff]; [congruence|].
        exfalso. apply Hno. split; [by apply (columnType_column r f ty)|].
        split; [by eexists | done].
    + intros f Hf [v Hv]. rewrite updated_lookup.
      destruct (decide (hasColumn (metadata r) f ∧ changed entity old f)) as [_|Hno].
      * by eexists.
      * destruct (decide (entity !! f = old !! f)) as [Heq|Hdiff].
        -- rewrite <- Heq, Hv. by eexists.
        -- exfalso. apply Hno. split; [done|]. split; [by eexists | done].
    + intros f Hf. by apply updated_kept.
  - apply head_None in Hold. rewrite (written_fresh _ x) in Hw by done.
    destruct (violatedNotNull r entity); [done|]. injection Hw as <-.
    exists (toRow r entity). split_and!.
    + rewrite filter_app, Hold, filter_cons_True; [done|].
      apply satisfies_key. by apply toRow_key.
    + by apply toRow_key.
    + intros f v ty Hty Hv Hnative.
      rewrite toRow_lookup by (by apply (columnType_column r f ty)).
      rewrite Hv. simpl. f_equal. by apply (columnValue_native r f ty).
    + intros f Hf _. rewrite toRow_lookup by done. by eexists.
    + done.
Qed.

(** After a successful [save], every row under the entity's key holds, in
    each column the entity defines, the value written, unless the loaded
    row already held the entity's value there. *)
Lemma written_rows (entity : Entity) (x : string) (t t' : list Entity)
    (row' : Entity) (c : string) (v : value) :
  entity !! k = Some (VStr x) → written r entity t = OK t' →
  row' ∈ t' → satisfies [(k, x)] row' →
  hasColumn (metadata r) c → entity !! c = Some v →
  row' !! c = Some (columnValue r c v)
  ∨ ∃ old, head (filter (satisfies [(k, x)]) t) = Some old ∧ old !! c = Some v.
Proof.
  intros Hk Hw Hin Hsat Hc Hv.
  destruct (head (filter (satisfies [(k, x)]) t)) as [old|] eqn:Hold.
  - rewrite (written_found _ x old) in Hw by done.
    destruct (nulledNotNull r entity old); [done|]. injection Hw as <-.
    assert (Hkey : old !! k = Some (VStr x)).
    { apply head_Some_elem_of, list_elem_of_filter in Hold as [Hold _].
      by apply satisfies_key. }
    apply list_elem_of_fmap in Hin as [row0 [-> Hin]].
    destruct (decide (satisfies [(k, x)] row0)) as [Hy|Hn]; [|done].
    rewrite updated_lookup.
    destruct (decide (hasColumn (metadata r) c ∧ changed entity old c)) as [_|Hno].
    + left. by rewrite Hv.
    + right. exists old. split; [done|].
      destruct (decide (entity !! c = old !! c)) as [Heq|Hdiff]; [congruence|].
      exfalso. apply Hno. split; [done|]. split; [by eexists | done].
  - apply head_None in Hold. rewrite (written_fresh _ x) in Hw by done.
    destruct (violatedNotNull r entity); [done|]. injection Hw as <-. left.
    apply elem_of_app in Hin as [Hin|Hin].
    + exfalso. by eapply (filter_nil_not_elem_of _ _ row').
    + apply list_elem_of_singleton in Hin as ->. rewrite toRow_lookup by done.
      by rewrite Hv.
Qed.

(** ** [upsertBy] *)

(** [upsertBy] unfolded on the merged entity. *)
Lemma upsertBy_eq (id : string) (payload : Entity) (db : Database) :
  upsertBy r k id payload db =
    let entity :=
      merge r (or_create (head (filter (satisfies [(k, id)]) (rows r db)))
                         (create r {[ k := VStr id ]})) payload in
    match written r entity (rows r db) with
    | OK t => (OK entity, <[tableName (metadata r) := t]> db)
    | Throw e => (Throw e, db)
    end.
Proof.
  unfold upsertBy, mbind, M_bind, bind, mret, M_ret, ret.
  rewrite (findOne_known _ _ _ (key_known id)). cbv zeta. rewrite save_written.
  by destruct (written r _ (rows r db)).
Qed.

(** The key of the entity [upsertBy] saves. *)
Lemma upsertBy_key (id x : string) (payload : Entity) (db : Database) :
  (payload !! k = None ∧ x = id) ∨ payload !! k = Some (VStr x) →
  merge r (or_create (head (filter (satisfies [(k, id)]) (rows r db)))
                     (create r {[ k := VStr id ]})) payload !! k = Some (VStr x).
Proof.
  intros [[Hp ->]|Hp].
  - rewrite merge_lookup_kept by done. apply or_create_key.
  - by apply merge_lookup_payload.
Qed.

(** What [upsertBy] followed by a lookup under the same key gives: the
    merged row, or a NOT NULL failure that leaves the table alone. *)
Lemma upsertBy_findOne (id : string) (payload : Entity) (db : Database) :
  payload !! k = None ∨ payload !! k = Some (VStr id) →
  match upsertBy r k id payload db with
  | (OK entity, db') =>
      ∃ row, findOne r [(k, id)] db' = (OK (Some row), db')
        ∧ row !! k = Some (VStr id)
        ∧ (∀ f v ty, columnType (metadata r) f = Some ty → payload !! f = Some v →
             native ty v ∨ v = VNull → row !! f = Some v)
        ∧ (∀ f, hasColumn (metadata r) f → is_Some (payload !! f) → is_Some (row !! f))
        ∧ (∀ f old, payload !! f = None ∨ ¬ hasColumn (metadata r) f →
             findOne r [(k, id)] db = (OK (Some old), db) → row !! f = old !! f)
        ∧ (findOne r [(k, id)] db = (OK None, db) →
             row = toRow r entity
             ∧ ∀ f, hasColumn (metadata r) f → payload !! f = None → f ≠ k →
                    row !! f = Some VNull)
  | (Throw e, db') =>
      db' = db ∧ ∃ c, e = NotNullConstraint c ∧ c ∈ requiredColumns (metadata r)
  end.
Proof.
  intros Hpk. rewrite upsertBy_eq. cbv zeta.
  set (found := head (filter (satisfies [(k, id)]) (rows r db))).
  set (entity := merge r (or_create found _) payload).
  assert (Hkey : entity !! k = Some (VStr id)).
  { apply upsertBy_key. destruct Hpk; [left | right]; done. }
  destruct (written r entity (rows r db)) as [t'|e] eqn:Hw.
  - destruct (written_row _ id _ _ Hkey Hw) as (row & Hhead & Hrowkey & Hnat & Hsome & Hold).
    exists row. rewrite !(findOne_known _ _ _ (key_known id)), rows_insert, Hhead.
    split_and!; [done | done | | | |].
    + intros f v ty Hty Hp. apply (Hnat f v ty Hty).
      apply merge_lookup_payload; [by apply (columnType_column r f ty) | done].
    + intros f Hf [v Hv]. apply Hsome; [done|]. exists v. by apply merge_lookup_payload.
    + intros f old Hf [= Hfound]. fold found in Hfound, Hold. rewrite Hfound in Hold.
      apply Hold. unfold entity. rewrite Hfound. simpl.
      destruct Hf as [Hf|Hf].
      * right. left. by apply merge_lookup_kept.
      * by right; right.
    + intros [= Hfound]. fold found in Hfound, Hold. rewrite Hfound in Hold.
      split; [done|]. intros f Hf Hp Hfk. rewrite Hold, toRow_lookup by done.
      unfold entity. rewrite merge_lookup_kept, Hfound by done. simpl.
      rewrite create_lookup, lookup_singleton_ne by done. simpl.
      f_equal. by apply columnValue_null.
  - split; [done|].
    destruct found as [old|] eqn:Hfound.
    + rewrite (written_found _ id old) in Hw by done.
      destruct (nulledNotNull r entity old) as [c|] eqn:E; [|done].
      injection Hw as <-. exists c. split; [done|].
      by apply nulledNotNull_Some in E as [? _].
    + apply head_None in Hfound. rewrite (written_fresh _ id) in Hw by done.
      destruct (violatedNotNull r entity) as [c|] eqn:E; [|done].
      injection Hw as <-. exists c. split; [done|].
      by apply violatedNotNull_Some in E as [? _].
Qed.

End Keyed.
Section KeyedUpsert.

Variable r : Repository.
Variable k : string.
Hypothesis key_column : hasColumn (metadata r) k.
Hypothesis key_primary : primaryColumn (metadata r) = k.
Hypothesis key_varchar : columnType (metadata r) k = Some varchar.

(** [upsertBy] throws exactly when the payload nulls a NOT NULL column, or,
    nothing being stored under the key, leaves one without a value. *)
Lemma upsertBy_throws (id : string) (payload : Entity) (db : Database) :
  payload !! k = None ∨ payload !! k = Some (VStr id) →
  (∀ old c, head (filter (satisfies [(k, id)]) (rows r db)) = Some old →
            c ∈ requiredColumns (metadata r) → ¬ isNull old c) →
  (∃ e, (upsertBy r k id payload db).1 = Throw e)
  ↔ ∃ c, c ∈ requiredColumns (metadata r)
      ∧ (payload !! c = Some VNull
         ∨ (payload !! c = None ∧ c ≠ k
            ∧ head (filter (satisfies [(k, id)]) (rows r db)) = None)).
Proof.
  intros Hpk Hfilled. rewrite (upsertBy_eq r k key_column). cbv zeta.
  set (found := head (filter (satisfies [(k, id)]) (rows r db))) in *.
  set (entity := merge r (or_create found _) payload).
  assert (Hkey : entity !! k = Some (VStr id)).
  { apply upsertBy_key; [done|]. destruct Hpk; [left | right]; done. }
  assert (Hentity : ∀ c, hasColumn (metadata r) c →
            entity !! c = match payload !! c with
                          | Some v => Some v
                          | None => or_create found (create r {[ k := VStr id ]}) !! c
                          end).
  { intros c Hc. unfold entity. destruct (payload !! c) as [v|] eqn:Hp.
    - by apply merge_lookup_payload.
    - by apply merge_lookup_kept. }
  destruct found as [old|] eqn:Hfound.
  - rewrite (written_found r k key_primary _ id old) by done.
    destruct (nulledNotNull r entity old) as [c|] eqn:E; simpl.
    + split; [|by eexists]. intros _.
      apply nulledNotNull_Some in E as (Hc & Hnull & [_ Hdiff]).
      exists c. split; [done|]. left.
      rewrite (Hentity c (required_column r c Hc)) in Hnull, Hdiff.
      destruct (payload !! c) as [v|]; [done|]. by simpl in Hdiff.
    + split; [by intros [? ?]|]. intros (c & Hc & [Hp|(_ & _ & ?)]); [|done].
      exfalso. pose proof (Hentity c (required_column r c Hc)) as He. rewrite Hp in He.
      eapply (proj1 (nulledNotNull_None r entity old) E c Hc); [done|].
      split; [by eexists|]. rewrite He. intros Heq.
      apply (Hfilled old c eq_refl Hc). by right.
  - assert (Hnone : filter (satisfies [(k, id)]) (rows r db) = []) by (by apply head_None).
    rewrite (written_fresh r k key_column key_primary key_varchar _ id) by done.
    destruct (violatedNotNull r entity) as [c|] eqn:E; simpl.
    + split; [|by eexists]. intros _.
      apply violatedNotNull_Some in E as (Hc & Hnull).
      exists c. split; [done|]. unfold isNull in Hnull.
      destruct (decide (c = k)) as [->|Hck].
      { rewrite Hkey in Hnull. by destruct Hnull. }
      rewrite (Hentity c (required_column r c Hc)) in Hnull.
      destruct (payload !! c) as [v|].
      * left. by destruct Hnull as [?|?].
      * by right.
    + split; [by intros [? ?]|]. intros (c & Hc & Hp). exfalso.
      apply (proj1 (violatedNotNull_None r entity) E c Hc). unfold isNull.
      rewrite (Hentity c (required_column r c Hc)).
      destruct Hp as [-> | (-> & Hck & _)]; [by right|]. left. simpl.
      rewrite (create_lookup r) by (by apply required_column).
      by apply lookup_singleton_ne.
Qed.

(** Storing under one key leaves the lookup of every other key alone. *)
Lemma upsertBy_frame (id id' : string) (payload : Entity) (db : Database) :
  (payload !! k = None ∧ id ≠ id') ∨ (∃ s, payload !! k = Some (VStr s) ∧ s ≠ id') →
  (findOne r [(k, id')] (upsertBy r k id payload db).2).1 = (findOne r [(k, id')] db).1.
Proof.
  intros Hpk. rewrite (upsertBy_eq r k key_column). cbv zeta.
  set (entity := merge r _ payload).
  assert (∃ x, entity !! k = Some (VStr x) ∧ id' ≠ x) as (x & Hkey & Hx).
  { destruct Hpk as [[Hp Hne]|(s & Hp & Hs)].
    - exists id. split; [|done]. apply upsertBy_key; [done|]. by left.
    - exists s. split; [|done]. apply upsertBy_key; [done|]. by right. }
  destruct (written r entity (rows r db)) as [t'|e] eqn:Hw; [|done]. simpl.
  rewrite !(findOne_known _ _ _ (key_known r k key_column id')), rows_insert. simpl.
  by rewrite (written_frame r k key_column key_primary key_varchar _ x id' _ _ Hkey Hw).
Qed.

End KeyedUpsert.

(** * The eight branches of [upsert] and [find] *)

Ltac each_schema H :=
  unfold registeredSchemas in H;
  repeat (apply elem_of_cons in H as [->|H]); [..|by apply elem_of_nil in H].

Lemma known_key_column (md : EntitySchema) :
  md ∈ registeredSchemas → hasColumn md (primaryColumn md).
Proof. intros H. each_schema H; in_list. Qed.

Lemma find_known (md : EntitySchema) (id : string) :
  md ∈ registeredSchemas →
  find (bound md) id = findOne {| metadata := md |} [(primaryColumn md, id)].
Proof. intros H. each_schema H; reflexivity. Qed.

Lemma upsert_known (md : EntitySchema) (id : string) (payload : Entity)
    (expiresIn : option Z) (db : Database) :
  md ∈ registeredSchemas →
  upsert (bound md) id payload expiresIn db
  = upsertBy {| metadata := md |} (primaryColumn md) id payload db.
Proof.
  intros H. each_schema H; reflexivity.
Qed.

Lemma known_key_varchar (md : EntitySchema) :
  md ∈ registeredSchemas → columnType md (primaryColumn md) = Some varchar.
Proof. intros H. each_schema H; reflexivity. Qed.

Lemma adapterFor_bound (m : string) (a : Adapter) :
  m ∈ knownModels → adapterFor m = OK a →
  ∃ md, md ∈ registeredSchemas ∧ a = bound md.
Proof.
  intros Hm Ha. pose proof (adapterFor_known _ _ Hm Ha) as H.
  apply list_elem_of_fmap in H as [md [-> Hmd]]. eauto.
Qed.


Lemma registered_tableName_inj (md md' : EntitySchema) :
  md ∈ registeredSchemas → md' ∈ registeredSchemas →
  tableName md = tableName md' → md = md'.
Proof.
  intros H H'. each_schema H; each_schema H'; intros Heq; try done; discriminate Heq.
Qed.

(** The adapters the factory returns are bound to one of the eight
    registered schemas. *)
Lemma factory_repository (m : string) (a : Adapter) :
  adapterFor m = OK a → metadata (repository a) ∈ registeredSchemas ∧ model a = m.
Proof.
  unfold adapterFor, initializeAdapter, typeormAdapter, getRepository, findMetadata.
  destruct (head _) as [md|] eqn:E; [|done]. intros [= <-]. simpl. split; [|done].
  apply head_Some_elem_of, list_elem_of_filter in E as [_ E]. exact E.
Qed.

Lemma not_known (m : string) :
  m ∉ knownModels →
  m ≠ "Client" ∧ m ≠ "Session" ∧ m ≠ "Grant" ∧ m ≠ "Code" ∧ m ≠ "AccessToken"
  ∧ m ≠ "RefreshToken" ∧ m ≠ "DeviceCode" ∧ m ≠ "Interaction".
Proof. unfold knownModels. intros H. split_and!; intros ->; apply H; repeat constructor. Qed.

Lemma upsert_unknown (a : Adapter) (id : string) (payload : Entity)
    (expiresIn : option Z) (db : Database) :
  model a ∉ knownModels →
  upsert a id payload expiresIn db = (Throw (UnknownModel (model a)), db).
Proof.
  intros (HCl & HS & HG & HCo & HA & HR & HD & HI)%not_known.
  unfold upsert. by rewrite !decide_False.
Qed.

(** An adapter of the factory is bound to a registered schema under its
    entity name, or carries a name the operations do not recognise. *)
Lemma factory_cases (m : string) (a : Adapter) :
  adapterFor m = OK a →
  (∃ md, md ∈ registeredSchemas ∧ a = bound md) ∨ model a ∉ knownModels.
Proof.
  intros Ha. destruct (decide (m ∈ knownModels)) as [Hm|Hm].
  - left. by apply (adapterFor_bound m).
  - right. destruct (factory_repository m a Ha) as [_ ->]. done.
Qed.

Lemma find_known_result (md : EntitySchema) (id : string) (db : Database) :
  md ∈ registeredSchemas →
  find (bound md) id db = findOne {| metadata := md |} [(primaryColumn md, id)] db.
Proof. intros H. by rewrite (find_known _ _ H). Qed.

(** * How a call changes the database *)

Lemma upsertWith_eq (r : Repository) (w : list (string * string))
    (created payload : Entity) (db : Database) :
  upsertWith r w created payload db =
    match unknownColumn r w with
    | Some c => (Throw (EntityColumnNotFound c), db)
    | None =>
        let entity :=
          merge r (or_create (head (filter (satisfies w) (rows r db))) created) payload in
        match written r entity (rows r db) with
        | OK t => (OK entity, <[tableName (metadata r) := t]> db)
        | Throw e => (Throw e, db)
        end
    end.
Proof.
  unfold upsertWith, mbind, M_bind, bind, mret, M_ret, ret, findOne, save.
  destruct (unknownColumn r w); [done|]. cbv zeta.
  by destruct (written r _ (rows r db)).
Qed.

Lemma upsert_branch (r : Repository) (w : list (string * string))
    (created payload : Entity) (db : Database) :
  (entity ← (found ← findOne r w; mret (or_create found created));
   let entity := merge r entity payload in
   _ ← save r entity;
   mret entity) db
  = upsertWith r w created payload db.
Proof.
  unfold upsertWith, mbind, M_bind, bind, mret, M_ret, ret, findOne.
  by destruct (unknownColumn r w).
Qed.

(** [upsert] either rejects the model or is an instance of the pattern. *)
Lemma upsert_pattern (a : Adapter) (id : string) (payload : Entity)
    (expiresIn : option Z) (db : Database) :
  upsert a id payload expiresIn db = (Throw (UnknownModel (model a)), db)
  ∨ ∃ w created, upsert a id payload expiresIn db
                 = upsertWith (repository a) w created payload db.
Proof.
  unfold upsert. cbv zeta.
  repeat (case_decide; [right; eexists _, _; apply upsert_branch|]).
  by left.
Qed.

Lemma delete_effect (r : Repository) (w : list (string * string)) (db : Database) :
  Effect r db (delete r w db).2
  ∧ (∀ e, (delete r w db).1 = Throw e → (delete r w db).2 = db).
Proof.
  unfold delete. destruct (unknownColumn r w); simpl.
  - split; [constructor | done].
  - split; [constructor | done].
Qed.

Lemma deleteById_effect (r : Repository) (id : string) (db : Database) :
  Effect r db (deleteById r id db).2
  ∧ (∀ e, (deleteById r id db).1 = Throw e → (deleteById r id db).2 = db).
Proof.
  unfold deleteById. case_decide.
  - split; [constructor | done].
  - apply delete_effect.
Qed.

Lemma upsertWith_effect (r : Repository) (w : list (string * string))
    (created payload : Entity) (db : Database) :
  Effect r db (upsertWith r w created payload db).2
  ∧ (∀ e, (upsertWith r w created payload db).1 = Throw e →
          (upsertWith r w created payload db).2 = db).
Proof.
  rewrite upsertWith_eq. destruct (unknownColumn r w); simpl.
  - split; [constructor | done].
  - destruct (written r _ (rows r db)) eqn:E; simpl.
    + split; [by econstructor | done].
    + split; [constructor | done].
Qed.

Lemma find_unchanged (a : Adapter) (id : string) (db : Database) : (find a id db).2 = db.
Proof.
  unfold find, findOneById. repeat (case_decide; [apply findOne_db|]). done.
Qed.

Lemma findByUid_unchanged (a : Adapter) (uid : string) (db : Database) :
  (findByUid a uid db).2 = db.
Proof. unfold findByUid. case_decide; [apply findOne_db | done]. Qed.

Lemma findByUserCode_unchanged (a : Adapter) (userCode : string) (db : Database) :
  (findByUserCode a userCode db).2 = db.
Proof. unfold findByUserCode. case_decide; [apply findOne_db | done]. Qed.

Lemma findByUidAndUserCode_unchanged (a : Adapter) (uid userCode : string) (db : Database) :
  (findByUidAndUserCode a uid userCode db).2 = db.
Proof. unfold findByUidAndUserCode. case_decide; [apply findOne_db | done]. Qed.

(** Every call does one of three things to the database, and nothing
    when it throws. *)
Lemma after_effect (a : Adapter) (db : Database) (c : Call) :
  Effect (repository a) db (after a db c)
  ∧ (∀ e, thrown a db c = Some e → after a db c = db).
Proof.
  destruct c as [id payload expiresIn | id | uid | userCode | uid userCode
                 | id | id | grantId | grantId]; unfold after, thrown.
  - destruct (upsert_pattern a id payload expiresIn db) as [-> | (w & created & ->)].
    + split; [constructor | done].
    + destruct (upsertWith_effect (repository a) w created payload db) as [He Ht].
      split; [done|]. intros e Hthrown. apply (Ht e).
      by destruct (upsertWith (repository a) w created payload db).1 as [|e']; simplify_eq.
  - rewrite find_unchanged. split; [constructor | done].
  - rewrite findByUid_unchanged. split; [constructor | done].
  - rewrite findByUserCode_unchanged. split; [constructor | done].
  - rewrite findByUidAndUserCode_unchanged. split; [constructor | done].
  - unfold destroy. case_decide; [|split; [constructor | done]].
    destruct (delete_effect (repository a) [("uid", id)] db) as [He Ht].
    split; [done|]. intros e Hthrown. apply (Ht e).
    by destruct (delete (repository a) [("uid", id)] db).1 as [|e']; simplify_eq.
  - unfold consume. case_decide; [|split; [constructor | done]].
    destruct (delete_effect (repository a) [("code", id)] db) as [He Ht].
    split; [done|]. intros e Hthrown. apply (Ht e).
    by destruct (delete (repository a) [("code", id)] db).1 as [|e']; simplify_eq.
  - unfold destroyByGrantId. case_decide; [|split; [constructor | done]].
    destruct (deleteById_effect (repository a) grantId db) as [He Ht].
    split; [done|]. intros e Hthrown. apply (Ht e).
    by destruct (deleteById (repository a) grantId db).1 as [|e']; simplify_eq.
  - unfold revokeByGrantId. case_decide; [|split; [constructor | done]].
    destruct (delete_effect (repository a) [("grantId", grantId)] db) as [He Ht].
    split; [done|]. intros e Hthrown. apply (Ht e).
    by destruct (delete (repository a) [("grantId", grantId)] db).1 as [|e']; simplify_eq.
Qed.

(** A call that is not a removal changes the database by a save into the
    adapter's table, if at all. *)
Lemma kept_effect (a : Adapter) (db : Database) (c : Call) :
  ¬ isRemoval c →
  after a db c = db
  ∨ ∃ entity t, written (repository a) entity (rows (repository a) db) = OK t
      ∧ after a db c = <[tableName (metadata (repository a)) := t]> db.
Proof.
  intros Hc.
  destruct c as [id payload expiresIn | id | uid | userCode | uid userCode
                 | id | id | grantId | grantId]; unfold after;
    try (exfalso; by apply Hc).
  - destruct (upsert_pattern a id payload expiresIn db) as [-> | (w & created & ->)];
      [by left|].
    rewrite upsertWith_eq. destruct (unknownColumn (repository a) w); [by left|]. cbv zeta.
    destruct (written (repository a) _ (rows (repository a) db)) as [t|e] eqn:E;
      [|by left].
    right. by eexists _, t.
  - left. apply find_unchanged.
  - left. apply findByUid_unchanged.
  - left. apply findByUserCode_unchanged.
  - left. apply findByUidAndUserCode_unchanged.
Qed.

(** A call that is not an upsert changes the database by a delete in the
    adapter's table, if at all. *)
Lemma removal_effect (a : Adapter) (db : Database) (c : Call) :
  ¬ isUpsert c →
  after a db c = db
  ∨ ∃ w, after a db c
         = alter (filter (λ row, ¬ satisfies w row)) (tableName (metadata (repository a))) db.
Proof.
  intros Hc.
  assert (Hdelete : ∀ w, (delete (repository a) w db).2 = db
            ∨ ∃ w', (delete (repository a) w db).2
                    = alter (filter (λ row, ¬ satisfies w' row))
                        (tableName (metadata (repository a))) db).
  { intros w. unfold delete. destruct (unknownColumn (repository a) w); [by left|].
    right. by exists w. }
  destruct c as [id payload expiresIn | id | uid | userCode | uid userCode
                 | id | id | grantId | grantId]; unfold after;
    try (exfalso; by apply Hc).
  - left. apply find_unchanged.
  - left. apply findByUid_unchanged.
  - left. apply findByUserCode_unchanged.
  - left. apply findByUidAndUserCode_unchanged.
  - unfold destroy. case_decide; [apply Hdelete | by left].
  - unfold consume. case_decide; [apply Hdelete | by left].
  - unfold destroyByGrantId. case_decide; [|by left].
    unfold deleteById. case_decide; [by left | apply Hdelete].
  - unfold revokeByGrantId. case_decide; [apply Hdelete | by left].
Qed.

(** * Tables stay tables of their schema *)

Section Tables.

Variable md : EntitySchema.

Local Abbreviation r := ({| metadata := md |}).

Lemma tableOf_nil : tableOf md [].
Proof. split; constructor. Qed.

Lemma tableOf_filter (P : Entity → Prop) `{!∀ row, Decision (P row)} (t : list Entity) :
  tableOf md t → tableOf md (filter P t).
Proof.
  intros [Hkeys Hrows]. split.
  - eapply sublist_NoDup; [exact Hkeys|]. unfold keysOf.
    apply fmap_sublist, sublist_filter.
  - apply Forall_forall. intros row [_ Hrow]%list_elem_of_filter.
    by eapply Forall_forall in Hrows.
Qed.

(** The row an INSERT writes is a row of the schema. *)
Lemma toRow_rowOf (entity : Entity) :
  violatedNotNull r entity = None → rowOf md (toRow r entity).
Proof.
  intros Hnn. split.
  - intros c. destruct (decide (hasColumn md c)) as [Hc|Hc].
    + rewrite (toRow_lookup r); [|exact Hc]. split; [done | by eexists].
    + rewrite (toRow_lookup_None r); [|exact Hc]. split; [by intros [? ?] | done].
  - intros c Hc. pose proof (proj1 (violatedNotNull_None r entity) Hnn c Hc) as Hnull.
    unfold isNull in *.
    rewrite (toRow_lookup r); [|exact (required_column r c Hc)].
    intros [?|Heq]; [done|]. injection Heq as Heq. apply (columnValue_null r) in Heq.
    apply Hnull. destruct (entity !! c) as [v|]; simpl in *; [right; congruence | by left].
Qed.

(** An UPDATE turns a row of the schema into a row of the schema. *)
Lemma updated_rowOf (entity old row : Entity) :
  nulledNotNull r entity old = None → rowOf md row → rowOf md (updated r entity old row).
Proof.
  intros Hnn [Hdom Hreq]. split.
  - intros c. rewrite (updated_lookup r).
    destruct (decide (hasColumn (metadata r) c ∧ changed entity old c)) as [[Hc _]|_].
    + split; [done | by eexists].
    + apply Hdom.
  - intros c Hc. unfold isNull. rewrite (updated_lookup r).
    destruct (decide (hasColumn (metadata r) c ∧ changed entity old c)) as [[_ Hch]|_].
    + intros [?|Heq]; [done|]. injection Heq as Heq. apply (columnValue_null r) in Heq.
      destruct Hch as [[v Hv] Hdiff]. rewrite Hv in Heq. simpl in Heq. subst v.
      apply (proj1 (nulledNotNull_None r entity old) Hnn c Hc Hv).
      split; [by eexists | done].
    + by apply Hreq.
Qed.

(** [save] keeps the keys of the table, or adds one that was not there. *)
Lemma written_keys (entity : Entity) (t t' : list Entity) :
  written r entity t = OK t' →
  keysOf md t' = keysOf md t
  ∨ (keysOf md t' = (keysOf md t ++ [toRow r entity !! primaryColumn md])%list
     ∧ toRow r entity !! primaryColumn md ∉ keysOf md t).
Proof.
  unfold written. destruct (head (filter (sameId r entity) t)) as [old|] eqn:Hold.
  - destruct (nulledNotNull r entity old); [done|]. intros [= <-]. left.
    apply head_Some_elem_of, list_elem_of_filter in Hold as [Hold _].
    unfold keysOf. rewrite <- list_fmap_compose. apply list_fmap_ext. intros i row _. simpl.
    destruct (decide (sameId r entity row)); [|done]. by apply (updated_id r).
  - destruct (violatedNotNull r entity); [done|]. case_decide as Hex; [done|].
    intros [= <-]. right. split.
    + unfold keysOf. by rewrite fmap_app.
    + intros Hin. apply Hex. unfold keysOf in Hin.
      apply list_elem_of_fmap in Hin as [row [Heq Hin]].
      apply Exists_exists. exists row. split; [done|]. by simpl.
Qed.

Lemma written_keeps_key (entity : Entity) (t t' : list Entity) (key : option value) :
  written r entity t = OK t' → key ∈ keysOf md t → key ∈ keysOf md t'.
Proof.
  intros Hw Hin. destruct (written_keys _ _ _ Hw) as [-> | [-> _]]; [done|].
  apply elem_of_app. by left.
Qed.

Lemma tableOf_written (entity : Entity) (t t' : list Entity) :
  written r entity t = OK t' → tableOf md t → tableOf md t'.
Proof.
  intros Hw [Hkeys Hrows]. split.
  - destruct (written_keys _ _ _ Hw) as [-> | [-> Hnew]]; [done|].
    apply NoDup_app. split_and!; [done | | apply NoDup_singleton].
    intros key Hk Hin. by apply list_elem_of_singleton in Hin as ->.
  - revert Hw. unfold written. destruct (head (filter (sameId r entity) t)) as [old|].
    + destruct (nulledNotNull r entity old) eqn:E; [done|]. intros [= <-].
      apply Forall_fmap. eapply Forall_impl; [exact Hrows|]. intros row Hrow. simpl.
      destruct (decide (sameId r entity row)); [by apply updated_rowOf | done].
    + destruct (violatedNotNull r entity) eqn:E; [done|]. case_decide; [done|].
      intros [= <-]. apply Forall_app. split; [done|].
      constructor; [by apply toRow_rowOf | constructor].
Qed.

(** Whatever a call does, the adapter's own table stays a table. *)
Lemma tableOf_effect (db db' : Database) :
  Effect r db db' → tableOf md (rows r db) → tableOf md (rows r db').
Proof.
  intros [| w | entity t Hw] Ht.
  - done.
  - rewrite (rows_alter r) by done. by apply tableOf_filter.
  - rewrite (rows_insert r). by apply (tableOf_written entity (rows r db)).
Qed.

End Tables.

(** A call changes no table but the adapter's own. *)
Lemma effect_other_table (r : Repository) (db db' : Database) (tn : string) :
  Effect r db db' → tn ≠ tableName (metadata r) → db' !! tn = db !! tn.
Proof.
  intros [| w | entity t Hw] Hne.
  - done.
  - by rewrite lookup_alter_ne.
  - by rewrite lookup_insert_ne.
Qed.




Lemma consistent_after (a : Adapter) (db : Database) (c : Call) :
  metadata (repository a) ∈ registeredSchemas →
  consistent db → consistent (after a db c).
Proof.
  intros Ha Hdb md Hmd. destruct (after_effect a db c) as [Heff _].
  destruct (repository a) as [md0] eqn:Hr. simpl in Ha.
  destruct (decide (tableName md = tableName md0)) as [Heq|Hne].
  - apply registered_tableName_inj in Heq as ->; [|done..].
    apply (tableOf_effect md0 db); [done|]. by apply Hdb.
  - unfold rows. simpl.
    rewrite (effect_other_table _ _ _ (tableName md) Heff); [|done].
    by apply Hdb.
Qed.

(** ** Which keys a table holds *)

Lemma found_iff_key (md : EntitySchema) (id : string) (db : Database) :
  md ∈ registeredSchemas →
  (∃ row, find (bound md) id db = (OK (Some row), db))
  ↔ Some (VStr id) ∈ keysOf md (rows {| metadata := md |} db).
Proof.
  intros Hmd. rewrite (find_known _ _ Hmd).
  rewrite (findOne_known _ _ _
             (key_known {| metadata := md |} _ (known_key_column _ Hmd) id)).
  unfold keysOf. split.
  - intros [row [= Hhead]].
    apply head_Some_elem_of, list_elem_of_filter in Hhead as [Hsat Hin].
    apply list_elem_of_fmap. exists row. split; [|done]. symmetry. by apply satisfies_key.
  - intros [row [Hkey Hin]]%list_elem_of_fmap.
    destruct (head (filter (satisfies [(primaryColumn md, id)]) (rows {| metadata := md |} db)))
      as [found|] eqn:E; [by exists found|].
    apply head_None in E. exfalso.
    eapply (filter_nil_not_elem_of _ _ row); [exact E | by apply satisfies_key | done].
Qed.

(** A call that is not a removal, through an adapter of the factory,
    leaves every key of every table in place. *)
Lemma kept_after (md : EntitySchema) (key : option value) (a : Adapter) (c : Call)
    (db : Database) :
  md ∈ registeredSchemas → (∃ m, adapterFor m = OK a) → ¬ isRemoval c →
  key ∈ keysOf md (rows {| metadata := md |} db) →
  key ∈ keysOf md (rows {| metadata := md |} (after a db c)).
Proof.
  intros Hmd [m Ha] Hc Hin.
  destruct (kept_effect a db c Hc) as [-> | (entity & t & Hw & ->)]; [done|].
  destruct (factory_repository m a Ha) as [Hreg _].
  destruct (repository a) as [md0]. simpl in *.
  destruct (decide (tableName md = tableName md0)) as [Heq|Hne].
  - apply registered_tableName_inj in Heq as ->; [|done..].
    rewrite (rows_insert {| metadata := md0 |}).
    by apply (written_keeps_key md0 entity (rows {| metadata := md0 |} db)).
  - unfold rows in *. simpl. by rewrite lookup_insert_ne.
Qed.

Lemma consistent_empty : consistent ∅.
Proof. intros md _. unfold rows. rewrite lookup_empty. apply tableOf_nil. Qed.

Lemma consistent_afterEach (db : Database) (calls : list (Adapter * Call)) :
  Forall (λ ac, ∃ m, adapterFor m = OK ac.1) calls →
  consistent db →
  consistent (afterEach db calls).
Proof.
  unfold afterEach. revert db. induction calls as [|[a c] calls IH]; intros db Hcalls Hdb.
  - done.
  - inversion Hcalls as [|? ? [m Ha] Hrest]; subst. simpl in *.
    apply IH; [done|]. apply consistent_after; [|done].
    by destruct (factory_repository m a Ha).
Qed.

(** * Authorization codes are single-use *)

Lemma adapterFor_Code : adapterFor "Code" = OK (bound CodeSchema).
Proof. by vm_compute. Qed.

Section Code.

Local Abbreviation a := (bound CodeSchema).
Local Abbreviation r := (repository (bound CodeSchema)).

Lemma find_Code (id : string) : find a id = findOne r [("code", id)].
Proof. reflexivity. Qed.

Lemma consume_Code (id : string) : consume a id = delete r [("code", id)].
Proof. reflexivity. Qed.

Lemma destroy_Code (id : string) (db : Database) :
  destroy a id db = (Throw (EntityColumnNotFound "uid"), db).
Proof. reflexivity. Qed.

Lemma code_column (id : string) : unknownColumn r [("code", id)] = None.
Proof. reflexivity. Qed.

Lemma spent_find (id : string) (db : Database) :
  spent id db → find a id db = (OK None, db).
Proof.
  intros H. rewrite find_Code, (findOne_known _ _ _ (code_column id)).
  unfold spent in H. by rewrite H.
Qed.

Lemma spent_consume (id : string) (db : Database) : spent id (consume a id db).2.
Proof.
  rewrite consume_Code, (delete_known _ _ _ (code_column id)). simpl.
  unfold spent. rewrite rows_alter by done. apply filter_satisfies_removed.
Qed.

Lemma CodeSchema_registered : CodeSchema ∈ registeredSchemas.
Proof. in_list. Qed.

(** An upsert of another code leaves a spent code spent. *)
Lemma spent_upsert (id id' : string) (payload : Entity) (expiresIn : option Z)
    (db : Database) :
  (payload !! "code" = None ∧ id' ≠ id)
  ∨ (∃ s, payload !! "code" = Some (VStr s) ∧ s ≠ id) →
  spent id db → spent id (upsert a id' payload expiresIn db).2.
Proof.
  intros Hpayload Hspent.
  pose proof (upsertBy_frame {| metadata := CodeSchema |} (primaryColumn CodeSchema)
                (known_key_column _ CodeSchema_registered) eq_refl
                (known_key_varchar _ CodeSchema_registered)
                id' id payload db Hpayload) as Hframe.
  rewrite <- (upsert_known CodeSchema id' payload expiresIn db CodeSchema_registered)
    in Hframe.
  change (primaryColumn CodeSchema) with "code" in Hframe.
  rewrite !(findOne_known _ _ _ (code_column id)) in Hframe. cbn [fst] in Hframe.
  unfold spent in *.
  change (rows (repository (bound CodeSchema))) with (rows {| metadata := CodeSchema |}) in *.
  rewrite Hspent in Hframe. injection Hframe as Hframe.
  by apply head_None.
Qed.

End Code.

(** A call through an adapter of the factory that stores no code under
    [id] leaves the code spent. *)
Lemma spent_after (id : string) (a : Adapter) (c : Call) (db : Database) :
  (∃ m, adapterFor m = OK a) → storesNoCode id a c →
  spent id db → spent id (after a db c).
Proof.
  intros [m Ha] Hc Hspent.
  destruct (factory_repository m a Ha) as [Hreg Hmodel].
  destruct (decide (tableName (metadata (repository a)) = "codes")) as [Hcodes|Hother].
  2:{ unfold spent, rows in *. destruct (after_effect a db c) as [Heff _].
      rewrite (effect_other_table _ _ _ _ Heff); [done|]. simpl. congruence. }
  assert (metadata (repository a) = CodeSchema) as Hmd
    by (apply registered_tableName_inj; [done | apply CodeSchema_registered | done]).
  assert (Hremoval : ¬ isUpsert c → spent id (after a db c)).
  { intros Hnot. destruct (removal_effect a db c Hnot) as [-> | [w ->]]; [done|].
    unfold spent in *. rewrite Hcodes.
    rewrite (rows_alter (repository (bound CodeSchema))) by done.
    by apply filter_empty_filter. }
  destruct c as [id' payload expiresIn | | | | | | | |]; try (apply Hremoval; by intros []).
  unfold after. destruct (factory_cases m a Ha) as [(md & Hmd' & ->) | Hunknown].
  - simpl in Hmd. subst md. apply spent_upsert; [|done]. by apply Hc.
  - by rewrite upsert_unknown.
Qed.

Lemma spent_afterEach (id : string) (calls : list (Adapter * Call)) (db : Database) :
  Forall (λ ac, (∃ m, adapterFor m = OK ac.1) ∧ storesNoCode id ac.1 ac.2) calls →
  spent id db → spent id (afterEach db calls).
Proof.
  unfold afterEach. revert db.
  induction calls as [|[a c] calls IH]; intros db Hcalls Hspent; [done|].
  inversion Hcalls as [|? ? [Ha Hc] Hrest]; subst. simpl in *.
  apply IH; [done|]. by apply spent_after.
Qed.

(** C2 (amended). For the Code adapter and every code id: [consume(id)]
    succeeds, a [find(id)] after it returns not-found, and a second
    [consume(id)] succeeds and changes nothing.  The adapter keeps no
    record of the codes it has consumed: the code stays unretrievable, and
    its [consume] a no-op, through every later sequence of calls through
    adapters of the factory in which every upsert on the Code adapter
    stores its record under another code (its id, when the payload has no
    [code] field; the payload's [code], a string, otherwise). *)
Theorem consume_code_single_use (a : Adapter) (id : string) (db : Database) :
  adapterFor "Code" = OK a →
  let consumed := (consume a id db).2 in
  (consume a id db).1 = OK () ∧
  find a id consumed = (OK None, consumed) ∧
  consume a id consumed = (OK (), consumed) ∧
  ∀ calls : list (Adapter * Call),
    Forall (λ ac, (∃ m, adapterFor m = OK ac.1) ∧ storesNoCode id ac.1 ac.2) calls →
    find a id (afterEach consumed calls) = (OK None, afterEach consumed calls)
    ∧ consume a id (afterEach consumed calls) = (OK (), afterEach consumed calls).
Proof.
  rewrite adapterFor_Code. intros [= <-]. cbv zeta.
  pose proof (spent_consume id db) as Hspent.
  split_and!.
  - by rewrite consume_Code, (delete_known _ _ _ (code_column id)).
  - by apply spent_find.
  - rewrite consume_Code. apply delete_idemp, code_column.
  - intros calls Hcalls.
    pose proof (spent_afterEach id calls _ Hcalls Hspent) as Hlater. split.
    + by apply spent_find.
    + rewrite consume_Code. apply delete_absent; [apply code_column | exact Hlater].
Qed.

Lemma consume_code_single_use_witness :
  find (bound CodeSchema) "c1"
    (afterEach
       (consume (bound CodeSchema) "c1" (stored (bound CodeSchema) "c1" codePayload)).2
       [(bound CodeSchema, CallUpsert "c2" codePayload (Some 600%Z));
        (bound SessionSchema, CallUpsert "c1" sessionPayload None);
        (bound CodeSchema, CallFind "c1")])
  = (OK None,
     afterEach
       (consume (bound CodeSchema) "c1" (stored (bound CodeSchema) "c1" codePayload)).2
       [(bound CodeSchema, CallUpsert "c2" codePayload (Some 600%Z));
        (bound SessionSchema, CallUpsert "c1" sessionPayload None);
        (bound CodeSchema, CallFind "c1")])
  ∧ length (rows (repository (bound CodeSchema))
              (afterEach
                 (consume (bound CodeSchema) "c1"
                    (stored (bound CodeSchema) "c1" codePayload)).2
                 [(bound CodeSchema, CallUpsert "c2" codePayload (Some 600%Z));
                  (bound SessionSchema, CallUpsert "c1" sessionPayload None);
                  (bound CodeSchema, CallFind "c1")])) = 1.
Proof.
  destruct (consume_code_single_use (bound CodeSchema) "c1"
              (stored (bound CodeSchema) "c1" codePayload) eq_refl) as (_ & _ & _ & Hlater).
  split; [|by_vm]. apply Hlater.
  constructor; [split; [exists "Code"; by_vm | intros _; left; split; [by_vm | discriminate]]|].
  constructor; [split; [exists "Session"; by_vm | intros Hmodel; discriminate Hmodel]|].
  constructor; [split; [exists "Code"; by_vm | exact I]|].
  constructor.
Defined.

(** C2 as stated fails: a consumed code is retrievable again as soon as a
    record is stored under the same code value. *)
Lemma consumed_code_stored_again :
  ∃ a row, adapterFor "Code" = OK a
    ∧ let consumed := (consume a "c1" (stored a "c1" codePayload)).2 in
      find a "c1" consumed = (OK None, consumed)
      ∧ find a "c1" (upsert a "c1" codePayload None consumed).2
        = (OK (Some row), (upsert a "c1" codePayload None consumed).2)
      ∧ row !! "code" = Some (VStr "c1").
Proof.
  exists (bound CodeSchema).
  exists (toRow (repository (bound CodeSchema)) (<["code" := VStr "c1"]> codePayload)).
  split; [by_vm|]. cbv zeta. split_and!; by_vm.
Qed.

(** * upsert followed by find *)

(** In a consistent database, the record found under an id of a registered
    entity is a row of its schema. *)
Lemma found_rowOf (md : EntitySchema) (id : string) (old : Entity) (db : Database) :
  md ∈ registeredSchemas → consistent db →
  head (filter (satisfies [(primaryColumn md, id)]) (rows {| metadata := md |} db)) = Some old →
  rowOf md old.
Proof.
  intros Hmd Hdb Hold. destruct (Hdb md Hmd) as [_ Hrows].
  apply head_Some_elem_of, list_elem_of_filter in Hold as [_ Hin].
  by eapply Forall_forall in Hrows.
Qed.

(** The eight branches of [upsert] followed by [find], on the adapters the
    factory returns for the eight entity names. *)
Lemma upsert_find_registered (md : EntitySchema) (id : string)
    (payload : Entity) (expiresIn : option Z) (db : Database) :
  md ∈ registeredSchemas →
  payload !! primaryColumn md = None ∨ payload !! primaryColumn md = Some (VStr id) →
  match upsert (bound md) id payload expiresIn db with
  | (OK entity, db') =>
      ∃ row, find (bound md) id db' = (OK (Some row), db')
        ∧ row !! primaryColumn md = Some (VStr id)
        ∧ (∀ f v ty, columnType md f = Some ty → payload !! f = Some v →
             native ty v ∨ v = VNull → row !! f = Some v)
        ∧ (∀ f, hasColumn md f → is_Some (payload !! f) → is_Some (row !! f))
        ∧ (∀ f old, payload !! f = None ∨ ¬ hasColumn md f →
             find (bound md) id db = (OK (Some old), db) → row !! f = old !! f)
        ∧ (find (bound md) id db = (OK None, db) →
             row = toRow {| metadata := md |} entity
             ∧ ∀ f, hasColumn md f → payload !! f = None → f ≠ primaryColumn md →
                    row !! f = Some VNull)
  | (Throw e, db') =>
      db' = db ∧ ∃ c, e = NotNullConstraint c ∧ c ∈ requiredColumns md
  end.
Proof.
  intros Hmd Hkey.
  rewrite (upsert_known _ _ _ _ _ Hmd), !(find_known _ _ Hmd).
  apply (upsertBy_findOne {| metadata := md |} (primaryColumn md));
    [by apply known_key_column | done | by apply known_key_varchar | done].
Qed.

(** C6 (amended). For each of the eight kinds, in a consistent database,
    for every id and every payload that does not rebind the key field:
    [upsert(id, payload)] throws, storing nothing, exactly when the payload
    gives null to a column that is not nullable or, no record being stored
    under [id], leaves such a column (the key apart) without a value.
    When it returns, [find(id)] returns a row that has every payload field
    that is a column of the kind, with the payload's value when that value
    is of the column's type, that has no field outside the kind's columns,
    and that keeps, in every column the payload does not mention, the value
    of the record stored under [id] before (null when there was none). *)
Theorem upsert_then_find_merges_columns (m : string) (a : Adapter) (id : string)
    (payload : Entity) (expiresIn : option Z) (db : Database) :
  m ∈ knownModels →
  adapterFor m = OK a →
  payload !! keyField a = None ∨ payload !! keyField a = Some (VStr id) →
  consistent db →
  let md := metadata (repository a) in
  ((∃ e, (upsert a id payload expiresIn db).1 = Throw e)
   ↔ ∃ c, c ∈ requiredColumns md
       ∧ (payload !! c = Some VNull
          ∨ (payload !! c = None ∧ c ≠ keyField a ∧ find a id db = (OK None, db))))
  ∧ match upsert a id payload expiresIn db with
    | (OK entity, db') =>
        ∃ row, find a id db' = (OK (Some row), db')
          ∧ (∀ f, hasColumn md f → is_Some (payload !! f) → is_Some (row !! f))
          ∧ (∀ f v ty, columnType md f = Some ty → payload !! f = Some v →
               native ty v ∨ v = VNull → row !! f = Some v)
          ∧ (∀ f, ¬ hasColumn md f → row !! f = None)
          ∧ (∀ f old, hasColumn md f → payload !! f = None →
               find a id db = (OK (Some old), db) → row !! f = old !! f)
          ∧ (∀ f, hasColumn md f → payload !! f = None → f ≠ keyField a →
               find a id db = (OK None, db) → row !! f = Some VNull)
    | (Throw e, db') =>
        db' = db ∧ ∃ c, e = NotNullConstraint c ∧ c ∈ requiredColumns md
    end.
Proof.
  intros Hm Ha Hkey Hdb. destruct (adapterFor_bound _ _ Hm Ha) as [md [Hmd ->]].
  cbv zeta. unfold keyField in *. simpl in *.
  pose proof (known_key_column _ Hmd) as Hcol.
  pose proof (known_key_varchar _ Hmd) as Hvarchar.
  pose proof (key_known {| metadata := md |} _ Hcol id) as Hknown.
  split.
  - rewrite (upsert_known _ _ _ _ _ Hmd), (find_known _ _ Hmd).
    rewrite (upsertBy_throws {| metadata := md |} (primaryColumn md) Hcol eq_refl Hvarchar
               id payload db Hkey).
    + rewrite (findOne_known _ _ _ Hknown).
      split; intros (c & Hc & Hp); exists c; (split; [done|]);
        (destruct Hp as [Hp|(Hp & Hck & Hnone)]; [by left | right]);
        (split_and!; [done | done |]).
      * by rewrite Hnone.
      * by injection Hnone.
    + intros old c Hold Hc. destruct (found_rowOf md id old db Hmd Hdb Hold) as [_ Hreq].
      by apply Hreq.
  - pose proof (upsert_find_registered md id payload expiresIn db Hmd Hkey) as H.
    destruct (upsert (bound md) id payload expiresIn db) as [[entity|e] db']; [|done].
    destruct H as (row & Hfind & Hrowkey & Hnat & Hsome & Hkept & Hfresh).
    exists row. split_and!; [done | done | done | | |].
    + intros f Hf.
      destruct (head (filter (satisfies [(primaryColumn md, id)])
                        (rows {| metadata := md |} db))) as [old|] eqn:Hold.
      * rewrite (Hkept f old); [| by right |].
        -- destruct (found_rowOf md id old db Hmd Hdb Hold) as [Hdom _].
           destruct (old !! f) as [v|] eqn:E; [|done].
           exfalso. apply Hf, Hdom. by eexists.
        -- by rewrite (find_known _ _ Hmd), (findOne_known _ _ _ Hknown), Hold.
      * destruct Hfresh as [-> _].
        -- by rewrite (find_known _ _ Hmd), (findOne_known _ _ _ Hknown), Hold.
        -- by apply (toRow_lookup_None {| metadata := md |}).
    + intros f old Hf Hp Hold. apply Hkept; [by left | done].
    + intros f Hf Hp Hfk Hnone. by apply (proj2 (Hfresh Hnone)).
Qed.

Lemma upsert_then_find_merges_columns_witness :
  ∃ row, find (bound SessionSchema) "s1" (stored (bound SessionSchema) "s1" sessionPayload)
         = (OK (Some row), stored (bound SessionSchema) "s1" sessionPayload)
    ∧ row !! "jti" = Some (VStr "j1").
Proof.
  assert (Hm : "Session" ∈ knownModels) by in_list.
  assert (Ha : adapterFor "Session" = OK (bound SessionSchema)) by (by_vm).
  assert (Hk : sessionPayload !! keyField (bound SessionSchema) = None
               ∨ sessionPayload !! keyField (bound SessionSchema) = Some (VStr "s1"))
    by (left; by_vm).
  destruct (upsert_then_find_merges_columns "Session" (bound SessionSchema) "s1"
              sessionPayload None ∅ Hm Ha Hk consistent_empty) as [_ H].
  assert (Hup : upsert (bound SessionSchema) "s1" sessionPayload None ∅
                = (OK (merge (repository (bound SessionSchema))
                         (create (repository (bound SessionSchema)) {[ "uid" := VStr "s1" ]})
                         sessionPayload),
                   stored (bound SessionSchema) "s1" sessionPayload))
    by (by_vm).
  rewrite Hup in H. destruct H as (row & Hfind & _ & Hnative & _). exists row.
  split; [exact Hfind|]. apply (Hnative "jti" (VStr "j1") varchar); [by_vm | by_vm | by left].
Defined.

(** C6 as stated fails: a payload field that is not a column of the kind
    ([accountId] on a Session) is not in the entity [find] returns. *)
Lemma upsert_drops_field_outside_schema :
  ∃ a row, adapterFor "Session" = OK a
    ∧ find a "s1" (upsert a "s1" sessionPayload None ∅).2
      = (OK (Some row), (upsert a "s1" sessionPayload None ∅).2)
    ∧ sessionPayload !! "accountId" = Some (VStr "alice")
    ∧ row !! "accountId" = None.
Proof.
  exists (bound SessionSchema).
  exists (toRow (repository (bound SessionSchema))
            (<["uid" := VStr "s1"]> sessionPayload)).
  split_and!; by_vm.
Qed.

(** * Records do not expire *)

Lemma upsert_ignores_expiresIn (a : Adapter) (id : string) (payload : Entity)
    (expiresIn : option Z) :
  upsert a id payload expiresIn = upsert a id payload None.
Proof. reflexivity. Qed.

Lemma run_elapse {A} (m : M A) (seconds : Z) (w : World) :
  (run m (elapse seconds w)).1 = (run m w).1.
Proof. reflexivity. Qed.

(** Waiting and calls that are not removals leave every key in place. *)
Lemma kept_history (md : EntitySchema) (key : option value) (events : list Event)
    (w : World) :
  md ∈ registeredSchemas → Forall noRemoval events →
  key ∈ keysOf md (rows {| metadata := md |} (database w)) →
  key ∈ keysOf md (rows {| metadata := md |} (database (history w events))).
Proof.
  intros Hmd. unfold history. revert w.
  induction events as [|e events IH]; intros w Hevents Hin; [done|].
  inversion Hevents as [|? ? He Hrest]; subst. simpl. apply IH; [done|].
  destruct e as [a c | seconds]; simpl; [|done].
  destruct He as [Ha Hc]. by apply kept_after.
Qed.

(** C3 (amended). For each of the eight kinds, every id, every payload that
    does not rebind the key field and every TTL: [expiresIn] has no effect
    on what [upsert] does, and once [upsert] has returned, [find(id)]
    returns the stored row after any amount of time, exactly as it does
    immediately.  The record stays retrievable through every later
    sequence of waiting and of calls through adapters of the factory, as
    long as none of the calls is a removal ([destroy], [consume],
    [destroyByGrantId], [revokeByGrantId]). *)
Theorem find_after_ttl_still_returns_record (m : string) (a : Adapter) (id : string)
    (payload entity : Entity) (expiresIn : option Z) (w : World) :
  m ∈ knownModels →
  adapterFor m = OK a →
  payload !! keyField a = None ∨ payload !! keyField a = Some (VStr id) →
  (run (upsert a id payload expiresIn) w).1 = OK entity →
  let w' := (run (upsert a id payload expiresIn) w).2 in
  run (upsert a id payload expiresIn) w = run (upsert a id payload None) w
  ∧ (∃ row, (run (find a id) w').1 = OK (Some row)
       ∧ row !! keyField a = Some (VStr id)
       ∧ ∀ seconds, (run (find a id) (elapse seconds w')).1 = OK (Some row))
  ∧ (∀ events, Forall noRemoval events →
       ∃ row, (run (find a id) (history w' events)).1 = OK (Some row)).
Proof.
  intros Hm Ha Hkey Hok. cbv zeta. split; [done|].
  destruct (adapterFor_bound _ _ Hm Ha) as [md [Hmd ->]].
  pose proof (upsert_find_registered md id payload expiresIn (database w) Hmd Hkey) as H.
  unfold run in *. simpl in *.
  destruct (upsert (bound md) id payload expiresIn (database w)) as [[stored_entity|e] db'];
    [|done].
  destruct H as (row & Hfind & Hrowkey & _). simpl. split.
  - exists row. rewrite Hfind. done.
  - intros events Hevents.
    assert (Some (VStr id) ∈ keysOf md (rows {| metadata := md |} db')) as Hin
      by (apply found_iff_key; [done | by exists row]).
    pose proof (kept_history md _ events {| database := db'; clock := clock w |}
                  Hmd Hevents Hin) as Hlater.
    apply found_iff_key in Hlater as [row' Hrow']; [|done].
    exists row'. by rewrite Hrow'.
Qed.

Lemma find_after_ttl_still_returns_record_witness :
  ∃ row,
    (run (find (bound AccessTokenSchema) "t1")
       (history
          (run (upsert (bound AccessTokenSchema) "t1" accessTokenPayload (Some 3600%Z))
               {| database := ∅; clock := 0 |}).2
          [waited 3601;
           called (bound AccessTokenSchema) (CallUpsert "t2" accessTokenPayload (Some 60%Z));
           waited 86400])).1
    = OK (Some row).
Proof.
  assert ("AccessToken" ∈ knownModels) as Hm by in_list.
  assert (adapterFor "AccessToken" = OK (bound AccessTokenSchema)) as Ha
    by (by_vm).
  assert (accessTokenPayload !! keyField (bound AccessTokenSchema) = None
          ∨ accessTokenPayload !! keyField (bound AccessTokenSchema) = Some (VStr "t1"))
    as Hkey by (left; by_vm).
  assert ((run (upsert (bound AccessTokenSchema) "t1" accessTokenPayload (Some 3600%Z))
               {| database := ∅; clock := 0 |}).1
          = OK (merge (repository (bound AccessTokenSchema))
                  (create (repository (bound AccessTokenSchema))
                     {[ "access_token" := VStr "t1" ]})
                  accessTokenPayload)) as Hok
    by (by_vm).
  destruct (find_after_ttl_still_returns_record "AccessToken" (bound AccessTokenSchema) "t1"
              accessTokenPayload _ (Some 3600%Z) {| database := ∅; clock := 0 |}
              Hm Ha Hkey Hok) as (_ & _ & Hlater).
  apply Hlater.
  constructor; [exact I|].
  constructor; [split; [exists "AccessToken"; exact Ha | by intros []]|].
  constructor; [exact I|]. constructor.
Defined.

(** C3 as stated fails: an access token stored with a TTL of 3600 seconds is
    still returned by [find] 3601 seconds later. *)
Lemma find_after_ttl_not_absent :
  ∃ a row, adapterFor "AccessToken" = OK a
    ∧ (run (find a "t1")
         (elapse 3601
            (run (upsert a "t1" accessTokenPayload (Some 3600%Z))
                 {| database := ∅; clock := 0 |}).2)).1
      = OK (Some row).
Proof.
  exists (bound AccessTokenSchema).
  exists (toRow (repository (bound AccessTokenSchema))
            (<["access_token" := VStr "t1"]> accessTokenPayload)).
  split; by_vm.
Qed.

(** * Device codes *)

Lemma head_filter_first {A} (P : A → Prop) `{!∀ x, Decision (P x)} (l : list A) (x : A) :
  x ∈ l → P x → ∃ y, head (filter P l) = Some y ∧ y ∈ l ∧ P y.
Proof.
  intros Hx HP.
  destruct (head (filter P l)) as [y|] eqn:E.
  - exists y. apply head_Some_elem_of, list_elem_of_filter in E as [? ?]. done.
  - apply head_None in E. exfalso. by eapply (filter_nil_not_elem_of P l x).
Qed.

Lemma head_filter_unique {A} (P : A → Prop) `{!∀ x, Decision (P x)} (l : list A) (x : A) :
  x ∈ l → P x → (∀ y, y ∈ l → P y → y = x) → head (filter P l) = Some x.
Proof.
  intros Hx HP Huniq. destruct (head_filter_first P l x Hx HP) as [y [-> [Hy HPy]]].
  f_equal. by apply Huniq.
Qed.

Lemma adapterFor_DeviceCode : adapterFor "DeviceCode" = OK (bound DeviceCodeSchema).
Proof. by vm_compute. Qed.

Section DeviceCode.

Local Abbreviation a := (bound DeviceCodeSchema).
Local Abbreviation r := (repository (bound DeviceCodeSchema)).

Lemma find_DeviceCode (id : string) (db : Database) :
  find a id db = (OK (head (filter (satisfies [("device_code", id)]) (rows r db))), db).
Proof. reflexivity. Qed.

Lemma findByUserCode_DeviceCode (userCode : string) (db : Database) :
  findByUserCode a userCode db
  = (OK (head (filter (satisfies [("user_code", userCode)]) (rows r db))), db).
Proof. reflexivity. Qed.

Lemma findByUidAndUserCode_DeviceCode (uid userCode : string) (db : Database) :
  findByUidAndUserCode a uid userCode db
  = (OK (head (filter (satisfies [("device_code", uid); ("user_code", userCode)])
                 (rows r db))), db).
Proof. reflexivity. Qed.

(** [destroy] does not list the DeviceCode kind. *)
Lemma destroy_DeviceCode (id : string) (db : Database) : destroy a id db = (OK (), db).
Proof. reflexivity. Qed.

End DeviceCode.

(** C5 (amended). For the DeviceCode adapter and a stored row with
    device_code D and user_code U, D being the key of no other row:
    [find(D)] and [findByUidAndUserCode(D, U)] return the row,
    [findByUserCode(U)] returns a stored row with user code U, which is this
    row when no other row has user code U; and [destroy(D)] succeeds
    without removing anything, so that all three lookups return the same
    after it. *)
Theorem device_code_lookups (a : Adapter) (D U : string) (row : Entity) (db : Database) :
  adapterFor "DeviceCode" = OK a →
  row ∈ rows (repository a) db →
  row !! "device_code" = Some (VStr D) →
  row !! "user_code" = Some (VStr U) →
  (∀ other, other ∈ rows (repository a) db →
     other !! "device_code" = Some (VStr D) → other = row) →
  find a D db = (OK (Some row), db)
  ∧ findByUidAndUserCode a D U db = (OK (Some row), db)
  ∧ (∃ found, findByUserCode a U db = (OK (Some found), db)
       ∧ found ∈ rows (repository a) db ∧ found !! "user_code" = Some (VStr U))
  ∧ ((∀ other, other ∈ rows (repository a) db →
        other !! "user_code" = Some (VStr U) → other = row) →
     findByUserCode a U db = (OK (Some row), db))
  ∧ destroy a D db = (OK (), db).
Proof.
  rewrite adapterFor_DeviceCode. intros [= <-] Hrow HD HU Hkey. split_and!.
  - rewrite find_DeviceCode. f_equal. f_equal. apply head_filter_unique; [done| |].
    + by repeat constructor.
    + intros other Hother Hsat. inversion Hsat; subst. by apply Hkey.
  - rewrite findByUidAndUserCode_DeviceCode. f_equal. f_equal.
    apply head_filter_unique; [done| |].
    + by repeat constructor.
    + intros other Hother Hsat. inversion Hsat; subst. by apply Hkey.
  - rewrite findByUserCode_DeviceCode.
    destruct (head_filter_first (satisfies [("user_code", U)]) _ row Hrow)
      as [found [Hfound [Hin Hsat]]]; [by repeat constructor|].
    exists found. rewrite Hfound. split_and!; [done..|]. by inversion Hsat.
  - intros Huser. rewrite findByUserCode_DeviceCode. f_equal. f_equal.
    apply head_filter_unique; [done| |].
    + by repeat constructor.
    + intros other Hother Hsat. inversion Hsat; subst. by apply Huser.
  - apply destroy_DeviceCode.
Qed.

Lemma device_code_lookups_witness :
  ∃ row,
    row !! "user_code" = Some (VStr "U1")
    ∧ find (bound DeviceCodeSchema) "D1"
        (destroy (bound DeviceCodeSchema) "D1"
           (stored (bound DeviceCodeSchema) "D1" deviceCodePayload)).2
      = (OK (Some row), stored (bound DeviceCodeSchema) "D1" deviceCodePayload).
Proof.
  exists (toRow (repository (bound DeviceCodeSchema))
            (<["device_code" := VStr "D1"]> deviceCodePayload)).
  assert (Hrows : rows (repository (bound DeviceCodeSchema))
                    (stored (bound DeviceCodeSchema) "D1" deviceCodePayload)
                  = [toRow (repository (bound DeviceCodeSchema))
                       (<["device_code" := VStr "D1"]> deviceCodePayload)])
    by (by_vm).
  destruct (device_code_lookups (bound DeviceCodeSchema) "D1" "U1"
              (toRow (repository (bound DeviceCodeSchema))
                 (<["device_code" := VStr "D1"]> deviceCodePayload))
              (stored (bound DeviceCodeSchema) "D1" deviceCodePayload))
    as [Hfind [_ [_ [_ Hdestroy]]]].
  - by_vm.
  - rewrite Hrows. constructor.
  - by_vm.
  - by_vm.
  - intros other Hother _. rewrite Hrows in Hother.
    apply elem_of_cons in Hother as [Hother|Hother].
    + exact Hother.
    + exfalso. exact (proj1 (elem_of_nil _) Hother).
  - split; [by_vm|]. rewrite Hdestroy. exact Hfind.
Defined.

(** C5 as stated fails: after [destroy(D)] the device code is still
    returned by all three lookups. *)
Lemma destroy_keeps_device_code :
  ∃ a row, adapterFor "DeviceCode" = OK a
    ∧ let db := (destroy a "D1" (stored a "D1" deviceCodePayload)).2 in
      row !! "device_code" = Some (VStr "D1")
      ∧ row !! "user_code" = Some (VStr "U1")
      ∧ find a "D1" db = (OK (Some row), db)
      ∧ findByUserCode a "U1" db = (OK (Some row), db)
      ∧ findByUidAndUserCode a "D1" "U1" db = (OK (Some row), db).
Proof.
  exists (bound DeviceCodeSchema).
  exists (toRow (repository (bound DeviceCodeSchema))
            (<["device_code" := VStr "D1"]> deviceCodePayload)).
  split; [by_vm|]. cbv zeta. split_and!; by_vm.
Qed.

(** * findByUid *)

(** C8. For every adapter whose kind is neither Session nor Interaction
    (recognised or not) and every uid, [findByUid(uid)] returns not-found
    without throwing and without touching the database; for the Session and
    Interaction adapters it is the lookup by the key field [uid]: it returns
    the first stored row whose uid is the one asked for, and not-found
    exactly when no row has it. *)
Theorem findByUid_by_kind (a : Adapter) (uid : string) (db : Database) :
  (model a ≠ "Session" → model a ≠ "Interaction" → findByUid a uid db = (OK None, db))
  ∧ (adapterFor "Session" = OK a ∨ adapterFor "Interaction" = OK a →
     findByUid a uid db = find a uid db
     ∧ ∃ found, findByUid a uid db = (OK found, db)
         ∧ match found with
           | Some row => row ∈ rows (repository a) db ∧ row !! "uid" = Some (VStr uid)
           | None => ∀ row, row ∈ rows (repository a) db → row !! "uid" ≠ Some (VStr uid)
           end).
Proof.
  split.
  - intros HS HI. unfold findByUid. rewrite decide_False; [done|]. by intros [?|?].
  - intros Ha.
    assert (findByUid a uid db = find a uid db
            ∧ findByUid a uid db
              = (OK (head (filter (satisfies [("uid", uid)]) (rows (repository a) db))), db))
      as [Hfind Heq] by (destruct Ha as [[= <-]|[= <-]]; split; reflexivity).
    split; [done|]. rewrite Heq. eexists; split; [done|].
    destruct (head (filter (satisfies [("uid", uid)]) (rows (repository a) db)))
      as [row|] eqn:E.
    + apply head_Some_elem_of, list_elem_of_filter in E as [Hsat Hin].
      split; [done|]. by inversion Hsat.
    + apply head_None in E. intros row Hin Huid.
      eapply (filter_nil_not_elem_of _ _ row); [exact E | | done].
      by repeat constructor.
Qed.

Lemma findByUid_by_kind_witness :
  findByUid (bound CodeSchema) "s1" (stored (bound SessionSchema) "s1" sessionPayload)
  = (OK None, stored (bound SessionSchema) "s1" sessionPayload)
  ∧ findByUid (bound SessionSchema) "s1" (stored (bound SessionSchema) "s1" sessionPayload)
    = find (bound SessionSchema) "s1" (stored (bound SessionSchema) "s1" sessionPayload).
Proof.
  destruct (findByUid_by_kind (bound CodeSchema) "s1"
              (stored (bound SessionSchema) "s1" sessionPayload)) as [Hother _].
  destruct (findByUid_by_kind (bound SessionSchema) "s1"
              (stored (bound SessionSchema) "s1" sessionPayload)) as [_ Hsession].
  split.
  - apply Hother; discriminate.
  - apply Hsession. left. by_vm.
Defined.

(** * Unrecognised kinds *)


(** C7 (amended). On an adapter bound to a kind outside the eight known
    ones, [upsert] and [find] throw "Unknown model"; [findByUid],
    [findByUserCode] and [findByUidAndUserCode] return not-found, and
    [destroy], [consume], [destroyByGrantId] and [revokeByGrantId] return
    without doing anything; none of the nine touches the database. *)
Theorem unrecognized_kind_operations (a : Adapter) (db : Database) :
  model a ∉ knownModels →
  (∀ id payload expiresIn,
     upsert a id payload expiresIn db = (Throw (UnknownModel (model a)), db))
  ∧ (∀ id, find a id db = (Throw (UnknownModel (model a)), db))
  ∧ (∀ uid, findByUid a uid db = (OK None, db))
  ∧ (∀ userCode, findByUserCode a userCode db = (OK None, db))
  ∧ (∀ uid userCode, findByUidAndUserCode a uid userCode db = (OK None, db))
  ∧ (∀ id, destroy a id db = (OK (), db))
  ∧ (∀ id, consume a id db = (OK (), db))
  ∧ (∀ grantId, destroyByGrantId a grantId db = (OK (), db))
  ∧ (∀ grantId, revokeByGrantId a grantId db = (OK (), db)).
Proof.
  intros (HCl & HS & HG & HCo & HA & HR & HD & HI)%not_known.
  split_and!; intros.
  - unfold upsert. by rewrite !decide_False.
  - unfold find. by rewrite !decide_False.
  - unfold findByUid. rewrite decide_False; [done | tauto].
  - unfold findByUserCode. by rewrite decide_False.
  - unfold findByUidAndUserCode. by rewrite decide_False.
  - unfold destroy. rewrite decide_False; [done | tauto].
  - unfold consume. by rewrite decide_False.
  - unfold destroyByGrantId. by rewrite decide_False.
  - unfold revokeByGrantId. rewrite decide_False; [done | tauto].
Qed.

Lemma adapterFor_table_name :
  adapterFor "sessions" = OK {| model := "sessions"; repository := repository (bound SessionSchema) |}.
Proof. reflexivity. Qed.

Lemma unrecognized_kind_operations_witness :
  ∃ a, adapterFor "sessions" = OK a
    ∧ find a "s1" ∅ = (Throw (UnknownModel "sessions"), ∅)
    ∧ destroy a "s1" ∅ = (OK (), ∅).
Proof.
  eexists. split; [apply adapterFor_table_name|].
  assert ("sessions" ∉ knownModels) as Hm by (intros Hin; unfold knownModels in Hin; not_in_list Hin).
  pose proof (unrecognized_kind_operations
                {| model := "sessions"; repository := repository (bound SessionSchema) |}
                ∅ Hm) as (_ & Hfind & _ & _ & _ & Hdestroy & _).
  split; [apply Hfind | apply Hdestroy].
Defined.

(** C7 as stated fails: on an adapter of an unrecognised kind, [findByUid]
    returns not-found instead of throwing. *)
Lemma unrecognized_kind_findByUid_returns :
  ¬ (∀ (a : Adapter) (uid : string) (db : Database),
       model a ∉ knownModels → threw (findByUid a uid db).1).
Proof.
  intros H.
  destruct (H {| model := "sessions"; repository := repository (bound SessionSchema) |}
              "s1" ∅) as [e He].
  - simpl. intros Hin. unfold knownModels in Hin. not_in_list Hin.
  - discriminate He.
Qed.

(** * The factory *)

Lemma findMetadata_None (c : Connection) (target : string) :
  (∀ md, md ∈ entityMetadatas c → name md ≠ target ∧ tableName md ≠ target) →
  findMetadata c target = None.
Proof.
  intros H. unfold findMetadata. apply head_None.
  induction (entityMetadatas c) as [|md mds IH]; [done|].
  rewrite filter_cons_False.
  - apply IH. intros md' Hmd'. apply H. by right.
  - destruct (H md) as [? ?]; [by left | tauto].
Qed.

Lemma not_registered (target : string) :
  ¬ registered target →
  ∀ md, md ∈ registeredSchemas → name md ≠ target ∧ tableName md ≠ target.
Proof.
  intros Hreg md Hmd. split; intros <-; apply Hreg.
  - left. apply list_elem_of_fmap. eauto.
  - right. apply list_elem_of_fmap. eauto.
Qed.

(** C10 (amended). While the module-level connection is unset, the factory
    throws for every model.  Once it is set, the factory makes no check of
    its own on the kind: it asks the connection for the repository of
    [model] and binds the adapter to whatever it gets.  With the eight
    schemas registered, that is an adapter bound to [model] for every entity
    name and every table name, and the connection's error for any other
    argument. *)
Theorem typeormAdapter_requires_connection (model_ : string) :
  typeormAdapter None model_ = Throw ConnectionNotEstablished
  ∧ (∀ c, typeormAdapter (Some c) model_
          = match getRepository c model_ with
            | OK repository_ => OK {| model := model_; repository := repository_ |}
            | Throw e => Throw e
            end)
  ∧ (registered model_ → ∃ a, adapterFor model_ = OK a ∧ model a = model_)
  ∧ (¬ registered model_ → adapterFor model_ = Throw (RepositoryNotFound model_)).
Proof.
  split_and!; [done | done | |].
  - intros [H|H]; vm_compute in H;
      repeat (apply elem_of_cons in H as [->|H]); try (by apply elem_of_nil in H);
      eexists; (split; [reflexivity | reflexivity]).
  - intros H. unfold adapterFor, initializeAdapter, typeormAdapter, getRepository.
    rewrite findMetadata_None; [done|]. intros md Hmd. by apply not_registered.
Qed.

Lemma typeormAdapter_requires_connection_witness :
  (∃ a, adapterFor "Grant" = OK a ∧ model a = "Grant")
  ∧ adapterFor "AuthorizationCode" = Throw (RepositoryNotFound "AuthorizationCode").
Proof.
  split.
  - apply (typeormAdapter_requires_connection "Grant"). left. in_list.
  - apply (typeormAdapter_requires_connection "AuthorizationCode").
    intros [H|H]; unfold registeredSchemas in H; simpl in H; not_in_list H.
Defined.

(** C10 as stated fails: after initialization the factory does not return
    an adapter for every model argument. *)
Lemma typeormAdapter_rejects_unregistered :
  ¬ (∀ model_ : string, ∃ a, typeormAdapter initializeAdapter model_ = OK a).
Proof. intros H. destruct (H "AuthorizationCode") as [a Ha]. discriminate Ha. Qed.

(** * destroy *)

(** X9. On the Session and Interaction adapters, the two kinds keyed by
    [uid], [destroy(id)] returns, [find(id)] after it is not-found, and
    [destroy] changes nothing when no record has that uid. *)
Lemma destroy_by_uid (md : EntitySchema) (id : string) (db : Database) :
  md = SessionSchema ∨ md = InteractionSchema →
  (destroy (bound md) id db).1 = OK ()
  ∧ find (bound md) id (destroy (bound md) id db).2
    = (OK None, (destroy (bound md) id db).2)
  ∧ (find (bound md) id db = (OK None, db) → destroy (bound md) id db = (OK (), db)).
Proof.
  intros Hmd.
  assert (destroy (bound md) id = delete {| metadata := md |} [("uid", id)]
          ∧ find (bound md) id = findOne {| metadata := md |} [("uid", id)]
          ∧ unknownColumn {| metadata := md |} [("uid", id)] = None) as (Hd & Hf & Hu)
    by (destruct Hmd as [->| ->]; split_and!; reflexivity).
  rewrite Hd, Hf. split_and!.
  - by rewrite (delete_known _ _ _ Hu).
  - by apply delete_findOne.
  - rewrite (findOne_known _ _ _ Hu). intros [= Hnone%head_None].
    by apply delete_absent.
Qed.

(** C4. On the Code, Grant, AccessToken and RefreshToken adapters,
    [destroy(id)] deletes by a [uid] column these entities do not have: for
    every id it throws and removes nothing, so that a stored authorization
    code is still returned by [find] after [destroy], and [destroy] of an
    absent id throws as well. *)
Theorem destroy_misses_key_field (id : string) (db : Database) :
  Forall (λ md, destroy (bound md) id db = (Throw (EntityColumnNotFound "uid"), db))
    [CodeSchema; GrantSchema; AccessTokenSchema; RefreshTokenSchema]
  ∧ ∃ row,
      row !! "code" = Some (VStr "c1")
      ∧ find (bound CodeSchema) "c1"
          (destroy (bound CodeSchema) "c1" (stored (bound CodeSchema) "c1" codePayload)).2
        = (OK (Some row), stored (bound CodeSchema) "c1" codePayload)
      ∧ destroy (bound CodeSchema) "absent" (stored (bound CodeSchema) "c1" codePayload)
        = (Throw (EntityColumnNotFound "uid"), stored (bound CodeSchema) "c1" codePayload).
Proof.
  split.
  - repeat constructor.
  - exists (toRow (repository (bound CodeSchema)) (<["code" := VStr "c1"]> codePayload)).
    split_and!; by_vm.
Qed.

(** * revokeByGrantId *)

(** C1. On the AccessToken and RefreshToken adapters, [revokeByGrantId(g)]
    deletes by a [grantId] column these entities do not have: for every g it
    throws and removes nothing.  In the scenario of the specification, the
    access token t1 and the refresh token r1 issued under grant g1 are both
    still returned by [find] after [revokeByGrantId("g1")]. *)
Theorem revokeByGrantId_misses_column (grantId : string) (db : Database) :
  revokeByGrantId (bound AccessTokenSchema) grantId db
    = (Throw (EntityColumnNotFound "grantId"), db)
  ∧ revokeByGrantId (bound RefreshTokenSchema) grantId db
    = (Throw (EntityColumnNotFound "grantId"), db)
  ∧ ∃ token refresh,
      let db1 := (upsert (bound AccessTokenSchema) "t1" accessTokenPayload (Some 3600%Z) ∅).2 in
      let db2 := (upsert (bound RefreshTokenSchema) "r1" refreshTokenPayload None db1).2 in
      let db3 := (revokeByGrantId (bound AccessTokenSchema) "g1" db2).2 in
      let db4 := (revokeByGrantId (bound RefreshTokenSchema) "g1" db3).2 in
      find (bound AccessTokenSchema) "t1" db4 = (OK (Some token), db4)
      ∧ find (bound RefreshTokenSchema) "r1" db4 = (OK (Some refresh), db4)
      ∧ token !! "access_token" = Some (VStr "t1")
      ∧ refresh !! "refresh_token" = Some (VStr "r1").
Proof.
  split_and!; [reflexivity | reflexivity |].
  exists (toRow (repository (bound AccessTokenSchema))
            (<["access_token" := VStr "t1"]> accessTokenPayload)).
  exists (toRow (repository (bound RefreshTokenSchema))
            (<["refresh_token" := VStr "r1"]> refreshTokenPayload)).
  cbv zeta. split_and!; by_vm.
Qed.

(** * The relying-party callback *)

Lemma grant_sends_at_most_once (endpoint : TokenEndpoint) (url : SearchParams) (checks : Checks) :
  (length (authorizationCodeGrant endpoint url checks).2 ≤ 1)%nat.
Proof.
  unfold authorizationCodeGrant. repeat case_decide; simpl; try lia.
  destruct (param_code url); simpl; [|lia].
  destruct (endpoint _); simpl; lia.
Qed.

Lemma grant_state_mismatch (endpoint : TokenEndpoint) (url : SearchParams) (s : Session) :
  param_state url ≠ state s →
  authorizationCodeGrant endpoint url (checksOf s) = (Throw AuthorizationResponseError, []).
Proof. intros H. unfold authorizationCodeGrant. by rewrite decide_True. Qed.

Lemma grant_refused (endpoint : TokenEndpoint) (url : SearchParams) (s : Session)
    (code : string) :
  param_state url = state s → param_error url = None → param_code url = Some code →
  endpoint {| grant_code := code; grant_code_verifier := code_verifier s |} = None →
  authorizationCodeGrant endpoint url (checksOf s)
  = (Throw (TokenEndpointError code),
     [{| grant_code := code; grant_code_verifier := code_verifier s |}]).
Proof.
  intros Hstate Herr Hcode Hend. unfold authorizationCodeGrant.
  rewrite decide_False by (intros ?; done).
  rewrite Herr, decide_False by (by intros [? ?]).
  rewrite Hcode. simpl. by rewrite Hend.
Qed.

(** On a client authentication that cannot be called the grant always
    throws, and nothing is sent. *)
Lemma uncallable_throws (url : SearchParams) (checks : Checks) :
  ∃ e, authorizationCodeGrantUncallable url checks = (Throw e, []).
Proof.
  unfold authorizationCodeGrantUncallable. repeat case_decide; try (by eexists).
  destruct (param_code url); by eexists.
Qed.

(** The earlier revision of the route, once its client is set, answers
    every callback with the error page. *)
Lemma callback_earlier_fails (endpoint : TokenEndpoint) (s : Session) (url : SearchParams) :
  callback_earlier endpoint true s url
  = {| session := s; response := send 200 "Callback error"; requests := [] |}.
Proof.
  unfold callback_earlier. simpl.
  by destruct (uncallable_throws url (checksOf s)) as [e ->].
Qed.

(** C9. In the callback route, with the client configured: when the state
    in the callback query differs from the state kept in the session, the
    route (in both revisions) answers "Callback error", leaves the session
    as it was (no token set is stored) and sends nothing to the token
    endpoint; when the token endpoint refuses the exchange, the route of
    [rp-demo/app.js] answers "Callback error", leaves the session as it
    was, and the refused request is the only one it sent.  The earlier
    revision, whose client authentication cannot be called, fails before
    any exchange on every callback: it answers "Callback error", leaves the
    session as it was and sends nothing.  No request to either route sends
    more than one token request. *)
Theorem callback_fails_without_exchange_or_retry (endpoint : TokenEndpoint)
    (s : Session) (url : SearchParams) :
  (param_state url ≠ state s →
     ∀ h, h = callback endpoint true s url ∨ h = callback_earlier endpoint true s url →
       failed h ∧ ¬ authenticated h ∧ session h = s ∧ requests h = [])
  ∧ (∀ code,
       param_state url = state s → param_error url = None → param_code url = Some code →
       endpoint {| grant_code := code; grant_code_verifier := code_verifier s |} = None →
       failed (callback endpoint true s url)
       ∧ ¬ authenticated (callback endpoint true s url)
       ∧ session (callback endpoint true s url) = s
       ∧ requests (callback endpoint true s url)
         = [{| grant_code := code; grant_code_verifier := code_verifier s |}])
  ∧ (failed (callback_earlier endpoint true s url)
     ∧ ¬ authenticated (callback_earlier endpoint true s url)
     ∧ session (callback_earlier endpoint true s url) = s
     ∧ requests (callback_earlier endpoint true s url) = [])
  ∧ (∀ config h,
       h = callback endpoint config s url ∨ h = callback_earlier endpoint config s url →
       (length (requests h) ≤ 1)%nat).
Proof.
  split; [|split; [|split]].
  - intros Hstate h Hh.
    assert (failed h ∧ response h ≠ redirect "/" ∧ session h = s ∧ requests h = [])
      as (? & ? & ? & ?).
    { destruct Hh as [-> | ->].
      - unfold callback. simpl. rewrite (grant_state_mismatch _ _ _ Hstate). simpl.
        split_and!; [by eexists | done | done | done].
      - rewrite callback_earlier_fails. simpl.
        split_and!; [by eexists | done | done | done]. }
    split_and!; try done. by intros [? _].
  - intros code Hstate Herr Hcode Hend.
    unfold callback. simpl. rewrite (grant_refused _ _ _ _ Hstate Herr Hcode Hend). simpl.
    split_and!; [by eexists | by intros [? _] | done | done].
  - rewrite callback_earlier_fails. simpl.
    split_and!; [by eexists | by intros [? _] | done | done].
  - intros config h Hh.
    pose proof (grant_sends_at_most_once endpoint url (checksOf s)) as Hlen.
    destruct Hh as [-> | ->].
    + unfold callback. destruct config; simpl; [|lia].
      destruct (authorizationCodeGrant endpoint url (checksOf s)) as [[tokens|e] sent];
        simpl in *; [|done].
      by destruct (claims tokens).
    + destruct config; [rewrite callback_earlier_fails | unfold callback_earlier]; simpl; lia.
Qed.

Lemma callback_fails_without_exchange_or_retry_witness :
  failed (callback sampleEndpoint true sampleSession (sampleUrl "good" "S2"))
  ∧ requests (callback sampleEndpoint true sampleSession (sampleUrl "good" "S2")) = []
  ∧ failed (callback sampleEndpoint true sampleSession (sampleUrl "replayed" "S1"))
  ∧ length (requests (callback sampleEndpoint true sampleSession (sampleUrl "replayed" "S1")))
    = 1
  ∧ requests (callback_earlier sampleEndpoint true sampleSession (sampleUrl "good" "S2")) = [].
Proof.
  destruct (callback_fails_without_exchange_or_retry sampleEndpoint sampleSession
              (sampleUrl "good" "S2")) as [Hmismatch _].
  destruct (callback_fails_without_exchange_or_retry sampleEndpoint sampleSession
              (sampleUrl "replayed" "S1")) as [_ [Hrefused _]].
  destruct (Hmismatch ltac:(discriminate) _ (or_introl eq_refl)) as (H1 & _ & _ & H2).
  destruct (Hmismatch ltac:(discriminate) _ (or_intror eq_refl)) as (_ & _ & _ & H5).
  destruct (Hrefused "replayed" eq_refl eq_refl eq_refl eq_refl) as (H3 & _ & _ & H4).
  split_and!; [done | done | done | | done]. by rewrite H4.
Defined.

(** With matching state and a code the endpoint honours, the route of
    [rp-demo/app.js] ends in the authenticated state. *)
Lemma callback_authenticates :
  authenticated (callback sampleEndpoint true sampleSession (sampleUrl "good" "S1")).
Proof. split; [reflexivity | by eexists]. Qed.

(** * Further properties of the adapter *)

(** X1. Whatever kind an adapter is bound to: a call that only looks
    records up ([find], [findByUid], [findByUserCode],
    [findByUidAndUserCode]), and any call that throws, leaves the database
    exactly as it was. *)
Theorem lookup_or_failure_leaves_database (a : Adapter) (db : Database) (c : Call) :
  isLookup c ∨ is_Some (thrown a db c) → after a db c = db.
Proof.
  intros [Hc | [e He]].
  - destruct c; try done; unfold after.
    + apply find_unchanged.
    + apply findByUid_unchanged.
    + apply findByUserCode_unchanged.
    + apply findByUidAndUserCode_unchanged.
  - destruct (after_effect a db c) as [_ Hthrown]. by apply (Hthrown e).
Qed.

Lemma lookup_or_failure_leaves_database_witness :
  after (bound CodeSchema) (stored (bound CodeSchema) "c1" codePayload) (CallDestroy "c1")
  = stored (bound CodeSchema) "c1" codePayload
  ∧ after (bound CodeSchema) (stored (bound CodeSchema) "c1" codePayload) (CallFind "c1")
    = stored (bound CodeSchema) "c1" codePayload.
Proof.
  split.
  - apply lookup_or_failure_leaves_database. right.
    exists (EntityColumnNotFound "uid"). by_vm.
  - apply lookup_or_failure_leaves_database. left. exact I.
Defined.

(** X2. A call through an adapter changes no table other than the one of
    the adapter's own entity. *)
Theorem call_leaves_other_tables (a : Adapter) (db : Database) (c : Call) (table : string) :
  table ≠ tableName (metadata (repository a)) →
  after a db c !! table = db !! table.
Proof.
  intros Hne. destruct (after_effect a db c) as [Heff _].
  by apply (effect_other_table _ _ _ table Heff).
Qed.

Lemma call_leaves_other_tables_witness :
  after (bound GrantSchema) (stored (bound AccessTokenSchema) "t1" accessTokenPayload)
    (CallDestroyByGrantId "g1") !! "access_tokens"
  = stored (bound AccessTokenSchema) "t1" accessTokenPayload !! "access_tokens".
Proof. apply call_leaves_other_tables. discriminate. Defined.



(** X3. The tables stay tables: starting from a database in which every
    table of the eight entities has pairwise different keys and rows that
    hold exactly the columns of the schema with no NULL in a NOT NULL
    column (the empty database is one), every sequence of calls through
    adapters obtained from the factory ends in such a database. *)
Theorem calls_keep_tables_consistent (calls : list (Adapter * Call)) :
  Forall (λ ac, ∃ m, adapterFor m = OK ac.1) calls →
  consistent (afterEach ∅ calls)
  ∧ ∀ db, consistent db → consistent (afterEach db calls).
Proof.
  intros Hcalls. split.
  - apply consistent_afterEach; [done | apply consistent_empty].
  - intros db. by apply consistent_afterEach.
Qed.

Lemma calls_keep_tables_consistent_witness :
  consistent
    (afterEach ∅
       [(bound SessionSchema, CallUpsert "s1" sessionPayload None);
        (bound SessionSchema, CallUpsert "s1" sessionPayload None);
        (bound CodeSchema, CallUpsert "c1" codePayload (Some 600%Z));
        (bound CodeSchema, CallConsume "c1")]).
Proof.
  apply (proj1 (calls_keep_tables_consistent
           [(bound SessionSchema, CallUpsert "s1" sessionPayload None);
            (bound SessionSchema, CallUpsert "s1" sessionPayload None);
            (bound CodeSchema, CallUpsert "c1" codePayload (Some 600%Z));
            (bound CodeSchema, CallConsume "c1")]
           ltac:(repeat constructor; simpl;
                 [exists "Session" | exists "Session" | exists "Code" | exists "Code"];
                 by_vm))).
Defined.

(** * More on upsert *)

Section Saving.

Variable r : Repository.
Variable k : string.
Hypothesis key_column : hasColumn (metadata r) k.
Hypothesis key_primary : primaryColumn (metadata r) = k.
Hypothesis key_varchar : columnType (metadata r) k = Some varchar.

(** [upsertBy] a second time with the same payload. *)
Lemma upsertBy_again (id : string) (payload entity : Entity) (db : Database) :
  payload !! k = None ∨ payload !! k = Some (VStr id) →
  (upsertBy r k id payload db).1 = OK entity →
  ∃ entity', upsertBy r k id payload (upsertBy r k id payload db).2
             = (OK entity', (upsertBy r k id payload db).2).
Proof.
  intros Hpk. rewrite (upsertBy_eq r k key_column). cbv zeta.
  set (found := head (filter (satisfies [(k, id)]) (rows r db))).
  set (entity1 := merge r (or_create found _) payload).
  assert (Hkey : entity1 !! k = Some (VStr id)).
  { apply upsertBy_key; [done|]. destruct Hpk; [left | right]; done. }
  destruct (written r entity1 (rows r db)) as [t1|e] eqn:Hw; [|done]. simpl. intros _.
  rewrite (upsertBy_eq r k key_column). cbv zeta. rewrite rows_insert.
  destruct (written_row r k key_column key_primary key_varchar entity1 id _ _ Hkey Hw)
    as (row1 & Hhead & Hrowkey & _ & _ & Hold).
  fold found in Hold. rewrite Hhead. simpl (or_create (Some row1) _).
  set (entity2 := merge r row1 payload).
  assert (Hkey2 : entity2 !! k = Some (VStr id)).
  { unfold entity2. destruct Hpk as [Hp|Hp].
    - by rewrite merge_lookup_kept.
    - by apply merge_lookup_payload. }
  assert (Hrow1 : row1 ∈ t1 ∧ satisfies [(k, id)] row1).
  { apply head_Some_elem_of, list_elem_of_filter in Hhead. tauto. }
  assert (Hchanged : ∀ c, hasColumn (metadata r) c → changed entity2 row1 c →
            ∃ v, entity2 !! c = Some v
              ∧ ∀ row', row' ∈ t1 → satisfies [(k, id)] row' →
                  row' !! c = Some (columnValue r c v)).
  { intros c Hc [_ Hdiff].
    destruct (payload !! c) as [v|] eqn:Hp.
    2:{ exfalso. apply Hdiff. unfold entity2. by rewrite merge_lookup_kept. }
    assert (He2 : entity2 !! c = Some v) by (by apply merge_lookup_payload).
    assert (He1 : entity1 !! c = Some v) by (by apply merge_lookup_payload).
    exists v. split; [done|]. intros row' Hin Hsat.
    destruct (written_rows r k key_column key_primary key_varchar entity1 id _ _ row' c v
                Hkey Hw Hin Hsat Hc He1) as [Hrow|(old & Hfound & Holdc)]; [done|].
    exfalso. apply Hdiff. rewrite He2. fold found in Hfound. rewrite Hfound in Hold.
    rewrite (Hold c); [done|]. right. left. congruence. }
  rewrite (written_found r k key_primary entity2 id row1 t1 Hkey2 Hhead).
  assert (Hnn : nulledNotNull r entity2 row1 = None).
  { apply nulledNotNull_None. intros c Hc Hnull Hch.
    destruct (Hchanged c (required_column r c Hc) Hch) as (v & Hv & Hrows).
    rewrite Hnull in Hv. injection Hv as <-.
    destruct Hch as [_ Hdiff]. apply Hdiff. rewrite Hnull.
    rewrite (Hrows row1); [|tauto..]. f_equal. symmetry. by apply columnValue_null. }
  rewrite Hnn. eexists. f_equal. rewrite insert_insert_eq. f_equal.
  rewrite <- (list_fmap_id t1) at 2. apply list_fmap_ext. intros i row' Hi. simpl.
  destruct (decide (satisfies [(k, id)] row')) as [Hsat|]; [|done].
  apply map_eq. intros c. rewrite updated_lookup.
  destruct (decide (hasColumn (metadata r) c ∧ changed entity2 row1 c)) as [[Hc Hch]|];
    [|done].
  destruct (Hchanged c Hc Hch) as (v & Hv & Hrows). rewrite Hv. simpl.
  symmetry. apply Hrows; [|done]. by eapply list_elem_of_lookup_2.
Qed.

(** A payload that names another key stores the record under that key. *)
Lemma upsertBy_other_key (id other : string) (payload entity : Entity) (db : Database) :
  payload !! k = Some (VStr other) → other ≠ id →
  (upsertBy r k id payload db).1 = OK entity →
  (∃ row, findOne r [(k, other)] (upsertBy r k id payload db).2
          = (OK (Some row), (upsertBy r k id payload db).2)
     ∧ row !! k = Some (VStr other)
     ∧ (∀ f v ty, columnType (metadata r) f = Some ty → payload !! f = Some v →
          native ty v ∨ v = VNull → row !! f = Some v)
     ∧ (∀ f old, payload !! f = None →
          findOne r [(k, id)] db = (OK None, db) →
          findOne r [(k, other)] db = (OK (Some old), db) →
          row !! f = old !! f))
  ∧ (findOne r [(k, id)] (upsertBy r k id payload db).2).1 = (findOne r [(k, id)] db).1.
Proof.
  intros Hpk Hne. rewrite (upsertBy_eq r k key_column). cbv zeta.
  set (found := head (filter (satisfies [(k, id)]) (rows r db))).
  set (entity1 := merge r (or_create found _) payload).
  assert (Hkey : entity1 !! k = Some (VStr other)).
  { apply upsertBy_key; [done|]. by right. }
  destruct (written r entity1 (rows r db)) as [t1|e] eqn:Hw; [|done]. simpl. intros _.
  rewrite !(findOne_known _ _ _ (key_known r k key_column _)), rows_insert. simpl.
  split.
  - destruct (written_row r k key_column key_primary key_varchar entity1 other _ _ Hkey Hw)
      as (row & Hhead & Hrowkey & Hnat & _ & Hold).
    exists row. rewrite Hhead. split_and!; [done | done | |].
    + intros f v ty Hty Hp. apply (Hnat f v ty Hty).
      apply merge_lookup_payload; [by apply (columnType_column r f ty) | done].
    + intros f old Hp [= Hnone] [= Hother]. rewrite Hother in Hold. apply Hold. left.
      unfold entity1. rewrite merge_lookup_kept by done. fold found in Hnone.
      rewrite Hnone. simpl. unfold create. apply map_lookup_filter_None. left.
      apply lookup_singleton_ne. intros <-. congruence.
  - f_equal. f_equal.
    by apply (written_frame r k key_column key_primary key_varchar entity1 other id _ _ Hkey Hw).
Qed.

(** A first [upsertBy] under a key returns exactly when the payload fills
    every NOT NULL column but the key. *)
Lemma upsertBy_fresh (id : string) (payload : Entity) (db : Database) :
  payload !! k = None ∨ payload !! k = Some (VStr id) →
  findOne r [(k, id)] db = (OK None, db) →
  (∃ entity, (upsertBy r k id payload db).1 = OK entity)
  ↔ (∀ c, c ∈ requiredColumns (metadata r) → c ≠ k → ¬ isNull payload c).
Proof.
  intros Hpk. rewrite (findOne_known _ _ _ (key_known r k key_column id)).
  intros [= Hnone].
  pose proof (upsertBy_throws r k key_column key_primary key_varchar id payload db Hpk)
    as Hthrows.
  rewrite Hnone in Hthrows. specialize (Hthrows ltac:(done)).
  split.
  - intros [entity Hok] c Hc Hck Hnull.
    assert (∃ e, (upsertBy r k id payload db).1 = Throw e) as [e He].
    { apply Hthrows. exists c. split; [done|]. destruct Hnull as [Hp|Hp]; [right | left]; done. }
    congruence.
  - intros Hfill. destruct (upsertBy r k id payload db).1 as [entity|e] eqn:E; [by eexists|].
    exfalso. destruct (proj1 Hthrows ltac:(by eexists)) as (c & Hc & [Hp|(Hp & Hck & _)]).
    + destruct (decide (c = k)) as [->|Hck].
      * destruct Hpk; congruence.
      * apply (Hfill c Hc Hck). by right.
    + apply (Hfill c Hc Hck). by left.
Qed.

End Saving.

(** X4. For each of the eight kinds: once [upsert(id, payload)] has
    returned (the payload not rebinding the key), the same call again
    returns and leaves the database exactly as the first call left it: no
    second row, nothing changed. *)
Theorem upsert_again_changes_nothing (m : string) (a : Adapter) (id : string)
    (payload entity : Entity) (expiresIn : option Z) (db : Database) :
  m ∈ knownModels →
  adapterFor m = OK a →
  payload !! keyField a = None ∨ payload !! keyField a = Some (VStr id) →
  (upsert a id payload expiresIn db).1 = OK entity →
  ∃ entity', upsert a id payload expiresIn (upsert a id payload expiresIn db).2
             = (OK entity', (upsert a id payload expiresIn db).2).
Proof.
  intros Hm Ha Hkey. destruct (adapterFor_bound _ _ Hm Ha) as [md [Hmd ->]].
  rewrite !(upsert_known _ _ _ _ _ Hmd).
  apply (upsertBy_again {| metadata := md |} (primaryColumn md));
    [by apply known_key_column | done | by apply known_key_varchar | done].
Qed.

(** X5. For each of the eight kinds: when the payload carries the key
    field with a string other than [id], the record [upsert(id, payload)]
    returns is stored under the payload's key.  [find] of that key returns
    a row with that key and with the payload's values (those of the
    column's type); it is the record stored under that key before, updated
    in the columns the payload mentions, when there was one and nothing is
    stored under [id].  [find(id)] returns what it returned before the
    call. *)
Theorem upsert_payload_key_wins (m : string) (a : Adapter) (id other : string)
    (payload entity : Entity) (expiresIn : option Z) (db : Database) :
  m ∈ knownModels →
  adapterFor m = OK a →
  payload !! keyField a = Some (VStr other) →
  other ≠ id →
  (upsert a id payload expiresIn db).1 = OK entity →
  let db' := (upsert a id payload expiresIn db).2 in
  (∃ row, find a other db' = (OK (Some row), db')
     ∧ row !! keyField a = Some (VStr other)
     ∧ (∀ f v ty, columnType (metadata (repository a)) f = Some ty →
          payload !! f = Some v → native ty v ∨ v = VNull → row !! f = Some v)
     ∧ (∀ f old, payload !! f = None → find a id db = (OK None, db) →
          find a other db = (OK (Some old), db) → row !! f = old !! f))
  ∧ (find a id db').1 = (find a id db).1.
Proof.
  intros Hm Ha Hkey Hne. destruct (adapterFor_bound _ _ Hm Ha) as [md [Hmd ->]].
  cbv zeta. rewrite !(upsert_known _ _ _ _ _ Hmd), !(find_known_result _ _ _ Hmd).
  apply (upsertBy_other_key {| metadata := md |} (primaryColumn md));
    [by apply known_key_column | done | by apply known_key_varchar | done | done].
Qed.

(** X6. For each of the eight kinds: [upsert(id, payload)] does not change
    what [find(id')] returns when it stores its record under another key
    than [id']: the payload leaves the key field out and [id'] is not
    [id], or the payload gives the key field a string other than [id'].
    This holds whether the call returns or throws. *)
Theorem upsert_leaves_other_ids (m : string) (a : Adapter) (id id' : string)
    (payload : Entity) (expiresIn : option Z) (db : Database) :
  m ∈ knownModels →
  adapterFor m = OK a →
  (payload !! keyField a = None ∧ id ≠ id')
  ∨ (∃ s, payload !! keyField a = Some (VStr s) ∧ s ≠ id') →
  (find a id' (upsert a id payload expiresIn db).2).1 = (find a id' db).1.
Proof.
  intros Hm Ha Hkey. destruct (adapterFor_bound _ _ Hm Ha) as [md [Hmd ->]].
  rewrite !(upsert_known _ _ _ _ _ Hmd), !(find_known_result _ _ _ Hmd).
  apply (upsertBy_frame {| metadata := md |} (primaryColumn md));
    [by apply known_key_column | done | by apply known_key_varchar | done].
Qed.

(** X7. For each of the eight kinds, an id under which nothing is stored
    and a payload that does not rebind the key: [upsert(id, payload)]
    returns exactly when the payload gives a non-null value to every column
    that is not nullable, the key apart; otherwise it throws (and, by X1,
    stores nothing). *)
Theorem first_upsert_needs_required_columns (m : string) (a : Adapter) (id : string)
    (payload : Entity) (expiresIn : option Z) (db : Database) :
  m ∈ knownModels →
  adapterFor m = OK a →
  payload !! keyField a = None ∨ payload !! keyField a = Some (VStr id) →
  find a id db = (OK None, db) →
  (∃ entity, (upsert a id payload expiresIn db).1 = OK entity)
  ↔ (∀ c, c ∈ requiredColumns (metadata (repository a)) → c ≠ keyField a →
          ¬ isNull payload c).
Proof.
  intros Hm Ha. destruct (adapterFor_bound _ _ Hm Ha) as [md [Hmd ->]].
  rewrite (find_known_result _ _ _ Hmd). intros Hkey Hnone.
  rewrite (upsert_known _ _ _ _ _ Hmd).
  apply (upsertBy_fresh {| metadata := md |} (primaryColumn md));
    [by apply known_key_column | done | by apply known_key_varchar | done | done].
Qed.

Lemma upsert_again_changes_nothing_witness :
  ∃ entity', upsert (bound SessionSchema) "s1" sessionPayload None
               (stored (bound SessionSchema) "s1" sessionPayload)
             = (OK entity', stored (bound SessionSchema) "s1" sessionPayload).
Proof.
  unfold stored.
  apply (upsert_again_changes_nothing "Session" (bound SessionSchema) "s1" sessionPayload
           (merge (repository (bound SessionSchema))
              (create (repository (bound SessionSchema)) {[ "uid" := VStr "s1" ]})
              sessionPayload) None ∅).
  - in_list.
  - by_vm.
  - left. by_vm.
  - by_vm.
Defined.

Lemma upsert_payload_key_wins_witness :
  ∃ row,
    find (bound InteractionSchema) "i2"
      (upsert (bound InteractionSchema) "i1" {[ "uid" := VStr "i2"; "jti" := VStr "j2" ]} None
         (stored (bound InteractionSchema) "i2"
            {[ "jti" := VStr "j1"; "grantId" := VStr "g1" ]})).2
    = (OK (Some row),
       (upsert (bound InteractionSchema) "i1" {[ "uid" := VStr "i2"; "jti" := VStr "j2" ]} None
          (stored (bound InteractionSchema) "i2"
             {[ "jti" := VStr "j1"; "grantId" := VStr "g1" ]})).2)
    ∧ row !! "jti" = Some (VStr "j2")
    ∧ row !! "grantId" = Some (VStr "g1").
Proof.
  destruct (upsert_payload_key_wins "Interaction" (bound InteractionSchema) "i1" "i2"
              {[ "uid" := VStr "i2"; "jti" := VStr "j2" ]}
              (merge (repository (bound InteractionSchema))
                 (create (repository (bound InteractionSchema)) {[ "uid" := VStr "i1" ]})
                 {[ "uid" := VStr "i2"; "jti" := VStr "j2" ]}) None
              (stored (bound InteractionSchema) "i2"
                 {[ "jti" := VStr "j1"; "grantId" := VStr "g1" ]}))
    as [(row & Hfind & _ & Hnative & Hkept) _].
  - in_list.
  - by_vm.
  - by_vm.
  - discriminate.
  - by_vm.
  - exists row. split; [exact Hfind|]. split.
    + apply (Hnative "jti" (VStr "j2") varchar); [by_vm | by_vm | by left].
    + rewrite (Hkept "grantId"
                 (toRow (repository (bound InteractionSchema))
                    {[ "uid" := VStr "i2"; "jti" := VStr "j1"; "grantId" := VStr "g1" ]}));
        by_vm.
Defined.

Lemma upsert_leaves_other_ids_witness :
  (find (bound SessionSchema) "s1"
     (upsert (bound SessionSchema) "s2" sessionPayload None
        (stored (bound SessionSchema) "s1" sessionPayload)).2).1
  = (find (bound SessionSchema) "s1" (stored (bound SessionSchema) "s1" sessionPayload)).1.
Proof.
  apply (upsert_leaves_other_ids "Session").
  - in_list.
  - by_vm.
  - left. split; [by_vm | discriminate].
Defined.

Lemma first_upsert_needs_required_columns_witness :
  ¬ ∃ entity,
      (upsert (bound SessionSchema) "s1" {[ "jti" := VStr "j1" ]} None ∅).1 = OK entity.
Proof.
  intros Hok.
  assert (Hm : "Session" ∈ knownModels) by in_list.
  assert (Ha : adapterFor "Session" = OK (bound SessionSchema)) by by_vm.
  assert (Hk : ({[ "jti" := VStr "j1" ]} : Entity) !! keyField (bound SessionSchema) = None
               ∨ ({[ "jti" := VStr "j1" ]} : Entity) !! keyField (bound SessionSchema)
                 = Some (VStr "s1")) by (left; by_vm).
  assert (Hnone : find (bound SessionSchema) "s1" ∅ = (OK None, ∅)) by by_vm.
  apply (proj1 (first_upsert_needs_required_columns "Session" (bound SessionSchema) "s1"
                  {[ "jti" := VStr "j1" ]} None ∅ Hm Ha Hk Hnone) Hok "grantId").
  - in_list.
  - discriminate.
  - left. by_vm.
Defined.

(** * Deleting and looking up by key *)

Lemma filter_other_key (k id id' : string) (t : list Entity) :
  id ≠ id' →
  filter (satisfies [(k, id')]) (filter (λ row, ¬ satisfies [(k, id)] row) t)
  = filter (satisfies [(k, id')]) t.
Proof.
  intros Hne. induction t as [|row t IH]; [done|].
  rewrite (filter_cons (λ row, ¬ satisfies [(k, id)] row)).
  destruct (decide (¬ satisfies [(k, id)] row)) as [Hkeep|Hdrop].
  - rewrite !filter_cons. by rewrite IH.
  - rewrite IH. rewrite filter_cons_False; [done|].
    apply dec_stable in Hdrop. apply satisfies_key in Hdrop.
    intros Hsat%satisfies_key. congruence.
Qed.

Lemma delete_frame (r : Repository) (k id id' : string) (db : Database) :
  hasColumn (metadata r) k → id ≠ id' →
  (findOne r [(k, id')] (delete r [(k, id)] db).2).1 = (findOne r [(k, id')] db).1.
Proof.
  intros Hk Hne.
  rewrite (delete_known _ _ _ (key_known r k Hk id)). simpl.
  rewrite !(findOne_known _ _ _ (key_known r k Hk id')). simpl.
  rewrite rows_alter by done. by rewrite filter_other_key.
Qed.

(** X8. Removing one record leaves every other record of the kind in
    place: for ids that differ, [find(id')] returns the same after
    [consume(id)] on the Code adapter, after [destroy(id)] on the Session
    and Interaction adapters, and after [destroyByGrantId(id)] on the
    Grant adapter. *)
Theorem delete_leaves_other_ids (id id' : string) (db : Database) :
  id ≠ id' →
  (find (bound CodeSchema) id' (consume (bound CodeSchema) id db).2).1
  = (find (bound CodeSchema) id' db).1
  ∧ (find (bound SessionSchema) id' (destroy (bound SessionSchema) id db).2).1
    = (find (bound SessionSchema) id' db).1
  ∧ (find (bound InteractionSchema) id' (destroy (bound InteractionSchema) id db).2).1
    = (find (bound InteractionSchema) id' db).1
  ∧ (find (bound GrantSchema) id' (destroyByGrantId (bound GrantSchema) id db).2).1
    = (find (bound GrantSchema) id' db).1.
Proof.
  intros Hne. split_and!.
  - apply (delete_frame (repository (bound CodeSchema)) "code"); [in_list | done].
  - apply (delete_frame (repository (bound SessionSchema)) "uid"); [in_list | done].
  - apply (delete_frame (repository (bound InteractionSchema)) "uid"); [in_list | done].
  - unfold destroyByGrantId. rewrite decide_True by done. unfold deleteById.
    case_decide; [done|].
    apply (delete_frame (repository (bound GrantSchema)) "id"); [in_list | done].
Qed.

Lemma delete_leaves_other_ids_witness :
  (find (bound CodeSchema) "c1"
     (consume (bound CodeSchema) "c2" (stored (bound CodeSchema) "c1" codePayload)).2).1
  = (find (bound CodeSchema) "c1" (stored (bound CodeSchema) "c1" codePayload)).1.
Proof.
  apply (delete_leaves_other_ids "c2" "c1" (stored (bound CodeSchema) "c1" codePayload)).
  discriminate.
Defined.

Lemma destroy_by_uid_witness :
  find (bound SessionSchema) "s1"
    (destroy (bound SessionSchema) "s1" (stored (bound SessionSchema) "s1" sessionPayload)).2
  = (OK None,
     (destroy (bound SessionSchema) "s1" (stored (bound SessionSchema) "s1" sessionPayload)).2).
Proof.
  apply (destroy_by_uid SessionSchema "s1" (stored (bound SessionSchema) "s1" sessionPayload)).
  left. reflexivity.
Defined.

(** X10. On the Grant adapter, [destroyByGrantId(g)] with a non-empty id
    returns, after it [find(g)] is not-found, it changes nothing when no
    grant has that id, and it leaves the token tables as they are: the
    tokens issued under the grant are not removed with it. *)
Theorem destroyByGrantId_removes_only_the_grant (g : string) (db : Database) :
  g ≠ "" →
  (destroyByGrantId (bound GrantSchema) g db).1 = OK ()
  ∧ find (bound GrantSchema) g (destroyByGrantId (bound GrantSchema) g db).2
    = (OK None, (destroyByGrantId (bound GrantSchema) g db).2)
  ∧ (find (bound GrantSchema) g db = (OK None, db) →
     destroyByGrantId (bound GrantSchema) g db = (OK (), db))
  ∧ rows (repository (bound AccessTokenSchema)) (destroyByGrantId (bound GrantSchema) g db).2
    = rows (repository (bound AccessTokenSchema)) db
  ∧ rows (repository (bound RefreshTokenSchema)) (destroyByGrantId (bound GrantSchema) g db).2
    = rows (repository (bound RefreshTokenSchema)) db.
Proof.
  intros Hg.
  assert (Hd : destroyByGrantId (bound GrantSchema) g
               = delete (repository (bound GrantSchema)) [("id", g)]).
  { unfold destroyByGrantId. rewrite decide_True by done. unfold deleteById.
    by rewrite decide_False. }
  assert (Hu : unknownColumn (repository (bound GrantSchema)) [("id", g)] = None)
    by reflexivity.
  assert (Hf : find (bound GrantSchema) g
               = findOne (repository (bound GrantSchema)) [("id", g)]) by reflexivity.
  split_and!.
  - by rewrite Hd, (delete_known _ _ _ Hu).
  - rewrite Hd, Hf. by apply delete_findOne.
  - rewrite Hd, Hf, (findOne_known _ _ _ Hu). intros [= Hnone%head_None].
    by apply delete_absent.
  - unfold rows. destruct (after_effect (bound GrantSchema) db (CallDestroyByGrantId g))
      as [Heff _].
    by rewrite (effect_other_table _ _ _ _ Heff).
  - unfold rows. destruct (after_effect (bound GrantSchema) db (CallDestroyByGrantId g))
      as [Heff _].
    by rewrite (effect_other_table _ _ _ _ Heff).
Qed.

Lemma destroyByGrantId_removes_only_the_grant_witness :
  rows (repository (bound AccessTokenSchema))
    (destroyByGrantId (bound GrantSchema) "g1"
       (stored (bound AccessTokenSchema) "t1" accessTokenPayload)).2
  = rows (repository (bound AccessTokenSchema))
      (stored (bound AccessTokenSchema) "t1" accessTokenPayload).
Proof.
  apply (destroyByGrantId_removes_only_the_grant "g1"). discriminate.
Defined.

Lemma head_filter_result {A} (P : A → Prop) `{!∀ x, Decision (P x)} (l : list A) :
  match head (filter P l) with
  | Some x => x ∈ l ∧ P x
  | None => ∀ x, x ∈ l → ¬ P x
  end.
Proof.
  destruct (head (filter P l)) as [x|] eqn:E.
  - apply head_Some_elem_of, list_elem_of_filter in E. tauto.
  - apply head_None in E. intros x Hx HP. by eapply (filter_nil_not_elem_of P l x).
Qed.

(** X11. On each of the eight kinds, [find(id)] never throws and never
    changes the database: it returns a stored row whose key field is [id],
    and not-found exactly when no stored row has that key. *)
Theorem find_returns_row_with_key (m : string) (a : Adapter) (id : string) (db : Database) :
  m ∈ knownModels →
  adapterFor m = OK a →
  ∃ found, find a id db = (OK found, db)
    ∧ match found with
      | Some row => row ∈ rows (repository a) db ∧ row !! keyField a = Some (VStr id)
      | None => ∀ row, row ∈ rows (repository a) db → row !! keyField a ≠ Some (VStr id)
      end.
Proof.
  intros Hm Ha. destruct (adapterFor_bound _ _ Hm Ha) as [md [Hmd ->]].
  rewrite (find_known_result _ _ _ Hmd).
  rewrite (findOne_known _ _ _
             (key_known {| metadata := md |} _ (known_key_column _ Hmd) id)).
  eexists. split; [done|].
  pose proof (head_filter_result (satisfies [(primaryColumn md, id)])
                (rows (repository (bound md)) db)) as H.
  simpl in *.
  destruct (head (filter (satisfies [(primaryColumn md, id)]) (rows {| metadata := md |} db)))
    as [row|].
  - destruct H as [Hin Hsat]. split; [done|]. by apply satisfies_key.
  - intros row Hin Hkey. apply (H row Hin). by apply satisfies_key.
Qed.

Lemma find_returns_row_with_key_witness :
  ∃ row, find (bound SessionSchema) "s1" (stored (bound SessionSchema) "s1" sessionPayload)
         = (OK (Some row), stored (bound SessionSchema) "s1" sessionPayload)
    ∧ row !! "uid" = Some (VStr "s1").
Proof.
  destruct (find_returns_row_with_key "Session" (bound SessionSchema) "s1"
              (stored (bound SessionSchema) "s1" sessionPayload))
    as [found [Hfind Hfound]].
  - in_list.
  - by_vm.
  - assert (Hrows : rows (repository (bound SessionSchema))
                      (stored (bound SessionSchema) "s1" sessionPayload)
                    = [toRow (repository (bound SessionSchema))
                         (<["uid" := VStr "s1"]> sessionPayload)])
      by (by_vm).
    destruct found as [row|].
    + exists row. split; [exact Hfind | exact (proj2 Hfound)].
    + exfalso.
      apply (Hfound (toRow (repository (bound SessionSchema))
                       (<["uid" := VStr "s1"]> sessionPayload))).
      * rewrite Hrows. constructor.
      * by_vm.
Defined.

(** X12. On the DeviceCode adapter the two secondary lookups never throw:
    [findByUserCode(U)] returns a stored row with user code U, and
    not-found exactly when there is none; [findByUidAndUserCode(D, U)]
    returns a stored row that has both device code D and user code U, and
    not-found exactly when no single row has both. *)
Theorem device_code_secondary_lookups (a : Adapter) (D U : string) (db : Database) :
  adapterFor "DeviceCode" = OK a →
  (∃ found, findByUserCode a U db = (OK found, db)
     ∧ match found with
       | Some row => row ∈ rows (repository a) db ∧ row !! "user_code" = Some (VStr U)
       | None => ∀ row, row ∈ rows (repository a) db → row !! "user_code" ≠ Some (VStr U)
       end)
  ∧ (∃ found, findByUidAndUserCode a D U db = (OK found, db)
       ∧ match found with
         | Some row => row ∈ rows (repository a) db
                       ∧ row !! "device_code" = Some (VStr D)
                       ∧ row !! "user_code" = Some (VStr U)
         | None => ∀ row, row ∈ rows (repository a) db →
                     ¬ (row !! "device_code" = Some (VStr D)
                        ∧ row !! "user_code" = Some (VStr U))
         end).
Proof.
  rewrite adapterFor_DeviceCode. intros [= <-]. split.
  - rewrite findByUserCode_DeviceCode. eexists. split; [done|].
    pose proof (head_filter_result (satisfies [("user_code", U)])
                  (rows (repository (bound DeviceCodeSchema)) db)) as H.
    destruct (head _) as [row|].
    + destruct H as [Hin Hsat]. split; [done|]. by apply satisfies_key.
    + intros row Hin Hkey. apply (H row Hin). by apply satisfies_key.
  - rewrite findByUidAndUserCode_DeviceCode. eexists. split; [done|].
    pose proof (head_filter_result (satisfies [("device_code", D); ("user_code", U)])
                  (rows (repository (bound DeviceCodeSchema)) db)) as H.
    destruct (head _) as [row|].
    + destruct H as [Hin Hsat]. split; [done|].
      inversion Hsat as [|? ? HD Hrest]; subst. inversion Hrest; subst. done.
    + intros row Hin [HD HU]. apply (H row Hin). by repeat constructor.
Qed.

Lemma device_code_secondary_lookups_witness :
  ∃ row, findByUidAndUserCode (bound DeviceCodeSchema) "D1" "U1"
           (stored (bound DeviceCodeSchema) "D1" deviceCodePayload)
         = (OK (Some row), stored (bound DeviceCodeSchema) "D1" deviceCodePayload)
    ∧ row !! "device_code" = Some (VStr "D1")
    ∧ row !! "user_code" = Some (VStr "U1").
Proof.
  destruct (device_code_secondary_lookups (bound DeviceCodeSchema) "D1" "U1"
              (stored (bound DeviceCodeSchema) "D1" deviceCodePayload))
    as [_ [found [Hfind Hfound]]].
  - by_vm.
  - assert (Hrows : rows (repository (bound DeviceCodeSchema))
                      (stored (bound DeviceCodeSchema) "D1" deviceCodePayload)
                    = [toRow (repository (bound DeviceCodeSchema))
                         (<["device_code" := VStr "D1"]> deviceCodePayload)])
      by (by_vm).
    destruct found as [row|].
    + exists row. split; [exact Hfind | exact (proj2 Hfound)].
    + exfalso.
      apply (Hfound (toRow (repository (bound DeviceCodeSchema))
                       (<["device_code" := VStr "D1"]> deviceCodePayload))).
      * rewrite Hrows. constructor.
      * split; by_vm.
Defined.

(** * The relying party as a whole *)

Lemma grant_ok (endpoint : TokenEndpoint) (url : SearchParams) (checks : Checks)
    (tokens : TokenSet) (sent : list TokenRequest) :
  authorizationCodeGrant endpoint url checks = (OK tokens, sent) →
  param_state url = expectedState checks
  ∧ ∃ code, param_code url = Some code
      ∧ endpoint {| grant_code := code; grant_code_verifier := pkceCodeVerifier checks |}
        = Some tokens
      ∧ sent = [{| grant_code := code; grant_code_verifier := pkceCodeVerifier checks |}].
Proof.
  unfold authorizationCodeGrant. case_decide as Hstate; [done|].
  case_decide; [done|]. destruct (param_code url) as [code|]; [|done].
  destruct (endpoint _) as [tokens'|] eqn:E; [|done]. intros [= <- <-].
  split; [done | eauto].
Qed.

(** X13. In both revisions of the callback route, the flow ends
    authenticated only if the client is configured, the state in the query
    is the state kept in the session, and the token endpoint granted the
    one request sent, which carries the code of the query and the code
    verifier kept in the session; the token set stored is the one granted. *)
Theorem callback_authenticates_only_after_exchange (endpoint : TokenEndpoint)
    (config : bool) (s : Session) (url : SearchParams) (h : Handled) :
  h = callback endpoint config s url ∨ h = callback_earlier endpoint config s url →
  authenticated h →
  config = true
  ∧ param_state url = state s
  ∧ ∃ code tokens,
      param_code url = Some code
      ∧ endpoint {| grant_code := code; grant_code_verifier := code_verifier s |}
        = Some tokens
      ∧ requests h = [{| grant_code := code; grant_code_verifier := code_verifier s |}]
      ∧ tokenSet (session h) = Some tokens.
Proof.
  intros Hh [Hredirect _].
  destruct config; [|destruct Hh as [-> | ->]; done].
  split; [done|].
  destruct Hh as [-> | ->]; [|by rewrite callback_earlier_fails in Hredirect].
  destruct (authorizationCodeGrant endpoint url (checksOf s)) as [[tokens|e] sent] eqn:E.
  - destruct (grant_ok _ _ _ _ _ E) as [Hstate (code & Hcode & Hend & ->)].
    split; [done|]. exists code, tokens.
    unfold callback in *. simpl in *. rewrite E in *. simpl in *.
    by destruct (claims tokens).
  - unfold callback in *. simpl in *. rewrite E in *. done.
Qed.

Lemma callback_authenticates_only_after_exchange_witness :
  ∃ code tokens,
    param_code (sampleUrl "good" "S1") = Some code
    ∧ sampleEndpoint {| grant_code := code; grant_code_verifier := Some "verifier" |}
      = Some tokens.
Proof.
  destruct (callback_authenticates_only_after_exchange sampleEndpoint true sampleSession
              (sampleUrl "good" "S1")
              (callback sampleEndpoint true sampleSession (sampleUrl "good" "S1")))
    as (_ & _ & code & tokens & Hcode & Hend & _).
  - by left.
  - split; [reflexivity | by eexists].
  - by exists code, tokens.
Defined.

Lemma grant_granted (endpoint : TokenEndpoint) (url : SearchParams) (s : Session)
    (code : string) (tokens : TokenSet) :
  param_state url = state s → param_error url = None → param_code url = Some code →
  endpoint {| grant_code := code; grant_code_verifier := code_verifier s |} = Some tokens →
  authorizationCodeGrant endpoint url (checksOf s)
  = (OK tokens, [{| grant_code := code; grant_code_verifier := code_verifier s |}]).
Proof.
  intros Hstate Herr Hcode Hend. unfold authorizationCodeGrant.
  rewrite decide_False by (intros ?; done).
  rewrite Herr, decide_False by (by intros [? ?]).
  rewrite Hcode. simpl. by rewrite Hend.
Qed.

(** X14. Login and callback fit together.  With the client configured,
    [/login] sends the browser to the authorization endpoint with the
    drawn state and the S256 challenge of the drawn verifier, and keeps
    both in the session.  A callback that then arrives with another state,
    or none, is answered "Callback error" without a token request and
    without touching the session; a callback with that state and a code
    sends one token request carrying the code and the drawn verifier, and
    when the endpoint grants it with an ID token, the route stores the
    token set and the subject and redirects to the home page. *)
Theorem login_then_callback (env : Environment) (s : Session)
    (verifier drawn : string) (url : SearchParams) :
  configured env = true →
  let started := serve env s (GetLogin verifier drawn) in
  let returned := serve env (session_left started) (GetCallback url) in
  reply started = authorization
    {| AuthorizationUrl.redirect_uri := redirect_uri;
       AuthorizationUrl.scope := "openid profile email";
       AuthorizationUrl.code_challenge := calculatePKCECodeChallenge env verifier;
       AuthorizationUrl.code_challenge_method := "S256";
       AuthorizationUrl.state := drawn |}
  ∧ code_verifier (session_left started) = Some verifier
  ∧ state (session_left started) = Some drawn
  ∧ (param_state url ≠ Some drawn →
       reply returned = answered (send 500 "Callback error")
       ∧ token_requests returned = []
       ∧ session_left returned = session_left started)
  ∧ (∀ code tokens idTokenClaims,
       param_state url = Some drawn → param_error url = None →
       param_code url = Some code →
       tokenEndpoint env {| grant_code := code; grant_code_verifier := Some verifier |}
         = Some tokens →
       claims tokens = Some idTokenClaims →
       reply returned = answered (redirect "/")
       ∧ token_requests returned
         = [{| grant_code := code; grant_code_verifier := Some verifier |}]
       ∧ tokenSet (session_left returned) = Some tokens
       ∧ expectedSubject (session_left returned) = Some (sub idTokenClaims)).
Proof.
  intros Hconf. cbv zeta. unfold serve, login, callback. rewrite Hconf. simpl.
  split_and!; try done.
  - intros Hstate. by rewrite grant_state_mismatch.
  - intros code tokens idTokenClaims Hstate Herr Hcode Hend Hclaims.
    rewrite (grant_granted _ _ _ code tokens); [|done..]. simpl. by rewrite Hclaims.
Qed.

Lemma login_then_callback_witness :
  reply (serve sampleEnvironment
           (session_left (serve sampleEnvironment emptySession (GetLogin "verifier" "S1")))
           (GetCallback (sampleUrl "good" "S1")))
  = answered (redirect "/")
  ∧ reply (serve sampleEnvironment
             (session_left (serve sampleEnvironment emptySession (GetLogin "verifier" "S1")))
             (GetCallback (sampleUrl "good" "S0")))
    = answered (send 500 "Callback error").
Proof.
  destruct (login_then_callback sampleEnvironment emptySession "verifier" "S1"
              (sampleUrl "good" "S1") eq_refl) as (_ & _ & _ & _ & Hgood).
  destruct (login_then_callback sampleEnvironment emptySession "verifier" "S1"
              (sampleUrl "good" "S0") eq_refl) as (_ & _ & _ & Hbad & _).
  split.
  - apply (Hgood "good" sampleTokens {| sub := "alice" |}); reflexivity.
  - apply Hbad. discriminate.
Defined.

(** X15. Logout ends the login: whatever the session held, after
    [/logout] the home page is the logged-out one, [/profile] sends the
    browser to [/login], and a callback that still carries the state of an
    earlier login is answered "Callback error" without a token request. *)
Theorem logout_forgets_login (env : Environment) (s : Session) (url : SearchParams) :
  configured env = true →
  let left := session_left (serve env s GetLogout) in
  reply (serve env s GetLogout) = answered (redirect "/")
  ∧ reply (serve env left GetHome) = rendered WelcomePage
  ∧ reply (serve env left GetProfile) = answered (redirect "/login")
  ∧ (is_Some (param_state url) →
       reply (serve env left (GetCallback url)) = answered (send 500 "Callback error")
       ∧ token_requests (serve env left (GetCallback url)) = []
       ∧ tokenSet (session_left (serve env left (GetCallback url))) = None).
Proof.
  intros Hconf. cbv zeta. unfold serve, logout, home, profile, callback. rewrite Hconf. simpl.
  split_and!; try done.
  intros [st Hst]. rewrite grant_state_mismatch; [done|]. simpl. by rewrite Hst.
Qed.

Lemma logout_forgets_login_witness :
  reply (serve sampleEnvironment
           (session_left (serve sampleEnvironment sampleSession GetLogout))
           (GetCallback (sampleUrl "good" "S1")))
  = answered (send 500 "Callback error").
Proof.
  destruct (logout_forgets_login sampleEnvironment sampleSession (sampleUrl "good" "S1")
              eq_refl) as (_ & _ & _ & Hcallback).
  apply Hcallback. by eexists.
Defined.

(** X16. In the route of [rp-demo/app.js], the token set is stored before
    the ID token claims are read: when the endpoint grants the exchange
    with a token set that has no ID token, the route answers
    "Callback error" with status 500 and yet leaves the token set in the
    session, so that the home page then shows the logged-in page.  The
    earlier revision never gets that far: on the same input it answers
    "Callback error" without a token request and stores nothing. *)
Theorem callback_error_after_tokens_stored (env : Environment) (s : Session)
    (url : SearchParams) (code : string) (tokens : TokenSet) :
  configured env = true →
  param_state url = state s → param_error url = None → param_code url = Some code →
  tokenEndpoint env {| grant_code := code; grant_code_verifier := code_verifier s |}
    = Some tokens →
  claims tokens = None →
  let returned := serve env s (GetCallback url) in
  reply returned = answered (send 500 "Callback error")
  ∧ tokenSet (session_left returned) = Some tokens
  ∧ expectedSubject (session_left returned) = expectedSubject s
  ∧ reply (serve env (session_left returned) GetHome) = rendered WelcomeBackPage
  ∧ callback_earlier (tokenEndpoint env) true s url
    = {| session := s; response := send 200 "Callback error"; requests := [] |}.
Proof.
  intros Hconf Hstate Herr Hcode Hend Hclaims. cbv zeta.
  rewrite callback_earlier_fails.
  unfold serve, callback, home. rewrite Hconf. simpl.
  rewrite (grant_granted _ _ _ code tokens); [|done..]. simpl. rewrite Hclaims. simpl.
  split_and!; done.
Qed.

Lemma callback_error_after_tokens_stored_witness :
  reply (serve {| tokenEndpoint := λ _, Some {| access_token := "at1"; claims := None |};
                  calculatePKCECodeChallenge := λ verifier, verifier;
                  fetchUserInfo := λ _ _, None;
                  configured := true |}
           (session_left
              (serve {| tokenEndpoint := λ _, Some {| access_token := "at1"; claims := None |};
                        calculatePKCECodeChallenge := λ verifier, verifier;
                        fetchUserInfo := λ _ _, None;
                        configured := true |}
                 sampleSession (GetCallback (sampleUrl "good" "S1"))))
           GetHome)
  = rendered WelcomeBackPage.
Proof.
  apply (callback_error_after_tokens_stored
           {| tokenEndpoint := λ _, Some {| access_token := "at1"; claims := None |};
              calculatePKCECodeChallenge := λ verifier, verifier;
              fetchUserInfo := λ _ _, None;
              configured := true |}
           sampleSession (sampleUrl "good" "S1") "good"
           {| access_token := "at1"; claims := None |}); reflexivity.
Defined.

Lemma serve_tokens (env : Environment) (s : Session) (route : Route) (tokens : TokenSet) :
  tokenSet (session_left (serve env s route)) = Some tokens →
  tokenSet s = Some tokens ∨ ∃ request, tokenEndpoint env request = Some tokens.
Proof.
  destruct route as [| verifier drawn | url | |]; simpl.
  - by left.
  - unfold login. destruct (configured env); simpl; by left.
  - unfold callback. destruct (configured env); simpl; [|by left].
    destruct (authorizationCodeGrant _ _ _) as [[granted|e] sent] eqn:E; simpl; [|by left].
    destruct (grant_ok _ _ _ _ _ E) as [_ (code & _ & Hend & _)].
    intros Hstored. right. eexists. rewrite Hend. f_equal.
    by destruct (claims granted); simpl in Hstored; injection Hstored.
  - unfold profile. destruct (configured env); simpl; [|by left].
    destruct (tokenSet s) as [held|] eqn:Hs; simpl.
    + destruct (fetchUserInfo env _ _); simpl; rewrite Hs; by left.
    + by rewrite Hs.
  - done.
Qed.

(** X17. Through any sequence of requests to the application, the session
    never comes to hold a token set other than one it held at the start or
    one the token endpoint granted. *)
Theorem session_tokens_come_from_endpoint (env : Environment) (s : Session)
    (routes : list Route) (tokens : TokenSet) :
  tokenSet (browse env s routes) = Some tokens →
  tokenSet s = Some tokens ∨ ∃ request, tokenEndpoint env request = Some tokens.
Proof.
  unfold browse. revert s. induction routes as [|route routes IH]; intros s; simpl.
  - by left.
  - intros Hend. destruct (IH _ Hend) as [Hstep | Hgranted]; [|by right].
    by apply (serve_tokens env s route).
Qed.

Lemma session_tokens_come_from_endpoint_witness :
  ∃ request, sampleEndpoint request = Some sampleTokens.
Proof.
  destruct (session_tokens_come_from_endpoint sampleEnvironment emptySession
              [GetLogin "verifier" "S1"; GetCallback (sampleUrl "good" "S1"); GetHome]
              sampleTokens) as [Hheld | Hgranted].
  - reflexivity.
  - discriminate Hheld.
  - exact Hgranted.
Defined.

(** * The identity provider's accounts *)

Lemma includes_prefix (s searchString : string) :
  String.prefix searchString s = true → Idp.includes s searchString = true.
Proof. intros H. destruct s; simpl in *; rewrite H; done. Qed.

Lemma includes_app (pre post searchString : string) :
  Idp.includes (pre +:+ searchString +:+ post) searchString = true.
Proof.
  induction pre as [|c pre IH]; simpl.
  - apply includes_prefix. clear. induction searchString as [|c s IH]; simpl.
    + by destruct post.
    + destruct (Ascii.ascii_dec c c); [exact IH | done].
  - rewrite IH. apply orb_true_r.
Qed.

Lemma findAccount_user (id_ : string) (account : Idp.Account) :
  Idp.findAccount id_ = Some account →
  ∃ user, user ∈ Idp.users ∧ Idp.id user = id_
    ∧ Idp.accountId account = id_
    ∧ ∀ use scope,
        Idp.claims account use scope
        = (if Idp.includes scope "email"
           then <["email_verified" := VBool true]> ∘ <["email" := VStr (Idp.email user)]>
           else λ c, c)
            ((if Idp.includes scope "profile"
              then <["name" := VStr (Idp.name user)]>
              else λ c, c) {[ "sub" := VStr id_ ]}).
Proof.
  unfold Idp.findAccount.
  destruct (head (filter (λ u, Idp.id u = id_) Idp.users)) as [user|] eqn:E; [|done].
  intros [= <-]. apply head_Some_elem_of, list_elem_of_filter in E as [Hid Hin].
  exists user. split_and!; [done..|]. intros use scope. simpl.
  by destruct (Idp.includes scope "profile"), (Idp.includes scope "email").
Qed.

Lemma claims_sub (id_ use scope : string) (account : Idp.Account) :
  Idp.findAccount id_ = Some account →
  Idp.claims account use scope !! "sub" = Some (VStr id_).
Proof.
  intros Hfound. destruct (findAccount_user _ _ Hfound) as (user & _ & _ & _ & Hclaims).
  rewrite Hclaims.
  destruct (Idp.includes scope "profile"), (Idp.includes scope "email"); simpl;
    rewrite ?lookup_insert_ne by done; apply lookup_singleton_eq.
Qed.

(** X18. The claims of an account follow the granted scope string: for an
    account [findAccount(id)] resolves, [claims(use, scope)] always holds
    [sub = id]; it holds [name] exactly when "profile" occurs in the scope
    string, [email] and [email_verified = true] exactly when "email"
    occurs in it (anywhere in the string), and never any other claim. *)
Theorem claims_follow_scope (id_ use scope : string) (account : Idp.Account) :
  Idp.findAccount id_ = Some account →
  let released := Idp.claims account use scope in
  released !! "sub" = Some (VStr id_)
  ∧ (is_Some (released !! "name") ↔ Idp.includes scope "profile" = true)
  ∧ (is_Some (released !! "email") ↔ Idp.includes scope "email" = true)
  ∧ (released !! "email_verified" = Some (VBool true) ↔ Idp.includes scope "email" = true)
  ∧ (∀ claim, is_Some (released !! claim) →
       claim ∈ ["sub"; "name"; "email"; "email_verified"])
  ∧ (∀ pre post, scope = pre +:+ "profile" +:+ post → is_Some (released !! "name")).
Proof.
  intros Hfound. destruct (findAccount_user _ _ Hfound) as (user & _ & _ & _ & Hclaims).
  cbv zeta. rewrite Hclaims.
  assert (Hsub : ∀ pre post, scope = pre +:+ "profile" +:+ post →
                 Idp.includes scope "profile" = true)
    by (intros pre post ->; apply includes_app).
  destruct (Idp.includes scope "profile"), (Idp.includes scope "email"); simpl;
    split_and!;
    try (intros claim [v Hv];
         repeat (apply lookup_insert_Some in Hv as [[<- _]|[_ Hv]]; [in_list|]);
         apply lookup_singleton_Some in Hv as [<- _]; in_list);
    try (intros pre post Hscope; specialize (Hsub pre post Hscope));
    try (split; [intros [v Hv] | intros Habs]);
    try (split; [intros Hv | intros Habs]);
    try done.
Qed.

Lemma claims_follow_scope_witness :
  ∃ account, Idp.findAccount "user1" = Some account
    ∧ is_Some (Idp.claims account "userinfo" "openid profile" !! "name")
    ∧ Idp.claims account "userinfo" "openid profile" !! "email" = None.
Proof.
  destruct (Idp.findAccount "user1") as [account|] eqn:E; [|discriminate E].
  exists account. split; [done|].
  destruct (claims_follow_scope "user1" "userinfo" "openid profile" account E)
    as (_ & Hname & Hemail & _).
  split.
  - apply Hname. reflexivity.
  - destruct (Idp.claims account "userinfo" "openid profile" !! "email") eqn:Hc; [|done].
    assert (Idp.includes "openid profile" "email" = true) as Habs
      by (apply Hemail; by eexists).
    discriminate Habs.
Defined.

(** X19. The login interaction and the account lookup.  The route of the
    first idp.js finishes the interaction only for the username and
    password of a configured user, with that user's id as account id,
    which [findAccount] resolves to an account whose [sub] claim is that
    id; it answers 401 only when no configured user has these
    credentials (missing ones included); and it hands an error to [next]
    only when [interactionDetails], [Client.find] or [interactionFinished]
    threw it.  When the provider's calls resolve, it finishes exactly for
    the credentials of a configured user.  The route of the second idp.js
    checks nothing: when the provider's calls resolve it finishes for every
    username and password, handing the username over as the account, and
    it never answers 401. *)
Theorem login_hands_over_known_account (oidc : Idp.Provider)
    (username_ password_ : option string) :
  match Idp.login oidc username_ password_ with
  | Idp.finished loginResult =>
      ∃ user, user ∈ Idp.users ∧ loginResult = Idp.loginAccountId (Idp.id user)
        ∧ username_ = Some (Idp.username user) ∧ password_ = Some (Idp.password user)
        ∧ ∃ account, Idp.findAccount (Idp.id user) = Some account
            ∧ Idp.accountId account = Idp.id user
            ∧ ∀ use scope, Idp.claims account use scope !! "sub" = Some (VStr (Idp.id user))
  | Idp.rejected status body =>
      status = 401%Z ∧ body = "Invalid username or password"
      ∧ ∀ user, user ∈ Idp.users →
          ¬ (username_ = Some (Idp.username user) ∧ password_ = Some (Idp.password user))
  | Idp.passedOn err =>
      Idp.interactionDetails oidc = Throw err
      ∨ (∃ client_id, Idp.clientFind oidc client_id = Throw err)
      ∨ (∃ loginResult, Idp.interactionFinished oidc loginResult = Throw err)
  end
  ∧ ((∃ client_id, Idp.interactionDetails oidc = OK client_id)
     → (∀ client_id, Idp.clientFind oidc client_id = OK ())
     → (∀ loginResult, Idp.interactionFinished oidc loginResult = OK ())
     → ((∃ loginResult, Idp.login oidc username_ password_ = Idp.finished loginResult)
        ↔ ∃ user, user ∈ Idp.users ∧ username_ = Some (Idp.username user)
            ∧ password_ = Some (Idp.password user))
       ∧ Idp.loginAny oidc username_ password_ = Idp.finished (Idp.loginAccount username_))
  ∧ (∀ status body, Idp.loginAny oidc username_ password_ ≠ Idp.rejected status body).
Proof.
  pose proof (head_filter_result
                (λ u, Some (Idp.username u) = username_ ∧ Some (Idp.password u) = password_)
                Idp.users) as H.
  split; [|split].
  - unfold Idp.login.
    destruct (Idp.interactionDetails oidc) as [client_id|err]; [|by left].
    destruct (Idp.clientFind oidc client_id) as [[]|err] eqn:Hclient;
      [|right; left; by exists client_id].
    destruct (head (filter _ Idp.users)) as [user|].
    + destruct H as [Hin [Hu Hp]].
      destruct (Idp.interactionFinished oidc _) as [[]|err] eqn:Hfinished;
        [|right; right; by eexists].
      exists user. split_and!; [done..|].
      assert (∃ account, Idp.findAccount (Idp.id user) = Some account) as [account Ha].
      { unfold Idp.users in Hin.
        repeat (apply elem_of_cons in Hin as [->|Hin]; [by eexists|]).
        by apply elem_of_nil in Hin. }
      exists account. split; [done|].
      destruct (findAccount_user _ _ Ha) as (_ & _ & _ & Hid & _). split; [done|].
      intros use scope. by apply claims_sub.
    + split_and!; [done..|]. intros user Hin [Hu Hp]. by apply (H user Hin).
  - intros [client_id Hdetails] Hclient Hfinished.
    unfold Idp.login, Idp.loginAny. rewrite Hdetails, Hclient, !Hfinished.
    split; [|done].
    destruct (head (filter _ Idp.users)) as [user|].
    + destruct H as [Hin [Hu Hp]]. rewrite Hfinished. split; [|by eexists].
      intros _. by exists user.
    + split; [by intros [? ?]|]. intros (user & Hin & Hu & Hp). exfalso.
      by apply (H user Hin).
  - intros status body. unfold Idp.loginAny.
    destruct (Idp.interactionDetails oidc) as [client_id|err]; [|done].
    destruct (Idp.clientFind oidc client_id) as [[]|err]; [|done].
    by destruct (Idp.interactionFinished oidc _) as [[]|err].
Qed.

Lemma login_hands_over_known_account_witness :
  Idp.loginAny Idp.sampleProvider (Some "mallory") (Some "guess")
  = Idp.finished (Idp.loginAccount (Some "mallory"))
  ∧ ¬ ∃ loginResult,
        Idp.login Idp.sampleProvider (Some "mallory") (Some "guess")
        = Idp.finished loginResult.
Proof.
  destruct (login_hands_over_known_account Idp.sampleProvider (Some "mallory") (Some "guess"))
    as (_ & Hresolved & _).
  destruct Hresolved as [Hexactly Hany]; [by eexists | done | done |].
  split; [exact Hany|]. intros Hfinished.
  apply Hexactly in Hfinished as (user & Hin & Hu & _).
  unfold Idp.users in Hin.
  repeat (apply elem_of_cons in Hin as [->|Hin]; [discriminate Hu|]).
  by apply elem_of_nil in Hin.
Defined.

(** * The key set *)

Lemma filter_none {A} (P : A → Prop) `{!∀ x, Decision (P x)} (l : list A) :
  (∀ x, x ∈ l → ¬ P x) → filter P l = [].
Proof.
  induction l as [|x l IH]; intros Hall; [done|].
  rewrite filter_cons_False; [|apply Hall; by left].
  apply IH. intros y Hy. apply Hall. by right.
Qed.

Lemma checkKeys_None (index : nat) (keys : list Jwks.JSON) :
  Jwks.checkKeys index keys = None ↔
  Forall (λ key, key ≠ Jwks.JNull
                 ∧ ∀ prop, prop ∈ Jwks.requiredProps →
                     Jwks.truthy (Jwks.member key prop) = true) keys.
Proof.
  revert index. induction keys as [|key keys IH]; intros index; simpl.
  - split; [constructor | done].
  - assert (Hmissing : Jwks.firstMissing key = None ↔
                       ∀ prop, prop ∈ Jwks.requiredProps →
                         Jwks.truthy (Jwks.member key prop) = true).
    { unfold Jwks.firstMissing. rewrite head_None. split.
      - intros Hnil prop Hprop.
        destruct (Jwks.truthy (Jwks.member key prop)) eqn:E; [done|].
        exfalso. by eapply (filter_nil_not_elem_of _ _ prop).
      - intros Hall. apply filter_none. intros prop Hprop. by rewrite Hall. }
    assert (key = Jwks.JNull ∨ key ≠ Jwks.JNull) as [->|Hkey]
      by (destruct key; (by left) || (by right)).
    { split; [done|]. intros Hall. inversion Hall as [|? ? [Hnull _]]; subst. done. }
    assert (Jwks.checkKeys index (key :: keys)
            = match Jwks.firstMissing key with
              | Some prop => Some (Jwks.MissingProperty index prop)
              | None => Jwks.checkKeys (S index) keys
              end) as Hstep by (by destruct key).
    simpl in Hstep. rewrite Hstep.
    destruct (Jwks.firstMissing key) as [prop|] eqn:E.
    + split; [done|]. intros Hall. inversion Hall as [|? ? [_ Hprops]]; subst.
      apply Hmissing in Hprops. congruence.
    + rewrite IH. split.
      * intros Hrest. constructor; [|done]. split; [done|]. by apply Hmissing.
      * intros Hall. by inversion Hall.
Qed.

Lemma loadJwks_outcome (jwks : Jwks.JSON) :
  (Jwks.loadJwks jwks = Jwks.loaded jwks ↔
   ∃ keys, jwks ≠ Jwks.JNull ∧ Jwks.member jwks "keys" = Some (Jwks.JArray keys)
     ∧ keys ≠ []
     ∧ Forall (λ key, key ≠ Jwks.JNull
                      ∧ ∀ prop, prop ∈ Jwks.requiredProps →
                          Jwks.truthy (Jwks.member key prop) = true) keys)
  ∧ (Jwks.loadJwks jwks = Jwks.loaded jwks ∨ ∃ logged, Jwks.loadJwks jwks = Jwks.exited 1 logged).
Proof.
  assert (Hshape : Jwks.loadJwks jwks
    = match jwks with
      | Jwks.JNull => Jwks.exited 1 Jwks.NullAccess
      | _ => match Jwks.member jwks "keys" with
             | Some (Jwks.JArray []) => Jwks.exited 1 Jwks.NoKeys
             | Some (Jwks.JArray keys) =>
                 match Jwks.checkKeys 0 keys with
                 | Some failure => Jwks.exited 1 failure
                 | None => Jwks.loaded jwks
                 end
             | _ => Jwks.exited 1 Jwks.NoKeys
             end
      end).
  { unfold Jwks.loadJwks. destruct jwks; try done;
      destruct (Jwks.member _ "keys") as [[| | | |[|]|]|]; done. }
  rewrite Hshape. clear Hshape.
  assert (jwks = Jwks.JNull ∨ jwks ≠ Jwks.JNull) as [->|Hnull]
    by (destruct jwks; (by left) || (by right)).
  { split; [|right; by eexists]. split; [done|]. by intros (? & ? & _). }
  assert (Hgo : match jwks with
                | Jwks.JNull => Jwks.exited 1 Jwks.NullAccess
                | _ => match Jwks.member jwks "keys" with
                       | Some (Jwks.JArray []) => Jwks.exited 1 Jwks.NoKeys
                       | Some (Jwks.JArray keys) =>
                           match Jwks.checkKeys 0 keys with
                           | Some failure => Jwks.exited 1 failure
                           | None => Jwks.loaded jwks
                           end
                       | _ => Jwks.exited 1 Jwks.NoKeys
                       end
                end
                = match Jwks.member jwks "keys" with
                  | Some (Jwks.JArray []) => Jwks.exited 1 Jwks.NoKeys
                  | Some (Jwks.JArray keys) =>
                      match Jwks.checkKeys 0 keys with
                      | Some failure => Jwks.exited 1 failure
                      | None => Jwks.loaded jwks
                      end
                  | _ => Jwks.exited 1 Jwks.NoKeys
                  end) by (by destruct jwks).
  rewrite Hgo. clear Hgo.
  destruct (Jwks.member jwks "keys") as [[| | | |keys|]|];
    try (split; [split; [done | by intros (? & _ & ? & _)] | right; by eexists]).
  destruct keys as [|key keys].
  { split; [|right; by eexists]. split; [done|]. intros (keys & _ & [= <-] & Hne & _). done. }
  destruct (Jwks.checkKeys 0 (key :: keys)) as [failure|] eqn:E.
  - split; [|right; by eexists]. split; [done|].
    intros (keys' & _ & [= <-] & _ & Hall). apply (checkKeys_None 0) in Hall. congruence.
  - split; [|by left]. split; [|done]. intros _. exists (key :: keys).
    split_and!; [done..|]. by apply (checkKeys_None 0).
Qed.

(** X20. [loadJwks] returns the key set, unchanged, exactly when its
    [keys] member is a non-empty array in which no key is null and every
    key has a truthy value for each of the twelve required properties; in
    every other case the process ends with exit code 1. *)
Theorem loadJwks_accepts_complete_keys (jwks : Jwks.JSON) :
  (Jwks.loadJwks jwks = Jwks.loaded jwks ↔
   ∃ keys, jwks ≠ Jwks.JNull ∧ Jwks.member jwks "keys" = Some (Jwks.JArray keys)
     ∧ keys ≠ []
     ∧ Forall (λ key, key ≠ Jwks.JNull
                      ∧ ∀ prop, prop ∈ Jwks.requiredProps →
                          Jwks.truthy (Jwks.member key prop) = true) keys)
  ∧ (Jwks.loadJwks jwks = Jwks.loaded jwks ∨ ∃ logged, Jwks.loadJwks jwks = Jwks.exited 1 logged).
Proof. apply loadJwks_outcome. Qed.

Lemma loadJwks_accepts_complete_keys_witness :
  Jwks.loadJwks (Jwks.JObject [("keys", Jwks.JArray [Jwks.JObject [("kty", Jwks.JString "RSA")]])])
  ≠ Jwks.loaded (Jwks.JObject [("keys", Jwks.JArray [Jwks.JObject [("kty", Jwks.JString "RSA")]])]).
Proof.
  intros Hloaded.
  apply loadJwks_accepts_complete_keys in Hloaded as (keys & _ & [= <-] & _ & Hall).
  inversion Hall as [|? ? [_ Hprops] _]; subst.
  specialize (Hprops "kid"). discriminate Hprops. in_list.
Defined.

Lemma assign_member (members : list (string * Jwks.JSON)) (prop p : string)
    (value : Jwks.JSON) :
  Jwks.member (Jwks.JObject (Jwks.assign members prop value)) p
  = if decide (p = prop) then Some value else Jwks.member (Jwks.JObject members) p.
Proof.
  simpl. induction members as [|[q v] members IH]; simpl.
  - rewrite filter_cons. simpl. by destruct (decide (prop = p)), (decide (p = prop)).
  - destruct (decide (q = prop)) as [->|Hq]; rewrite !filter_cons; simpl.
    + destruct (decide (prop = p)) as [->|]; [by rewrite decide_True|].
      by rewrite decide_False.
    + destruct (decide (q = p)) as [->|]; simpl.
      * by rewrite decide_False.
      * exact IH.
Qed.

(** X21. The key set generate-keys.js writes is one idp.js loads: when
    the exported private key has a non-empty string for each of the nine
    RSA members, [loadJwks] returns the generated key set. *)
Theorem generated_jwks_is_loaded (exported : list (string * Jwks.JSON)) :
  (∀ prop, prop ∈ Jwks.rsaMembers →
     ∃ s, Jwks.member (Jwks.JObject exported) prop = Some (Jwks.JString s) ∧ s ≠ "") →
  Jwks.loadJwks (Jwks.generateJwks exported) = Jwks.loaded (Jwks.generateJwks exported).
Proof.
  intros Hexported. apply loadJwks_outcome.
  eexists. split_and!; [done | reflexivity | done |].
  constructor; [|constructor]. split; [done|]. intros prop Hprop.
  rewrite !assign_member.
  repeat (case_decide; [done|]).
  destruct (Hexported prop) as (s & -> & Hs).
  - unfold Jwks.requiredProps in Hprop. unfold Jwks.rsaMembers.
    repeat (apply elem_of_cons in Hprop as [->|Hprop]; [try done; in_list|]).
    by apply elem_of_nil in Hprop.
  - by destruct s.
Qed.

Lemma generated_jwks_is_loaded_witness :
  Jwks.loadJwks (Jwks.generateJwks Jwks.sampleExported)
  = Jwks.loaded (Jwks.generateJwks Jwks.sampleExported).
Proof.
  apply generated_jwks_is_loaded. intros prop Hprop. unfold Jwks.rsaMembers in Hprop.
  repeat (apply elem_of_cons in Hprop as [->|Hprop]; [eexists; split; [reflexivity | done]|]).
  by apply elem_of_nil in Hprop.
Defined.
